(** * Span/segment conversion of finetune (src/finetune/utils.py)

    A shallow embedding of [iob_precedes], [finetune_to_indico_sequence]
    and [indico_to_finetune_sequence], with the Python primitives they
    rely on (slices, negative indices, [str.find], [str.strip],
    [str.split], [list.insert]) written out over [Z] offsets, and of the
    helpers [truncate_text], [flatten], [remove_none], [list_transpose]
    and [iter_data] of the same file. *)

From Stdlib Require Import Ascii String.
From Stdlib Require Import List ZArith Lia Bool Permutation Sorted.
Import ListNotations.
Local Open Scope Z_scope.

(** ** Python primitives *)

Module Py.

(** A Python [str] is a list of characters; characters are read as code
    points below 256. *)
Definition str := list ascii.

Definition lit (s : string) : str := list_ascii_of_string s.

Definition len {A : Type} (l : list A) : Z := Z.of_nat (length l).

(** Exceptions that the modelled functions can raise. *)
Inductive exn := ValueError | IndexError | KeyError | TypeError | AttributeError.

Inductive result (A : Type) : Type :=
| Ok (a : A)
| Raise (e : exn).
Arguments Ok {A} a.
Arguments Raise {A} e.

Definition bind {A B : Type} (c : result A) (k : A -> result B) : result B :=
  match c with
  | Ok a => k a
  | Raise e => Raise e
  end.

(** [l[i]]: a negative index counts from the end; out of range raises
    IndexError. *)
Definition norm_item (n i : Z) : Z := if i <? 0 then i + n else i.

Definition getitem {A : Type} (l : list A) (i : Z) : result A :=
  let k := norm_item (len l) i in
  if (0 <=? k) && (k <? len l) then
    match nth_error l (Z.to_nat k) with
    | Some x => Ok x
    | None => Raise IndexError
    end
  else Raise IndexError.

(** [l[i] = x]. *)
Definition setitem {A : Type} (l : list A) (i : Z) (x : A) : result (list A) :=
  let k := norm_item (len l) i in
  if (0 <=? k) && (k <? len l) then
    Ok (firstn (Z.to_nat k) l ++ x :: skipn (S (Z.to_nat k)) l)
  else Raise IndexError.

(** [l.insert(i, x)]: the index is clamped, never out of range. *)
Definition insert {A : Type} (l : list A) (i : Z) (x : A) : list A :=
  let n := len l in
  let k := if i <? 0 then Z.max 0 (i + n) else Z.min i n in
  firstn (Z.to_nat k) l ++ x :: skipn (Z.to_nat k) l.

(** Slice bounds: a negative bound counts from the end, and both are
    clamped to [0, len]. *)
Definition norm_bound (n i : Z) : Z :=
  if i <? 0 then Z.max 0 (i + n) else Z.min i n.

(** [s[a:b]]; [None] is an omitted bound. *)
Definition slice {A : Type} (s : list A) (a b : option Z) : list A :=
  let n := len s in
  let lo := match a with None => 0 | Some i => norm_bound n i end in
  let hi := match b with None => n | Some i => norm_bound n i end in
  firstn (Z.to_nat (hi - lo)) (skipn (Z.to_nat lo) s).

Fixpoint str_eqb (a b : str) : bool :=
  match a, b with
  | [], [] => true
  | x :: a', y :: b' => Ascii.eqb x y && str_eqb a' b'
  | _, _ => false
  end.

(** [s.startswith(p)]. *)
Fixpoint startswith (s p : str) {struct p} : bool :=
  match p, s with
  | [], _ => true
  | y :: p', x :: s' => Ascii.eqb x y && startswith s' p'
  | _ :: _, [] => false
  end.

(** [sub in s] for strings. *)
Fixpoint contains (s sub : str) : bool :=
  startswith s sub ||
  match s with
  | [] => false
  | _ :: s' => contains s' sub
  end.

(** [c in s] for a one-character [c]. *)
Definition has_char (c : ascii) (s : str) : bool := existsb (Ascii.eqb c) s.

(** The scan of [s.find(sub, start)] over the suffix of [s] that begins
    at offset [pos]. *)
Fixpoint find_from (s sub : str) (pos : Z) : Z :=
  if startswith s sub then pos
  else match s with
       | [] => -1
       | _ :: s' => find_from s' sub (pos + 1)
       end.

(** [s.find(sub, start)]: a negative [start] counts from the end; a
    [start] beyond the end finds nothing, not even the empty string. *)
Definition find (s sub : str) (start : Z) : Z :=
  let n := len s in
  let st := if start <? 0 then Z.max 0 (start + n) else start in
  if n <? st then -1 else find_from (skipn (Z.to_nat st) s) sub st.

(** [str.isspace] on code points below 256. *)
Definition is_space (c : ascii) : bool :=
  let n := Z.of_nat (nat_of_ascii c) in
  ((9 <=? n) && (n <=? 13)) || ((28 <=? n) && (n <=? 32))
  || (n =? 133) || (n =? 160).

Fixpoint lstrip (s : str) : str :=
  match s with
  | c :: s' => if is_space c then lstrip s' else s
  | [] => []
  end.

(** [s.strip()]. *)
Definition strip (s : str) : str := rev (lstrip (rev (lstrip s))).

(** [s.split(sep, 1)] for a one-character [sep]: [None] when [sep] does
    not occur (the list has one element), else the two parts. *)
Fixpoint split1 (sep : ascii) (s : str) : option (str * str) :=
  match s with
  | [] => None
  | c :: s' =>
      if Ascii.eqb c sep then Some ([], s')
      else match split1 sep s' with
           | Some (a, b) => Some (c :: a, b)
           | None => None
           end
  end.

(** [x in l] for a list of integers. *)
Definition mem (x : Z) (l : list Z) : bool := existsb (Z.eqb x) l.

End Py.
Import Py.

Notation "x <- c1 ;; c2" := (bind c1 (fun x => c2))
  (at level 61, c1 at next level, right associativity).
Notation "' pat <- c1 ;; c2" :=
  (bind c1 (fun x => match x with pat => c2 end))
  (at level 61, pat pattern, c1 at next level, right associativity).

(** ** truncate_text, is_iob_tagged, iob_precedes *)

Definition truncate_text (text : str) (max_chars : Z) : str :=
  if max_chars <? len text then slice text None (Some max_chars) ++ lit "..."
  else text.

Definition is_iob_tagged (label : str) : bool := startswith label (lit "IE-").

(** The dictionary [mapping] of [iob_precedes]; a missing key raises
    KeyError. *)
Definition mapping (loc : str) : result str :=
  if str_eqb loc (lit "B") then Ok (lit "IE-")
  else if str_eqb loc (lit "I") then Ok (lit "IE-")
  else if str_eqb loc (lit "E") then Ok (lit "")
  else Raise KeyError.

(** [iob_precedes(left, right, pad_token)]. [left] may be Python's [None].
    The value is [Some (joinable, label)] for a returned pair and [None]
    when control falls off the end of the function.  Only the ValueError of
    unpacking a one-element split is caught. *)
Definition iob_precedes (left : option str) (right pad_token : str)
  : result (option (bool * str)) :=
  if match left with Some l => str_eqb l right | None => false end
     && str_eqb right pad_token
  then Ok (Some (true, pad_token))
  else
    match split1 "-" right with
    | None => Ok (Some (false, right))
    | Some (right_loc, right_label) =>
        if match left with
           | None => true
           | Some l => negb (has_char "-" l)
           end
        then m <- mapping right_loc ;; Ok (Some (false, m ++ right_label))
        else
          match match left with Some l => split1 "-" l | None => None end with
          | None => Ok (Some (false, right))
          | Some (left_loc, left_label) =>
              if negb (str_eqb left_label right_label)
              then m <- mapping right_loc ;; Ok (Some (false, m ++ right_label))
              else if contains left_label right_label
                   then m <- mapping right_loc ;; Ok (Some (true, m ++ right_label))
                   else Ok None
          end
    end.

(** ** Data model *)

(** A spaCy token, as far as the converters read it: [token.idx] and
    [token.text]. *)
Record token := { idx : Z; tok_text : str }.

(** One entry of the [labels] of [indico_to_finetune_sequence]: a single
    label when [multi_label] is off, a list of labels when it is on. *)
Inductive seg_label :=
| One (l : str)
| Many (ls : list str).

(** One entry of the [labels] of [finetune_to_indico_sequence]: a tuple is
    a multi-label prediction, anything else is one label. That one label is
    a string, or a list of strings: the entry that
    [indico_to_finetune_sequence] returns with [multi_label]. The labels
    inside a tuple are strings. *)
Inductive raw_label :=
| Single (l : str)
| Tuple (ls : list str)
| Listed (ls : list str).

Section Model.

(** Confidences are only copied into the annotations. *)
Context {Conf : Type}.

(** An annotation dict of the 'indico' format. [ann_text] and
    [ann_confidence] are [None] when the key is absent. *)
Record Annotation := {
  ann_start : Z;
  ann_end : Z;
  ann_label : str;
  ann_text : option str;
  ann_confidence : option Conf
}.

(** The tokenizer [NLP] and the sub-token encoder
    ([ENCODER._encode([s]).char_locs[0]]) come from finetune.encoding. *)
Variable NLP : str -> list token.
Variable ENCODER_char_locs : str -> list Z.

Definition token_starts_of (tokens : list token) : list Z := map idx tokens.
Definition token_ends_of (tokens : list token) : list Z :=
  map (fun t => idx t + len (tok_text t)) tokens.

(** [sorted(l, key=lambda x: x["start"])]: a stable sort. The elements are
    inserted from the right, each before the elements with the same
    [start]. *)
Fixpoint insert_by_start (a : Annotation) (l : list Annotation) : list Annotation :=
  match l with
  | [] => [a]
  | b :: l' =>
      if ann_start a <=? ann_start b then a :: l
      else b :: insert_by_start a l'
  end.

Definition sorted_by_start (l : list Annotation) : list Annotation :=
  fold_right insert_by_start [] l.

(** *** indico_to_finetune_sequence *)

(** [x or y] on an optional string: [None] and the empty string are
    false. *)
Definition or_str (x : option str) (y : str) : str :=
  match x with
  | Some (c :: s) => c :: s
  | _ => y
  end.

(** The body of the [if iob:] loop for one annotation: the sub-annotations
    appended to [new_label_seq]. *)
Definition iob_expand (none_value text : str) (annotation : Annotation)
  : list Annotation :=
  let start := ann_start annotation in
  let end_ := ann_end annotation in
  let label := ann_label annotation in
  if str_eqb label none_value then [annotation]
  else
    let sub_text := or_str (ann_text annotation) (slice text (Some start) (Some end_)) in
    let char_locs := ENCODER_char_locs sub_text in
    let start_char_locs := 0 :: slice char_locs None (Some (-1)) in
    let n := len start_char_locs in
    let loc0 := nth 0 start_char_locs 0 in
    let B_locs := if n =? 1 then (loc0, len sub_text)
                  else (loc0, nth 1 start_char_locs 0) in
    let E_locs := (last start_char_locs 0, len sub_text) in
    let sub a b l :=
      {| ann_start := start + a; ann_end := start + b;
         ann_label := l;
         ann_text := Some (slice sub_text (Some a) (Some b));
         ann_confidence := None |} in
    (if 0 <? n then [sub (fst B_locs) (snd B_locs) (lit "B-" ++ label)] else [])
    ++ (if 1 <? n then [sub (fst E_locs) (snd E_locs) (lit "E-" ++ label)] else [])
    ++ (if 2 <? n then [sub (snd B_locs) (fst E_locs) (lit "I-" ++ label)] else []).

(** [while start > 0 and start not in token_starts: start -= 1]. The loop
    runs at most [start] times. *)
Fixpoint round_start (token_starts : list Z) (fuel : nat) (start : Z) : Z :=
  match fuel with
  | O => start
  | S fuel' =>
      if (0 <? start) && negb (mem start token_starts)
      then round_start token_starts fuel' (start - 1)
      else start
  end.

(** [while end < len(text) and end not in token_ends: end += 1]. The loop
    runs at most [len(text) - end] times. *)
Fixpoint round_end (token_ends : list Z) (n : Z) (fuel : nat) (end_ : Z) : Z :=
  match fuel with
  | O => end_
  | S fuel' =>
      if (end_ <? n) && negb (mem end_ token_ends)
      then round_end token_ends n fuel' (end_ + 1)
      else end_
  end.

(** The state of the per-document loop. *)
Record s2s_state := {
  last_loc : Z;
  doc_subseqs : list str;
  doc_labels : list seg_label
}.

(** [doc_labels[j].append(label)]: a [str] has no [append]. *)
Definition append_label (l : seg_label) (label : str) : result seg_label :=
  match l with
  | Many ls => Ok (Many (ls ++ [label]))
  | One _ => Raise AttributeError
  end.

(** [doc_labels[j][:] + [label]]: a [str] plus a list is a TypeError. *)
Definition copy_plus (l : seg_label) (label : str) : result seg_label :=
  match l with
  | Many ls => Ok (Many (ls ++ [label]))
  | One _ => Raise TypeError
  end.

(** [while split_dist >= len(doc_subseqs[j]): ...]. [j] goes down by one
    each round and an index below [-len(doc_subseqs)] raises, so the loop
    runs at most [j + len(doc_subseqs) + 1] times. *)
Fixpoint walk_back (fuel : nat) (subseqs : list str) (label : str)
    (labels : list seg_label) (split_dist j : Z)
  : result (list seg_label * Z * Z) :=
  match fuel with
  | O => Raise IndexError
  | S fuel' =>
      s <- getitem subseqs j ;;
      if len s <=? split_dist then
        l <- getitem labels j ;;
        l' <- append_label l label ;;
        labels' <- setitem labels j l' ;;
        walk_back fuel' subseqs label labels' (split_dist - len s) (j - 1)
      else Ok (labels, split_dist, j)
  end.

Definition filler (multi_label : bool) (none_value : str) : seg_label :=
  if multi_label then Many [none_value] else One none_value.

(** The token rounding at the head of the loop body: [start] and [end]
    after [if not subtoken_labels and not iob: if label != none_value: ...]. *)
Definition round_annotation (none_value : str) (subtoken_labels iob : bool)
    (text : str) (token_starts token_ends : list Z) (annotation : Annotation)
  : Z * Z :=
  let start := ann_start annotation in
  let end_ := ann_end annotation in
  if negb subtoken_labels && negb iob && negb (str_eqb (ann_label annotation) none_value)
  then (round_start token_starts (Z.to_nat start) start,
        round_end token_ends (len text) (Z.to_nat (len text - end_)) end_)
  else (start, end_).

(** [if start > last_loc: ...]: the filler before the annotation. *)
Definition emit_filler (multi_label : bool) (none_value text : str)
    (last_loc start : Z) (subseqs : list str) (labels : list seg_label)
  : list str * list seg_label :=
  if last_loc <? start
  then (subseqs ++ [slice text (Some last_loc) (Some start)],
        labels ++ [filler multi_label none_value])
  else (subseqs, labels).

(** From [j = len(doc_labels) - 1] to the end of [if split_dist > 0: ...]:
    the last segment is cut where the annotation ends. The value is the two
    lists, [j] and [skip_end]. *)
Definition tail_split (last_loc end_ : Z) (subseqs : list str)
    (labels : list seg_label)
  : result (list str * list seg_label * Z * Z) :=
  let j := len labels - 1 in
  let split_dist := last_loc - end_ in
  if 0 <? split_dist then
    let j := j - 1 in
    tail <- getitem subseqs (-1) ;;
    '(subseqs, labels, j) <-
      (if negb (len tail =? split_dist) then
         let dual_label_sub_seq := slice tail (Some (- split_dist)) None in
         subseqs <- setitem subseqs (-1) (slice tail None (Some (- split_dist))) ;;
         let subseqs := subseqs ++ [dual_label_sub_seq] in
         l <- getitem labels (-1) ;;
         Ok (subseqs, labels ++ [l], j - 1)
       else Ok (subseqs, labels, j)) ;;
    tail' <- getitem subseqs (-1) ;;
    Ok (subseqs, labels, j, len tail')
  else Ok (subseqs, labels, j, 0).

(** [if start < last_loc - skip_end: ...]: the annotation reaches back into
    segments already emitted. The value is the two lists, the new [start]
    and the new [annotation_text]; slicing an absent [annotation_text] is a
    TypeError. *)
Definition overlap (multi_label : bool) (label : str) (last_loc start end_ : Z)
    (skip_end j : Z) (subseqs : list str) (labels : list seg_label)
    (annotation_text : option str)
  : result (list str * list seg_label * Z * option str) :=
  if start <? last_loc - skip_end then
    if negb multi_label then Raise ValueError
    else
      let split_dist := last_loc - start - skip_end in
      '(labels, split_dist, j) <-
        walk_back (Z.to_nat (j + len subseqs + 1)) subseqs label labels split_dist j ;;
      '(subseqs, labels) <-
        (if 0 <? split_dist then
           s <- getitem subseqs j ;;
           let dual_label_sub_seq := slice s (Some (- split_dist)) None in
           subseqs <- setitem subseqs j (slice s None (Some (- split_dist))) ;;
           let subseqs := insert subseqs (j + 1) dual_label_sub_seq in
           l <- getitem labels j ;;
           l' <- copy_plus l label ;;
           Ok (subseqs, insert labels (j + 1) l')
         else Ok (subseqs, labels)) ;;
      match annotation_text with
      | None => Raise TypeError
      | Some t =>
          Ok (subseqs, labels, last_loc, Some (slice t (Some (last_loc - end_)) None))
      end
  else Ok (subseqs, labels, start, annotation_text).

(** From [if start >= end:] to [last_loc = end]: the degenerate case, or
    the annotation's own segment with the check of its text. *)
Definition emit (multi_label iob : bool) (text label : str) (start end_ : Z)
    (subseqs : list str) (labels : list seg_label) (annotation_text : option str)
  : result s2s_state :=
  if end_ <=? start then
    Ok {| last_loc := Z.max start end_; doc_subseqs := subseqs; doc_labels := labels |}
  else
    let piece := slice text (Some start) (Some end_) in
    let subseqs := subseqs ++ [piece] in
    let labels := labels ++ [if multi_label then Many [label] else One label] in
    if negb iob
       && match annotation_text with
          | Some t => negb (str_eqb piece t)
          | None => false
          end
    then Raise ValueError
    else Ok {| last_loc := end_; doc_subseqs := subseqs; doc_labels := labels |}.

(** The body of [for i, annotation in enumerate(label_seq)]. *)
Definition s2s_step (multi_label : bool) (none_value : str)
    (subtoken_labels iob : bool) (text : str) (token_starts token_ends : list Z)
    (st : s2s_state) (annotation : Annotation) : result s2s_state :=
  let last_loc := last_loc st in
  let label := ann_label annotation in
  let '(start, end_) :=
    round_annotation none_value subtoken_labels iob text token_starts token_ends
      annotation in
  let '(subseqs, labels) :=
    emit_filler multi_label none_value text last_loc start
      (doc_subseqs st) (doc_labels st) in
  '(subseqs, labels, j, skip_end) <- tail_split last_loc end_ subseqs labels ;;
  '(subseqs, labels, start, annotation_text) <-
    overlap multi_label label last_loc start end_ skip_end j subseqs labels
      (ann_text annotation) ;;
  emit multi_label iob text label start end_ subseqs labels annotation_text.

Fixpoint s2s_loop (step : s2s_state -> Annotation -> result s2s_state)
    (label_seq : list Annotation) (st : s2s_state) : result s2s_state :=
  match label_seq with
  | [] => Ok st
  | annotation :: rest => st' <- step st annotation ;; s2s_loop step rest st'
  end.

(** The body of [for text, label_seq in zip(texts, labels)]: the pair
    appended to [all_subseqs] and [all_labels]. *)
Definition indico_to_finetune_doc (multi_label : bool) (none_value : str)
    (subtoken_labels iob : bool) (text : str) (label_seq : list Annotation)
  : result (list str * list seg_label) :=
  let tokens := NLP text in
  let token_starts := token_starts_of tokens in
  let token_ends := token_ends_of tokens in
  let label_seq :=
    if iob then flat_map (iob_expand none_value text) label_seq else label_seq in
  let label_seq := sorted_by_start label_seq in
  st <- s2s_loop
          (s2s_step multi_label none_value subtoken_labels iob text token_starts token_ends)
          label_seq
          {| last_loc := 0; doc_subseqs := []; doc_labels := [] |} ;;
  if negb (last_loc st =? len text) then
    Ok (doc_subseqs st ++ [slice text (Some (last_loc st)) None],
        doc_labels st ++ [filler multi_label none_value])
  else Ok (doc_subseqs st, doc_labels st).

Fixpoint map_result {A B : Type} (f : A -> result B) (l : list A) : result (list B) :=
  match l with
  | [] => Ok []
  | x :: l' => y <- f x ;; ys <- map_result f l' ;; Ok (y :: ys)
  end.

(** [indico_to_finetune_sequence(texts, labels, multi_label, none_value,
    subtoken_labels, iob)]; [labels = None] is the inference-time
    placeholder. *)
Definition indico_to_finetune_sequence (texts : list str)
    (labels : option (list (list Annotation))) (multi_label : bool)
    (none_value : str) (subtoken_labels iob : bool)
  : result (list (list str) * list (list seg_label)) :=
  let labels := match labels with
                | None => repeat [] (length texts)
                | Some l => l
                end in
  docs <- map_result
            (fun '(text, label_seq) =>
               indico_to_finetune_doc multi_label none_value subtoken_labels iob
                 text label_seq)
            (combine texts labels) ;;
  Ok (map fst docs, map snd docs).

(** *** finetune_to_indico_sequence *)

(** The state of the per-document loop. [raw_annotation_start] is at
    once the result of the last search and the offset the next search
    starts from. [warnings] collects the messages of [warnings.warn]. *)
Record f2i_state := {
  doc_annotations : list Annotation;
  annotation_ranges : list (Z * Z * str);
  start_idx : Z;
  end_idx : Z;
  raw_annotation_start : Z;
  warnings : list str
}.

Definition range_eqb (a b : Z * Z * str) : bool :=
  let '(s1, e1, l1) := a in
  let '(s2, e2, l2) := b in
  (s1 =? s2) && (e1 =? e2) && str_eqb l1 l2.

(** [key in annotation_ranges]. *)
Definition in_ranges (key : Z * Z * str) (ranges : list (Z * Z * str)) : bool :=
  existsb (range_eqb key) ranges.

(** [join, new_label = ...] inside the scan of the open annotations.
    Unpacking the [None] that [iob_precedes] can fall through to is a
    TypeError. *)
Definition join_test (iob : bool) (none_value : str) (item : Annotation)
    (label : str) : result (bool * str) :=
  if iob then
    r <- iob_precedes (Some (ann_label item)) label none_value ;;
    match r with
    | Some p => Ok p
    | None => Raise TypeError
    end
  else Ok (str_eqb (ann_label item) label, label).

(** [for i, item in enumerate(doc_annotations): ...] with its [pop] and
    [break]: the last [new_label] computed, the new
    [raw_annotation_start] and the remaining open annotations. *)
Fixpoint scan_open (iob : bool) (none_value label : str)
    (raw_annotation_start : Z) (new_label : option str) (items : list Annotation)
  : result (option str * Z * list Annotation) :=
  match items with
  | [] => Ok (new_label, raw_annotation_start, [])
  | item :: rest =>
      '(join, new_label) <- join_test iob none_value item label ;;
      if join && (raw_annotation_start - ann_end item <=? 1)
      then Ok (Some new_label, ann_start item, rest)
      else
        '(new_label, start, rest') <-
          scan_open iob none_value label raw_annotation_start (Some new_label) rest ;;
        Ok (new_label, start, item :: rest')
  end.

(** [while start_idx < n_tokens and annotation_start >=
    token_starts[start_idx]: start_idx += 1]. The loop runs at most
    [n_tokens - start_idx] times. *)
Fixpoint advance_start (token_starts : list Z) (annotation_start : Z)
    (fuel : nat) (start_idx : Z) : result Z :=
  match fuel with
  | O => Ok start_idx
  | S fuel' =>
      if start_idx <? len token_starts then
        t <- getitem token_starts start_idx ;;
        if t <=? annotation_start
        then advance_start token_starts annotation_start fuel' (start_idx + 1)
        else Ok start_idx
      else Ok start_idx
  end.

(** [while end_idx < (n_tokens - 1) and annotation_end >
    token_ends[end_idx]: end_idx += 1]. The loop runs at most
    [n_tokens - 1 - end_idx] times. *)
Fixpoint advance_end (token_ends : list Z) (annotation_end : Z)
    (fuel : nat) (end_idx : Z) : result Z :=
  match fuel with
  | O => Ok end_idx
  | S fuel' =>
      if end_idx <? len token_ends - 1 then
        t <- getitem token_ends end_idx ;;
        if t <? annotation_end
        then advance_end token_ends annotation_end fuel' (end_idx + 1)
        else Ok end_idx
      else Ok end_idx
  end.

Definition warning_message (stripped_text : str) : str :=
  lit "Failed to find predicted sequence in text: "
  ++ truncate_text stripped_text 100 ++ lit ".".

(** The body of [for label in label_list]. *)
Definition f2i_label_step (none_value : str) (subtoken_predictions iob : bool)
    (raw_text : str) (token_starts token_ends : list Z)
    (multi_label : bool) (sub_str : str) (confidences : option Conf)
    (st : f2i_state) (label : str) : result f2i_state :=
  let stripped_text := strip sub_str in
  let raw_annotation_start := find raw_text stripped_text (raw_annotation_start st) in
  let raw_annotation_end := raw_annotation_start + len stripped_text in
  '(new_label, raw_annotation_start, doc_annotations) <-
    (if negb (str_eqb label none_value)
     then scan_open iob none_value label raw_annotation_start None (doc_annotations st)
     else Ok (None, raw_annotation_start, doc_annotations st)) ;;
  new_label <-
    (if iob && (len doc_annotations =? 0) then
       r <- iob_precedes None label none_value ;;
       match r with
       | Some (_, new_label) => Ok (Some new_label)
       | None => Raise TypeError
       end
     else Ok new_label) ;;
  if raw_annotation_start =? -1 then
    Ok {| doc_annotations := doc_annotations;
          annotation_ranges := annotation_ranges st;
          start_idx := start_idx st;
          end_idx := end_idx st;
          raw_annotation_start := raw_annotation_start;
          warnings := warnings st ++ [warning_message stripped_text] |}
  else
    let annotation_start := raw_annotation_start in
    let annotation_end := raw_annotation_end in
    '(start_idx, end_idx, annotation_start, annotation_end) <-
      (if negb subtoken_predictions
          && (negb iob || negb (is_iob_tagged (or_str new_label label)))
       then
         let '(start_idx, end_idx) :=
           if multi_label then (0, 0) else (start_idx st, end_idx st) in
         if negb (str_eqb label none_value) then
           let n_tokens := len token_starts in
           start_idx <- advance_start token_starts annotation_start
                          (Z.to_nat (n_tokens - start_idx)) start_idx ;;
           annotation_start <- getitem token_starts (start_idx - 1) ;;
           end_idx <- advance_end token_ends annotation_end
                        (Z.to_nat (n_tokens - 1 - end_idx)) end_idx ;;
           annotation_end <- getitem token_ends end_idx ;;
           Ok (start_idx, end_idx, annotation_start, annotation_end)
         else Ok (start_idx, end_idx, annotation_start, annotation_end)
       else Ok (start_idx st, end_idx st, annotation_start, annotation_end)) ;;
    let text := slice raw_text (Some annotation_start) (Some annotation_end) in
    let '(doc_annotations, annotation_ranges) :=
      if negb (str_eqb label none_value) then
        let annotation :=
          {| ann_start := annotation_start;
             ann_end := annotation_end;
             ann_label := or_str new_label label;
             ann_text := Some text;
             ann_confidence := confidences |} in
        if negb (in_ranges (annotation_start, annotation_end, label) (annotation_ranges st))
        then (doc_annotations ++ [annotation],
              (annotation_start, annotation_end, label) :: annotation_ranges st)
        else (doc_annotations, annotation_ranges st)
      else (doc_annotations, annotation_ranges st) in
    Ok {| doc_annotations := doc_annotations;
          annotation_ranges := annotation_ranges;
          start_idx := start_idx;
          end_idx := end_idx;
          raw_annotation_start := raw_annotation_start;
          warnings := warnings st |}.

(** The body of [for label in label_list] for a label that is a list. A
    list is not [none_value] and is not the label of any open annotation, so
    nothing is joined; [iob_precedes] calls [split] on it, which a list does
    not have; and [(annotation_start, annotation_end, label)] cannot be
    looked up in the set [annotation_ranges], since a list is not hashable.
    The body ends without an exception only when the segment is not
    found. *)
Definition f2i_list_label_step (subtoken_predictions iob : bool)
    (raw_text : str) (token_starts token_ends : list Z) (sub_str : str)
    (st : f2i_state) : result f2i_state :=
  let stripped_text := strip sub_str in
  let raw_annotation_start := find raw_text stripped_text (raw_annotation_start st) in
  if iob then Raise AttributeError
  else if raw_annotation_start =? -1 then
    Ok {| doc_annotations := doc_annotations st;
          annotation_ranges := annotation_ranges st;
          start_idx := start_idx st;
          end_idx := end_idx st;
          raw_annotation_start := raw_annotation_start;
          warnings := warnings st ++ [warning_message stripped_text] |}
  else
    let annotation_start := raw_annotation_start in
    let annotation_end := raw_annotation_start + len stripped_text in
    _ <- (if negb subtoken_predictions then
            let n_tokens := len token_starts in
            start_idx <- advance_start token_starts annotation_start
                           (Z.to_nat (n_tokens - start_idx st)) (start_idx st) ;;
            annotation_start <- getitem token_starts (start_idx - 1) ;;
            end_idx <- advance_end token_ends annotation_end
                         (Z.to_nat (n_tokens - 1 - end_idx st)) (end_idx st) ;;
            annotation_end <- getitem token_ends end_idx ;;
            Ok (annotation_start, annotation_end)
          else Ok (annotation_start, annotation_end)) ;;
    Raise TypeError.

Fixpoint f2i_labels (step : f2i_state -> str -> result f2i_state)
    (label_list : list str) (st : f2i_state) : result f2i_state :=
  match label_list with
  | [] => Ok st
  | label :: rest => st' <- step st label ;; f2i_labels step rest st'
  end.

(** The body of [for sub_str, raw_label, confidences in zip(...)]: the
    labels of a tuple, or the one label, go through the body of
    [for label in label_list]. *)
Definition f2i_segment_step (none_value : str) (subtoken_predictions iob : bool)
    (raw_text : str) (token_starts token_ends : list Z)
    (st : f2i_state) (seg : str * raw_label * option Conf) : result f2i_state :=
  let '(sub_str, raw_label, confidences) := seg in
  match raw_label with
  | Single l =>
      f2i_labels
        (f2i_label_step none_value subtoken_predictions iob raw_text token_starts
           token_ends false sub_str confidences)
        [l] st
  | Tuple ls =>
      f2i_labels
        (f2i_label_step none_value subtoken_predictions iob raw_text token_starts
           token_ends true sub_str confidences)
        ls st
  | Listed _ =>
      f2i_list_label_step subtoken_predictions iob raw_text token_starts token_ends
        sub_str st
  end.

Fixpoint f2i_loop (step : f2i_state -> str * raw_label * option Conf -> result f2i_state)
    (segs : list (str * raw_label * option Conf)) (st : f2i_state)
  : result f2i_state :=
  match segs with
  | [] => Ok st
  | seg :: rest => st' <- step st seg ;; f2i_loop step rest st'
  end.

(** [zip(doc_seq, label_seq, prob_seq or [None] * len(doc_seq))]. *)
Definition zip_segments (doc_seq : list str) (label_seq : list raw_label)
    (prob_seq : option (list Conf)) : list (str * raw_label * option Conf) :=
  let confs := match prob_seq with
               | Some (c :: cs) => map Some (c :: cs)
               | _ => repeat None (length doc_seq)
               end in
  combine (combine doc_seq label_seq) confs.

(** [doc["label"] = doc["label"].split("-", 1)[-1]] for the tagged
    annotations. *)
Definition strip_iob_tag (doc : Annotation) : Annotation :=
  if is_iob_tagged (ann_label doc) then
    {| ann_start := ann_start doc;
       ann_end := ann_end doc;
       ann_label := match split1 "-" (ann_label doc) with
                    | Some (_, base) => base
                    | None => ann_label doc
                    end;
       ann_text := ann_text doc;
       ann_confidence := ann_confidence doc |}
  else doc.

Definition f2i_init : f2i_state :=
  {| doc_annotations := []; annotation_ranges := [];
     start_idx := 0; end_idx := 0; raw_annotation_start := 0; warnings := [] |}.

(** The body of [for raw_text, doc_seq, label_seq, prob_seq in zip(...)]:
    the list appended to [annotations], with the warnings emitted on the
    way. *)
Definition finetune_to_indico_doc (none_value : str)
    (subtoken_predictions iob : bool) (raw_text : str) (doc_seq : list str)
    (label_seq : list raw_label) (prob_seq : option (list Conf))
  : result (list Annotation * list str) :=
  let tokens := NLP raw_text in
  let token_starts := token_starts_of tokens in
  let token_ends := token_ends_of tokens in
  st <- f2i_loop
          (f2i_segment_step none_value subtoken_predictions iob raw_text
             token_starts token_ends)
          (zip_segments doc_seq label_seq prob_seq) f2i_init ;;
  let doc_annotations :=
    if iob then map strip_iob_tag (doc_annotations st) else doc_annotations st in
  Ok (sorted_by_start doc_annotations, warnings st).

(** [finetune_to_indico_sequence(raw_texts, subseqs, labels, probs,
    none_value, subtoken_predictions, iob)]. *)
Definition finetune_to_indico_sequence (raw_texts : list str)
    (subseqs : list (list str)) (labels : list (list raw_label))
    (probs : option (list (list Conf))) (none_value : str)
    (subtoken_predictions iob : bool)
  : result (list str * list (list Annotation) * list str) :=
  let probs := match probs with
               | Some (p :: ps) => map Some (p :: ps)
               | _ => repeat None (length raw_texts)
               end in
  docs <- map_result
            (fun '(raw_text, doc_seq, label_seq, prob_seq) =>
               finetune_to_indico_doc none_value subtoken_predictions iob
                 raw_text doc_seq label_seq prob_seq)
            (combine (combine (combine raw_texts subseqs) labels) probs) ;;
  Ok (raw_texts, map fst docs, concat (map snd docs)).

End Model.

(** ** flatten, list_transpose, iter_data *)

(** [flatten(outer)]: [[el for inner in outer for el in inner]]. *)
Definition flatten {A : Type} (outer : list (list A)) : list A := concat outer.

(** [e is not None]. *)
Definition is_not_none {A : Type} (e : option A) : bool :=
  match e with
  | Some _ => true
  | None => false
  end.

(** [remove_none(l)]: [[e for e in l if e is not None]]. *)
Definition remove_none {A : Type} (l : list (option A)) : list (option A) :=
  filter is_not_none l.

(** The first elements of all rows, when every row has one: one step of the
    [zip] over the rows. *)
Fixpoint heads {A : Type} (rows : list (list A)) : option (list A) :=
  match rows with
  | [] => Some []
  | [] :: _ => None
  | (x :: _) :: rows' =>
      match heads rows' with
      | Some xs => Some (x :: xs)
      | None => None
      end
  end.

(** [zip] over the rows [first], [rest], as lists: it stops with the
    shortest row. *)
Fixpoint zip_rows {A : Type} (first : list A) (rest : list (list A))
  : list (list A) :=
  match first with
  | [] => []
  | x :: first' =>
      match heads rest with
      | Some xs => (x :: xs) :: zip_rows first' (map (@tl A) rest)
      | None => []
      end
  end.

(** [list_transpose(l)]: the list of the tuples of [zip] over the rows of
    [l]; [zip()] of nothing is empty. *)
Definition list_transpose {A : Type} (l : list (list A)) : list (list A) :=
  match l with
  | [] => []
  | first :: rest => zip_rows first rest
  end.

Module IterData.

(** What can end the generator [iter_data] other than the end of its
    loop. [StopIteration] is the [raise StopIteration] of the loop body. *)
Inductive exn :=
  IndexError | ZeroDivisionError | ValueError | TypeError | StopIteration.

(** A yielded value: the slice of the only data, or the slices of all
    datas (the generator expression, read when it is yielded). *)
Inductive batch (A : Type) : Type :=
| Slice (s : list A)
| Slices (ss : list (list A)).
Arguments Slice {A} s.
Arguments Slices {A} ss.

(** The number of items of [range(0, stop, step)] for a step other than 0. *)
Definition range_len (stop step : Z) : Z :=
  if 0 <? step
  then if 0 <? stop then 1 + (stop - 1) / step else 0
  else if stop <? 0 then 1 + (- 1 - stop) / (- step) else 0.

(** [range(0, stop, step)]; [None] is the ValueError of a zero step. *)
Definition range0 (stop step : Z) : option (list Z) :=
  if step =? 0 then None
  else Some (map (fun k => Z.of_nat k * step) (seq 0 (Z.to_nat (range_len stop step)))).

(** The value yielded at index [i]. *)
Definition batch_at {A : Type} (datas : list (list A)) (n_batch i : Z) : batch A :=
  match datas with
  | [d] => Slice (slice d (Some i) (Some (i + n_batch)))
  | _ => Slices (map (fun d => slice d (Some i) (Some (i + n_batch))) datas)
  end.

(** The loop [for i in tqdm(range(0, n, n_batch), ...)], with [n_batches]
    counted up; [tqdm] hands on the items of the range. [max_batches] is
    [None] for the default [float("inf")]. *)
Fixpoint batches {A : Type} (datas : list (list A)) (n_batch : Z)
    (max_batches : option Z) (indices : list Z) (n_batches : Z)
  : list (batch A) * option exn :=
  match indices with
  | [] => ([], None)
  | i :: rest =>
      if match max_batches with
         | Some m => m <=? n_batches
         | None => false
         end
      then ([], Some StopIteration)
      else
        let '(bs, e) := batches datas n_batch max_batches rest (n_batches + 1) in
        (batch_at datas n_batch i :: bs, e)
  end.

(** [iter_data] on [datas], [n_batch], [truncate], [max_batches]: the values yielded
    and, if the generator ends with an exception, the exception. *)
Definition iter_data {A : Type} (datas : list (list A)) (n_batch : Z)
    (truncate : bool) (max_batches : option Z) : list (batch A) * option exn :=
  match datas with
  | [] => ([], Some IndexError)
  | d0 :: _ =>
      let n := len d0 in
      if truncate && (n_batch =? 0) then ([], Some ZeroDivisionError)
      else
        let n := if truncate then n / n_batch * n_batch else n in
        (* n = min(n, max_batches * n_batch): the product is inf, nan or -inf
           for the default max_batches; range() refuses the float -inf *)
        match match max_batches with
              | Some m => Some (Z.min n (m * n_batch))
              | None => if n_batch <? 0 then None else Some n
              end with
        | None => ([], Some TypeError)
        | Some n =>
            match range0 n n_batch with
            | None => ([], Some ValueError)
            | Some indices => batches datas n_batch max_batches indices 0
            end
        end
  end.

End IterData.

(** ** Vocabulary of the statements *)

(** The keys of [mapping]. *)
Definition iob_locs : list str := [lit "B"; lit "I"; lit "E"].

(** The data-model invariant of an annotation over [text]: offsets within
    the text, and a [text] field, when present, equal to the slice. *)
Definition well_formed {Conf : Type} (text : str) (a : @Annotation Conf) : Prop :=
  0 <= ann_start a <= ann_end a /\ ann_end a <= len text
  /\ (ann_text a = None
      \/ ann_text a = Some (slice text (Some (ann_start a)) (Some (ann_end a)))).

(** A segment label that carries nothing but the filler: the filler
    itself, or a tuple of fillers. A list is never the filler to the way
    back, whatever it holds. *)
Definition only_filler (none_value : str) (raw : raw_label) : Prop :=
  match raw with
  | Single l => l = none_value
  | Tuple ls => Forall (eq none_value) ls
  | Listed _ => False
  end.

(** The [(start, end, label)] triple of an annotation. *)
Definition triple {Conf : Type} (a : @Annotation Conf) : Z * Z * str :=
  (ann_start a, ann_end a, ann_label a).

(** Annotations in the order of their [start] that lie within the text,
    do not overlap, are not empty and have the text of their range if they
    have a text; [last_loc] is the end of the previous one. *)
Fixpoint disjoint {Conf : Type} (text : str) (last_loc : Z)
    (annotations : list (@Annotation Conf)) : Prop :=
  match annotations with
  | [] => True
  | a :: rest =>
      last_loc <= ann_start a /\ ann_start a < ann_end a /\ ann_end a <= len text
      /\ (ann_text a = None
          \/ ann_text a = Some (slice text (Some (ann_start a)) (Some (ann_end a))))
      /\ disjoint text (ann_end a) rest
  end.

(** The entry of [doc_labels] for one label. *)
Definition label_entry (multi_label : bool) (label : str) : seg_label :=
  if multi_label then Many [label] else One label.



(** The segments and labels expected for annotations in the order of their
    [start] that do not overlap: a filler for each gap, then the
    annotation. *)
Fixpoint labelled_segments {Conf : Type} (text none_value : str) (last_loc : Z)
    (annotations : list (@Annotation Conf)) : list (str * str) :=
  match annotations with
  | [] => []
  | a :: rest =>
      (if last_loc <? ann_start a
       then [(slice text (Some last_loc) (Some (ann_start a)), none_value)]
       else [])
      ++ (slice text (Some (ann_start a)) (Some (ann_end a)), ann_label a)
         :: labelled_segments text none_value (ann_end a) rest
  end.

(** The cursor after such annotations. *)
Fixpoint final_loc {Conf : Type} (last_loc : Z) (annotations : list (@Annotation Conf))
  : Z :=
  match annotations with
  | [] => last_loc
  | a :: rest => final_loc (ann_end a) rest
  end.



(** Every open annotation has its key on record, and no two open
    annotations have the same triple. *)
Definition dedup_inv {Conf : Type} (st : f2i_state (Conf := Conf)) : Prop :=
  (forall item, In item (doc_annotations st) ->
                In (triple item) (annotation_ranges st))
  /\ NoDup (map triple (doc_annotations st)).

(** The order that [sorted_by_start] establishes. *)
Definition starts_in_order {Conf : Type} (a b : @Annotation Conf) : Prop :=
  ann_start a <= ann_start b.

(** An annotation of the examples, with its text. *)
Definition ann (label : string) (start end_ : Z) (text : string)
  : @Annotation unit :=
  {| ann_start := start; ann_end := end_; ann_label := lit label;
     ann_text := Some (lit text); ann_confidence := None |}.

(** A tokenizer for the examples: tokens are the maximal runs of
    non-space characters. *)
Fixpoint ws_tokenize (s : str) (pos : Z) (cur : option (Z * str)) : list token :=
  let flush := match cur with
               | Some (i, t) => [{| idx := i; tok_text := rev t |}]
               | None => []
               end in
  match s with
  | [] => flush
  | c :: s' =>
      if is_space c then flush ++ ws_tokenize s' (pos + 1) None
      else ws_tokenize s' (pos + 1)
             (Some match cur with
                   | Some (i, t) => (i, c :: t)
                   | None => (pos, [c])
                   end)
  end.

Definition ws_tokens (s : str) : list token := ws_tokenize s 0 None.

(** An encoder for the examples: a sub-token boundary after every fourth
    character and at the end of the text. *)
Fixpoint every_fourth (fuel : nat) (pos n : Z) : list Z :=
  match fuel with
  | O => []
  | S fuel' => if pos + 4 <? n then (pos + 4) :: every_fourth fuel' (pos + 4) n
               else [n]
  end.

Definition four_char_locs (s : str) : list Z :=
  match s with
  | [] => []
  | _ => every_fourth (length s) 0 (len s)
  end.

(** The length of the shortest of a row of [n] elements and [rows]. *)
Definition shortest_row {A : Type} (n : nat) (rows : list (list A)) : nat :=
  fold_right (fun r m => Nat.min (length r) m) n rows.

(** The length of the shortest row of [l], 0 without rows. *)
Definition shortest {A : Type} (l : list (list A)) : nat :=
  match l with
  | [] => 0
  | first :: rest => shortest_row (length first) rest
  end.

(** The shape of an entry of [doc_labels] under [multi_label]: a list of
    one or more labels when it is on, one label when it is off. *)
Definition label_shape (multi_label : bool) (l : seg_label) : Prop :=
  match l with
  | One _ => multi_label = false
  | Many ls => multi_label = true /\ ls <> []
  end.

(** Segments and labels that go together. *)
Definition aligned (multi_label : bool) (subseqs : list str) (labels : list seg_label)
  : Prop :=
  length subseqs = length labels /\ Forall (label_shape multi_label) labels.

(** An annotation with its offsets rounded as the loop body rounds them. *)
Definition rounded {Conf : Type} (none_value : str) (subtoken_labels iob : bool)
    (text : str) (token_starts token_ends : list Z) (a : @Annotation Conf)
  : @Annotation Conf :=
  let r := round_annotation none_value subtoken_labels iob text token_starts
             token_ends a in
  {| ann_start := fst r; ann_end := snd r; ann_label := ann_label a;
     ann_text := ann_text a; ann_confidence := ann_confidence a |}.

(** The string labels of one entry of the [labels] of
    [finetune_to_indico_sequence], as its loop reads them; a list is one
    label that is no string. *)
Definition labels_of (raw : raw_label) : list str :=
  match raw with
  | Single l => [l]
  | Tuple ls => ls
  | Listed _ => []
  end.

(** How many labels the loop reads from one entry. *)
Definition label_count (raw : raw_label) : nat :=
  match raw with
  | Single _ => 1
  | Tuple ls => length ls
  | Listed _ => 1
  end.

(** An entry that is a string or a tuple of strings. *)
Definition plain_label (raw : raw_label) : Prop :=
  match raw with
  | Listed _ => False
  | _ => True
  end.

(** The entry of the [labels] of [finetune_to_indico_sequence] that an
    entry of the labels of [indico_to_finetune_sequence] is, handed over as
    it is. *)
Definition as_raw (l : seg_label) : raw_label :=
  match l with
  | One s => Single s
  | Many ls => Listed ls
  end.

(** [P] holds of every annotation that the loop body can build for
    [label]: the label is [new_label or label], where without [iob]
    [new_label] is [None] or [label]; the text is read off the document;
    without [subtoken_predictions] and [iob] the offsets are read off the
    tokens. *)
Definition built_with {Conf : Type} (none_value : str)
    (subtoken_predictions iob : bool) (raw_text : str)
    (token_starts token_ends : list Z) (P : @Annotation Conf -> Prop) (label : str)
  : Prop :=
  forall (s e : Z) (new_label : option str) (confidences : option Conf),
    (iob = false -> new_label = None \/ new_label = Some label) ->
    (subtoken_predictions = false -> iob = false ->
     In s token_starts /\ In e token_ends) ->
    label <> none_value ->
    P {| ann_start := s; ann_end := e; ann_label := or_str new_label label;
         ann_text := Some (slice raw_text (Some s) (Some e));
         ann_confidence := confidences |}.

(** * Properties *)

#[local] Arguments Ascii.eqb : simpl never.

(** ** Facts about the primitives *)

Lemma str_eqb_refl (s : str) : str_eqb s s = true.
Proof.
  induction s as [|c s IH]; simpl; [reflexivity|].
  now rewrite Ascii.eqb_refl, IH.
Qed.

Lemma str_eqb_eq (a b : str) : str_eqb a b = true <-> a = b.
Proof.
  split; [|intros ->; apply str_eqb_refl].
  revert b; induction a as [|x a IH]; intros [|y b]; simpl; try easy.
  intros H. apply andb_true_iff in H as [Hc Hs].
  apply Ascii.eqb_eq in Hc. apply IH in Hs. now subst.
Qed.

Lemma str_eqb_neq (a b : str) : str_eqb a b = false <-> a <> b.
Proof.
  split.
  - intros H E. apply str_eqb_eq in E. congruence.
  - intros H. destruct (str_eqb a b) eqn:E; [|reflexivity].
    apply str_eqb_eq in E. contradiction.
Qed.

Lemma startswith_app (p s : str) : startswith (p ++ s) p = true.
Proof.
  induction p as [|c p IH]; simpl; [reflexivity|].
  now rewrite Ascii.eqb_refl, IH.
Qed.

Lemma startswith_refl (s : str) : startswith s s = true.
Proof.
  induction s as [|c s IH]; simpl; [reflexivity|].
  now rewrite Ascii.eqb_refl, IH.
Qed.

Lemma contains_refl (s : str) : contains s s = true.
Proof.
  destruct s; simpl; [reflexivity|].
  now rewrite Ascii.eqb_refl, startswith_refl.
Qed.

(** Splitting [loc-base] at its first dash gives back [loc] and [base]
    when [loc] has no dash. *)
Lemma split1_dash (loc base : str) :
  has_char "-" loc = false ->
  split1 "-" (loc ++ "-"%char :: base) = Some (loc, base).
Proof.
  unfold has_char. induction loc as [|c loc IH]; simpl; intros H.
  - reflexivity.
  - apply orb_false_iff in H as [Hc Hl].
    rewrite Ascii.eqb_sym, Hc, (IH Hl). reflexivity.
Qed.

Lemma has_char_app (c : ascii) (a b : str) :
  has_char c (a ++ c :: b) = true.
Proof.
  unfold has_char. rewrite existsb_app. simpl.
  now rewrite Ascii.eqb_refl, orb_true_r.
Qed.

Lemma split1_none (s : str) :
  has_char "-" s = false <-> split1 "-" s = None.
Proof.
  unfold has_char. induction s as [|c s IH]; simpl; [easy|].
  rewrite (Ascii.eqb_sym "-" c).
  destruct (Ascii.eqb c "-"); simpl; [easy|].
  destruct (split1 "-" s) as [[a b]|]; split; intros H; try easy.
  - apply IH in H. discriminate.
  - now apply IH.
Qed.

(** ** The primitives on Python's own examples *)

Example find_negative_start :
  find (lit "hello world") (lit "hello") (-1) = -1
  /\ find (lit "abc") (lit "c") (-1) = 2
  /\ find (lit "abc") (lit "bc") (-5) = 1.
Proof. repeat split. Qed.

Example find_empty :
  find (lit "abc") (lit "") 3 = 3 /\ find (lit "abc") (lit "") 4 = -1.
Proof. repeat split. Qed.

Example insert_clamps :
  insert [1; 2; 3] (-1) 9 = [1; 2; 9; 3]
  /\ insert [1; 2; 3] 0 9 = [9; 1; 2; 3]
  /\ insert [1; 2; 3] (-10) 9 = [9; 1; 2; 3]
  /\ insert [1; 2; 3] 10 9 = [1; 2; 3; 9].
Proof. repeat split. Qed.

Example getitem_negative :
  getitem [1; 2; 3] (-1) = Ok 3
  /\ getitem [1; 2; 3] (-4) = Raise IndexError
  /\ getitem [1; 2; 3] 3 = Raise IndexError.
Proof. repeat split. Qed.

Example slice_negative :
  slice (lit "0123456789") (Some (-5)) None = lit "56789"
  /\ slice (lit "0123456789") None (Some (-5)) = lit "01234"
  /\ slice (lit "abc") (Some (-5)) None = lit "abc"
  /\ slice (lit "abc") None (Some (-5)) = lit ""
  /\ slice (lit "abc") (Some 2) (Some 1) = lit "".
Proof. repeat split. Qed.

Example split1_first_dash :
  split1 "-" (lit "IE-foo-bar") = Some (lit "IE", lit "foo-bar")
  /\ split1 "-" (lit "foo") = None.
Proof. repeat split. Qed.

Example sorted_by_start_stable :
  sorted_by_start [ann "A" 1 2 "a"; ann "B" 0 1 "b"; ann "C" 1 3 "c"]
  = [ann "B" 0 1 "b"; ann "A" 1 2 "a"; ann "C" 1 3 "c"].
Proof. reflexivity. Qed.

Example ws_tokens_offsets :
  map idx (ws_tokens (lit "in New York City")) = [0; 3; 7; 12]
  /\ token_ends_of (ws_tokens (lit "in New York City")) = [2; 6; 11; 16].
Proof. repeat split. Qed.

(** ** One document at a time *)

(** The two entry points on a batch of one document are their loop body. *)
Lemma indico_to_finetune_sequence_one {Conf : Type} (NLP : str -> list token)
    (ENCODER_char_locs : str -> list Z) (multi_label : bool) (none_value : str)
    (subtoken_labels iob : bool) (text : str) (label_seq : list (@Annotation Conf)) :
  indico_to_finetune_sequence NLP ENCODER_char_locs [text] (Some [label_seq])
    multi_label none_value subtoken_labels iob
  = (doc <- indico_to_finetune_doc NLP ENCODER_char_locs multi_label none_value
              subtoken_labels iob text label_seq ;;
     Ok ([fst doc], [snd doc])).
Proof.
  unfold indico_to_finetune_sequence. cbn [combine map_result].
  now destruct (indico_to_finetune_doc _ _ _ _ _ _ _ _).
Qed.

Lemma finetune_to_indico_sequence_one {Conf : Type} (NLP : str -> list token)
    (none_value : str) (subtoken_predictions iob : bool) (raw_text : str)
    (doc_seq : list str) (label_seq : list raw_label) :
  finetune_to_indico_sequence (Conf := Conf) NLP [raw_text] [doc_seq] [label_seq] None
    none_value subtoken_predictions iob
  = (doc <- finetune_to_indico_doc NLP none_value subtoken_predictions iob raw_text
              doc_seq label_seq None ;;
     Ok ([raw_text], [fst doc], snd doc)).
Proof.
  unfold finetune_to_indico_sequence. cbn [length repeat combine map_result].
  destruct (finetune_to_indico_doc _ _ _ _ _ _ _ _) as [[anns warned]|];
    cbn [bind map fst snd concat]; [now rewrite app_nil_r | reflexivity].
Qed.

(** ** The join policy *)

Lemma mapping_iob_locs (loc : str) :
  In loc iob_locs ->
  mapping loc = Ok (if str_eqb loc (lit "E") then lit "" else lit "IE-").
Proof.
  intros [<-|[<-|[<-|[]]]]; reflexivity.
Qed.

Lemma mapping_other (loc : str) :
  ~ In loc iob_locs -> mapping loc = Raise KeyError.
Proof.
  intros H. unfold mapping.
  destruct (str_eqb loc (lit "B")) eqn:EB.
  { apply str_eqb_eq in EB. exfalso. apply H. subst. simpl. auto. }
  destruct (str_eqb loc (lit "I")) eqn:EI.
  { apply str_eqb_eq in EI. exfalso. apply H. subst. simpl. auto. }
  destruct (str_eqb loc (lit "E")) eqn:EE.
  { apply str_eqb_eq in EE. exfalso. apply H. subst. simpl. auto. }
  reflexivity.
Qed.

(** C8. Two labels [loc_l-base] and [loc_r-base] with the same base, the
    right one tagged B, I or E, are joinable; the joined label is [IE-base]
    for B and I, and the bare [base] for E. The right label is a label, not
    the filler. *)
Theorem iob_precedes_same_base (loc_l loc_r base pad_token : str) :
  has_char "-" loc_l = false ->
  In loc_r iob_locs ->
  loc_r ++ "-"%char :: base <> pad_token ->
  iob_precedes (Some (loc_l ++ "-"%char :: base)) (loc_r ++ "-"%char :: base) pad_token
  = Ok (Some (true, if str_eqb loc_r (lit "E") then base else lit "IE-" ++ base)).
Proof.
  intros Hl Hr Hpad. unfold iob_precedes.
  apply str_eqb_neq in Hpad. rewrite Hpad, andb_false_r.
  assert (Hnd : has_char "-" loc_r = false)
    by (destruct Hr as [<-|[<-|[<-|[]]]]; reflexivity).
  rewrite (split1_dash _ _ Hnd), has_char_app. simpl negb. cbv iota.
  rewrite (split1_dash _ _ Hl), str_eqb_refl. simpl negb. cbv iota.
  rewrite contains_refl, (mapping_iob_locs _ Hr).
  destruct (str_eqb loc_r (lit "E")); reflexivity.
Qed.

Lemma iob_precedes_same_base_witness :
  iob_precedes (Some (lit "B-PERSON")) (lit "I-PERSON") (lit "<PAD>")
    = Ok (Some (true, lit "IE-PERSON"))
  /\ iob_precedes (Some (lit "IE-PERSON")) (lit "E-PERSON") (lit "<PAD>")
    = Ok (Some (true, lit "PERSON")).
Proof.
  split.
  - apply (iob_precedes_same_base (lit "B") (lit "I") (lit "PERSON") (lit "<PAD>"));
      [reflexivity | simpl; auto | discriminate].
  - apply (iob_precedes_same_base (lit "IE") (lit "E") (lit "PERSON") (lit "<PAD>"));
      [reflexivity | simpl; auto | discriminate].
Defined.

(** C10. [iob_precedes] returns a pair, whatever the left label, when the
    right label has no dash or its prefix before the first dash is B, I or
    E; for a right label [p-base] with any other prefix [p] the lookup in
    [mapping] raises KeyError, which nothing catches. *)
Theorem iob_precedes_partial :
  (forall (left : option str) (right pad_token : str),
      has_char "-" right = false
      \/ (exists loc base, has_char "-" loc = false
                           /\ right = loc ++ "-"%char :: base /\ In loc iob_locs) ->
      exists joinable new_label,
        iob_precedes left right pad_token = Ok (Some (joinable, new_label)))
  /\ (forall (left : option str) (p base pad_token : str),
         has_char "-" p = false ->
         ~ In p iob_locs ->
         p ++ "-"%char :: base <> pad_token ->
         iob_precedes left (p ++ "-"%char :: base) pad_token = Raise KeyError).
Proof.
  split.
  - intros left right pad_token H. unfold iob_precedes.
    destruct (_ && str_eqb right pad_token); [eauto|].
    destruct H as [H|(loc & base & Hnd & -> & Hloc)].
    + apply split1_none in H. rewrite H. eauto.
    + rewrite (split1_dash _ _ Hnd), (mapping_iob_locs _ Hloc). simpl.
      destruct left as [l|]; simpl; [|eauto].
      destruct (has_char "-" l) eqn:Hd; simpl; [|eauto].
      destruct (split1 "-" l) as [[left_loc left_label]|] eqn:Hs; [|eauto].
      destruct (str_eqb left_label base) eqn:E; simpl; [|eauto].
      apply str_eqb_eq in E. subst. rewrite contains_refl. eauto.
  - intros left p base pad_token Hnd Hp Hpad. unfold iob_precedes.
    apply str_eqb_neq in Hpad. rewrite Hpad, andb_false_r.
    rewrite (split1_dash _ _ Hnd), (mapping_other _ Hp). simpl.
    destruct left as [l|]; simpl; [|reflexivity].
    destruct (has_char "-" l) eqn:Hd; simpl; [|reflexivity].
    destruct (split1 "-" l) as [[left_loc left_label]|] eqn:Hs.
    + destruct (str_eqb left_label base) eqn:E; simpl; [|reflexivity].
      apply str_eqb_eq in E. subst. now rewrite contains_refl.
    + apply split1_none in Hs. congruence.
Qed.

Lemma iob_precedes_partial_witness :
  (exists joinable new_label,
      iob_precedes (Some (lit "B-PERSON")) (lit "E-PERSON") (lit "<PAD>")
      = Ok (Some (joinable, new_label)))
  /\ iob_precedes (Some (lit "B-PERSON")) (lit "IE-PERSON") (lit "<PAD>") = Raise KeyError
  /\ iob_precedes None (lit "X-PERSON") (lit "<PAD>") = Raise KeyError.
Proof.
  split; [|split].
  - apply (proj1 iob_precedes_partial). right.
    exists (lit "E"), (lit "PERSON").
    split; [reflexivity|split; [reflexivity|cbv; auto]].
  - apply (proj2 iob_precedes_partial (Some (lit "B-PERSON")) (lit "IE") (lit "PERSON"));
      [reflexivity | | discriminate].
    intros H; cbv in H; intuition discriminate.
  - apply (proj2 iob_precedes_partial None (lit "X") (lit "PERSON"));
      [reflexivity | | discriminate].
    intros H; cbv in H; intuition discriminate.
Defined.

(** ** Slices *)

Lemma len_nonneg {A : Type} (l : list A) : 0 <= len l.
Proof. unfold len. lia. Qed.

Lemma len_app {A : Type} (l1 l2 : list A) : len (l1 ++ l2) = len l1 + len l2.
Proof. unfold len. rewrite length_app. lia. Qed.

Lemma slice_in_range {A : Type} (s : list A) (a b : Z) :
  0 <= a <= b -> b <= len s ->
  slice s (Some a) (Some b) = firstn (Z.to_nat (b - a)) (skipn (Z.to_nat a) s).
Proof.
  intros Hab Hb. unfold slice, norm_bound.
  destruct (Z.ltb_spec a 0); [lia|]. destruct (Z.ltb_spec b 0); [lia|].
  now rewrite !Z.min_l by lia.
Qed.

Lemma len_slice {A : Type} (s : list A) (a b : Z) :
  0 <= a <= b -> b <= len s -> len (slice s (Some a) (Some b)) = b - a.
Proof.
  intros Hab Hb. rewrite slice_in_range by assumption.
  unfold len in *. rewrite length_firstn, length_skipn. lia.
Qed.

Lemma slice_all {A : Type} (s : list A) : slice s (Some 0) None = s.
Proof.
  unfold slice, norm_bound. simpl. rewrite Z.min_l by apply len_nonneg.
  rewrite Z.sub_0_r. unfold len. rewrite Nat2Z.id. apply firstn_all.
Qed.


Lemma slice_drop_last {A : Type} (l : list A) :
  slice l None (Some (-1)) = removelast l.
Proof.
  unfold slice, norm_bound. cbn [Z.ltb Z.compare skipn Z.to_nat].
  rewrite Z.sub_0_r, removelast_firstn_len.
  f_equal. unfold len. lia.
Qed.

(** ** IOB expansion *)

Lemma or_str_well_formed {Conf : Type} (text : str) (a : @Annotation Conf) :
  well_formed text a ->
  or_str (ann_text a) (slice text (Some (ann_start a)) (Some (ann_end a)))
  = slice text (Some (ann_start a)) (Some (ann_end a)).
Proof.
  intros (_ & _ & [-> | ->]); [reflexivity|].
  now destruct (slice text _ _).
Qed.

(** C7. With [iob] expansion, a non-filler annotation whose text has more
    than two sub-tokens gives exactly three sub-annotations: [B-label] up
    to the first boundary, [E-label] from the start of the last sub-token to
    the end of the text, and one [I-label] in between. The offsets are the
    encoder's, shifted by the annotation's [start]; the three ranges are
    adjacent, begin at [start] and, for a well-formed annotation, stop at
    its [end]. *)
Theorem iob_expand_three {Conf : Type} (ENCODER_char_locs : str -> list Z)
    (none_value text : str) (a : @Annotation Conf) :
  let start := ann_start a in
  let label := ann_label a in
  let sub_text := or_str (ann_text a) (slice text (Some start) (Some (ann_end a))) in
  let char_locs := ENCODER_char_locs sub_text in
  let first_end := nth 0 char_locs 0 in
  let last_start := last (removelast char_locs) 0 in
  label <> none_value ->
  2 < len char_locs ->
  iob_expand ENCODER_char_locs none_value text a =
    [ {| ann_start := start + 0; ann_end := start + first_end;
         ann_label := lit "B-" ++ label;
         ann_text := Some (slice sub_text (Some 0) (Some first_end));
         ann_confidence := None |};
      {| ann_start := start + last_start; ann_end := start + len sub_text;
         ann_label := lit "E-" ++ label;
         ann_text := Some (slice sub_text (Some last_start) (Some (len sub_text)));
         ann_confidence := None |};
      {| ann_start := start + first_end; ann_end := start + last_start;
         ann_label := lit "I-" ++ label;
         ann_text := Some (slice sub_text (Some first_end) (Some last_start));
         ann_confidence := None |} ]
  /\ start + 0 = ann_start a
  /\ (well_formed text a -> start + len sub_text = ann_end a).
Proof.
  intros start label sub_text char_locs first_end last_start Hlabel Hn.
  split; [|split; [lia|]].
  - unfold iob_expand. apply str_eqb_neq in Hlabel. fold label. rewrite Hlabel.
    fold start sub_text char_locs. rewrite slice_drop_last.
    destruct char_locs as [|c0 [|c1 [|c2 locs]]] eqn:E;
      try (unfold len in Hn; simpl in Hn; lia).
    assert (Hlen : len (0 :: removelast (c0 :: c1 :: c2 :: locs)) = 3 + len locs).
    { unfold len. cbn [length]. rewrite removelast_firstn_len, length_firstn.
      cbn [length]. lia. }
    rewrite Hlen.
    pose proof (len_nonneg locs) as Hpos.
    destruct (Z.eqb_spec (3 + len locs) 1); [lia|].
    destruct (Z.ltb_spec 0 (3 + len locs)); [|lia].
    destruct (Z.ltb_spec 1 (3 + len locs)); [|lia].
    destruct (Z.ltb_spec 2 (3 + len locs)); [|lia].
    reflexivity.
  - intros Hwf. unfold sub_text, start. rewrite (or_str_well_formed _ _ Hwf).
    destruct Hwf as (H1 & H2 & _). rewrite len_slice by assumption. lia.
Qed.

Lemma iob_expand_three_witness :
  let a := {| ann_start := 2; ann_end := 14; ann_label := lit "PERSON";
              ann_text := None; ann_confidence := @None unit |} in
  let enc := four_char_locs in
  iob_expand enc (lit "<PAD>") (lit "a John Paul II.") a =
    [ {| ann_start := 2; ann_end := 6; ann_label := lit "B-PERSON";
         ann_text := Some (lit "John"); ann_confidence := None |};
      {| ann_start := 10; ann_end := 14; ann_label := lit "E-PERSON";
         ann_text := Some (lit "l II"); ann_confidence := None |};
      {| ann_start := 6; ann_end := 10; ann_label := lit "I-PERSON";
         ann_text := Some (lit " Pau"); ann_confidence := None |} ]
  /\ 2 + 12 = 14.
Proof.
  intros a enc.
  destruct (iob_expand_three enc (lit "<PAD>") (lit "a John Paul II.") a)
    as (H1 & _ & H3); [discriminate | reflexivity |].
  split.
  - exact H1.
  - apply H3. unfold well_formed, a. cbn [ann_start ann_end ann_text].
    split; [lia|split; [unfold len; simpl; lia|left; reflexivity]].
Defined.

(** ** Filler-only documents *)

Section FillerOnly.

Context {Conf : Type}.
Variables (none_value raw_text : str) (subtoken_predictions iob : bool).
Variables (token_starts token_ends : list Z).
Hypothesis plain_filler : iob = false \/ has_char "-" none_value = false.

Lemma f2i_label_step_filler (multi_label : bool) (sub_str : str)
    (confidences : option Conf) (st : f2i_state) :
  doc_annotations st = [] ->
  exists st',
    f2i_label_step none_value subtoken_predictions iob raw_text token_starts
      token_ends multi_label sub_str confidences st none_value = Ok st'
    /\ doc_annotations st' = [].
Proof.
  intros Hopen. unfold f2i_label_step.
  rewrite str_eqb_refl, Hopen. cbn [negb bind len length Z.of_nat Z.eqb andb].
  assert (Hseed : exists nl,
             (if iob && true
              then r <- iob_precedes None none_value none_value ;;
                   match r with
                   | Some (_, new_label) => Ok (Some new_label)
                   | None => Raise TypeError
                   end
              else Ok (@None str)) = Ok nl).
  { destruct plain_filler as [-> | Hd]; [simpl; eauto|].
    destruct iob; [|simpl; eauto]. unfold iob_precedes.
    apply split1_none in Hd. rewrite Hd. simpl. eauto. }
  destruct Hseed as [nl ->]. cbn [bind].
  destruct (_ =? -1); [eauto|].
  destruct (negb subtoken_predictions && _); [destruct multi_label|]; cbn [bind]; eauto.
Qed.

Lemma f2i_labels_filler (multi_label : bool) (sub_str : str)
    (confidences : option Conf) (label_list : list str) (st : f2i_state) :
  Forall (eq none_value) label_list ->
  doc_annotations st = [] ->
  exists st',
    f2i_labels
      (f2i_label_step none_value subtoken_predictions iob raw_text token_starts
         token_ends multi_label sub_str confidences) label_list st = Ok st'
    /\ doc_annotations st' = [].
Proof.
  intros Hall. revert st. induction Hall as [|l ls <- _ IH]; intros st Hopen.
  - simpl. eauto.
  - destruct (f2i_label_step_filler multi_label sub_str confidences st Hopen)
      as (st1 & Hstep & Hopen1).
    cbn [f2i_labels]. rewrite Hstep. cbn [bind]. now apply IH.
Qed.

Lemma f2i_loop_filler (segs : list (str * raw_label * option Conf)) (st : f2i_state) :
  Forall (fun seg => only_filler none_value (snd (fst seg))) segs ->
  doc_annotations st = [] ->
  exists st',
    f2i_loop
      (f2i_segment_step none_value subtoken_predictions iob raw_text token_starts
         token_ends) segs st = Ok st'
    /\ doc_annotations st' = [].
Proof.
  intros Hall. revert st.
  induction Hall as [|[[sub_str raw] confidences] segs Hraw _ IH]; intros st Hopen.
  - simpl. eauto.
  - cbn [f2i_loop]. unfold f2i_segment_step at 1. cbn [fst snd] in Hraw.
    assert (Hseg : exists st1,
               match raw with
               | Single l =>
                   f2i_labels
                     (f2i_label_step none_value subtoken_predictions iob raw_text
                        token_starts token_ends false sub_str confidences) [l] st
               | Tuple ls =>
                   f2i_labels
                     (f2i_label_step none_value subtoken_predictions iob raw_text
                        token_starts token_ends true sub_str confidences) ls st
               | Listed _ =>
                   f2i_list_label_step subtoken_predictions iob raw_text token_starts
                     token_ends sub_str st
               end = Ok st1 /\ doc_annotations st1 = []).
    { destruct raw as [l|ls|ls]; cbn [only_filler] in Hraw.
      - apply f2i_labels_filler; [|assumption]. subst. now constructor.
      - now apply f2i_labels_filler.
      - contradiction. }
    destruct Hseg as (st1 & -> & Hopen1). cbn [bind]. now apply IH.
Qed.

End FillerOnly.

Lemma zip_segments_labels {Conf : Type} (P : raw_label -> Prop) (doc_seq : list str)
    (label_seq : list raw_label) (prob_seq : option (list Conf)) :
  Forall P label_seq ->
  Forall (fun seg => P (snd (fst seg))) (zip_segments doc_seq label_seq prob_seq).
Proof.
  intros Hall. apply Forall_forall. intros [[sub_str raw] c] Hin.
  unfold zip_segments in Hin. apply in_combine_l, in_combine_r in Hin.
  rewrite Forall_forall in Hall. now apply Hall.
Qed.

(** C6. Without annotations a non-empty text gives exactly one segment, the
    whole text with the filler label, and the empty text gives no segment at
    all. Segments whose labels are the filler, each given as the filler
    string or as a tuple of filler strings ([only_filler]), give no span
    annotation; with [iob] the filler must be a plain token without a dash.
    A label given as a list is no filler to the way back ([only_filler]
    leaves it out; see [list_label_raises]). *)
Theorem filler_completeness {Conf : Type} (NLP : str -> list token)
    (ENCODER_char_locs : str -> list Z) (none_value : str) :
  (forall (multi_label subtoken_labels iob : bool) (text : str),
      text <> [] ->
      indico_to_finetune_doc (Conf := Conf) NLP ENCODER_char_locs multi_label
        none_value subtoken_labels iob text []
      = Ok ([text], [filler multi_label none_value]))
  /\ (forall multi_label subtoken_labels iob : bool,
         indico_to_finetune_doc (Conf := Conf) NLP ENCODER_char_locs multi_label
           none_value subtoken_labels iob [] []
         = Ok ([], []))
  /\ (forall (subtoken_predictions iob : bool) (raw_text : str)
             (doc_seq : list str) (label_seq : list raw_label)
             (prob_seq : option (list Conf)),
         iob = false \/ has_char "-" none_value = false ->
         Forall (only_filler none_value) label_seq ->
         exists warned,
           finetune_to_indico_doc NLP none_value subtoken_predictions iob raw_text
             doc_seq label_seq prob_seq = Ok ([], warned)).
Proof.
  split; [|split].
  - intros multi_label subtoken_labels iob text Htext.
    unfold indico_to_finetune_doc.
    assert (Hsorted : sorted_by_start
              (if iob then flat_map (iob_expand ENCODER_char_locs none_value text) []
               else @nil (@Annotation Conf)) = [])
      by (destruct iob; reflexivity).
    rewrite Hsorted. cbn [s2s_loop bind last_loc doc_subseqs doc_labels app].
    destruct (Z.eqb_spec 0 (len text)) as [E|E].
    + destruct text; [contradiction|]. unfold len in E. simpl in E. lia.
    + cbn [negb]. now rewrite slice_all.
  - intros multi_label subtoken_labels iob. unfold indico_to_finetune_doc.
    destruct iob; reflexivity.
  - intros subtoken_predictions iob raw_text doc_seq label_seq prob_seq Hplain Hall.
    unfold finetune_to_indico_doc.
    destruct (f2i_loop_filler none_value raw_text subtoken_predictions iob
                (token_starts_of (NLP raw_text)) (token_ends_of (NLP raw_text)) Hplain
                (zip_segments doc_seq label_seq prob_seq) f2i_init
                (zip_segments_labels _ _ _ _ Hall) eq_refl)
      as (st & -> & Hopen).
    cbn [bind]. rewrite Hopen. exists (warnings st). now destruct iob.
Qed.

Lemma filler_completeness_witness :
  indico_to_finetune_doc (Conf := unit) ws_tokens four_char_locs false (lit "<PAD>")
    false false (lit "no entity here") []
  = Ok ([lit "no entity here"], [One (lit "<PAD>")])
  /\ exists warned,
      finetune_to_indico_doc (Conf := unit) ws_tokens (lit "<PAD>") false true
        (lit "no entity here") [lit "no entity"; lit " here"]
        [Single (lit "<PAD>"); Tuple [lit "<PAD>"; lit "<PAD>"]] None
      = Ok ([], warned).
Proof.
  split.
  - apply (proj1 (filler_completeness ws_tokens four_char_locs (lit "<PAD>"))).
    discriminate.
  - apply (proj2 (proj2 (filler_completeness ws_tokens four_char_locs (lit "<PAD>")))).
    + right. reflexivity.
    + repeat constructor.
Defined.

(** The empty document has no segment, not one. *)
Lemma empty_text_no_segment :
  ~ exists segment labels,
      indico_to_finetune_doc (Conf := unit) ws_tokens four_char_locs true (lit "<PAD>")
        false false (lit "") []
      = Ok ([segment], [labels]).
Proof.
  intros (segment & labels & H). vm_compute in H. discriminate.
Qed.

(** With [iob], a filler of the shape [X-...] is looked up in [mapping]. *)
Lemma iob_filler_with_dash :
  finetune_to_indico_doc (Conf := unit) ws_tokens (lit "X-PAD") false true
    (lit "abc") [lit "abc"] [Single (lit "X-PAD")] None
  = Raise KeyError.
Proof. reflexivity. Qed.

(** ** The blocks of the conversion loop *)


Lemma slice_tail {A : Type} (s : list A) (a b d : Z) :
  0 <= a -> a <= b - d -> 0 < d -> b <= len s ->
  slice (slice s (Some a) (Some b)) (Some (- d)) None = slice s (Some (b - d)) (Some b).
Proof.
  intros Ha Hab Hd Hb.
  unfold slice at 1. rewrite (len_slice s a b) by lia.
  unfold norm_bound. destruct (Z.ltb_spec (- d) 0); [|lia].
  rewrite Z.max_r by lia.
  rewrite !slice_in_range by lia.
  rewrite firstn_all2.
  2:{ rewrite length_skipn, length_firstn, length_skipn. unfold len in Hb. lia. }
  rewrite skipn_firstn_comm, skipn_skipn. f_equal; [lia|]. f_equal. lia.
Qed.

Lemma slice_head {A : Type} (s : list A) (a b d : Z) :
  0 <= a -> a <= b - d -> 0 < d -> b <= len s ->
  slice (slice s (Some a) (Some b)) None (Some (- d)) = slice s (Some a) (Some (b - d)).
Proof.
  intros Ha Hab Hd Hb.
  unfold slice at 1. rewrite (len_slice s a b) by lia.
  unfold norm_bound. destruct (Z.ltb_spec (- d) 0); [|lia].
  rewrite Z.max_r by lia.
  rewrite !slice_in_range by lia.
  cbn [skipn Z.to_nat]. rewrite firstn_firstn. f_equal. lia.
Qed.

Lemma round_start_le (token_starts : list Z) (fuel : nat) (start : Z) :
  round_start token_starts fuel start <= start.
Proof.
  revert start. induction fuel as [|fuel IH]; intros start; simpl; [lia|].
  destruct (_ && _); [|lia]. specialize (IH (start - 1)). lia.
Qed.

Lemma round_start_member (token_starts : list Z) (fuel : nat) (start : Z) :
  start <= 0 \/ mem start token_starts = true ->
  round_start token_starts fuel start = start.
Proof.
  intros H. destruct fuel as [|fuel]; simpl; [reflexivity|].
  destruct H as [H|H].
  - destruct (Z.ltb_spec 0 start); [lia|reflexivity].
  - rewrite H. now rewrite andb_false_r.
Qed.

Lemma round_end_ge (token_ends : list Z) (n : Z) (fuel : nat) (end_ : Z) :
  end_ <= round_end token_ends n fuel end_.
Proof.
  revert end_. induction fuel as [|fuel IH]; intros end_; simpl; [lia|].
  destruct (_ && _); [|lia]. specialize (IH (end_ + 1)). lia.
Qed.

Lemma round_end_member (token_ends : list Z) (n : Z) (fuel : nat) (end_ : Z) :
  n <= end_ \/ mem end_ token_ends = true ->
  round_end token_ends n fuel end_ = end_.
Proof.
  intros H. destruct fuel as [|fuel]; simpl; [reflexivity|].
  destruct H as [H|H].
  - destruct (Z.ltb_spec end_ n); [lia|reflexivity].
  - rewrite H. now rewrite andb_false_r.
Qed.

(** ** The loops run to their end *)

(** The rounding loops stop because their condition fails, not because the
    fuel is spent. *)
Lemma round_start_exit (token_starts : list Z) (start : Z) :
  let r := round_start token_starts (Z.to_nat start) start in
  r <= 0 \/ mem r token_starts = true.
Proof.
  cbv zeta.
  enough (H : forall fuel s, (Z.to_nat s <= fuel)%nat ->
                round_start token_starts fuel s <= 0
                \/ mem (round_start token_starts fuel s) token_starts = true)
    by (apply H; lia).
  clear start. intros fuel.
  induction fuel as [|fuel IH]; intros start Hfuel; cbn [round_start].
  - left. lia.
  - destruct (Z.ltb_spec 0 start); cbn [andb]; [|left; lia].
    destruct (mem start token_starts) eqn:E; cbn [negb]; [now right|].
    apply IH. lia.
Qed.

Lemma round_end_exit (token_ends : list Z) (n end_ : Z) :
  let r := round_end token_ends n (Z.to_nat (n - end_)) end_ in
  n <= r \/ mem r token_ends = true.
Proof.
  cbv zeta.
  enough (H : forall fuel e, (Z.to_nat (n - e) <= fuel)%nat ->
                n <= round_end token_ends n fuel e
                \/ mem (round_end token_ends n fuel e) token_ends = true)
    by (apply H; lia).
  clear end_. intros fuel.
  induction fuel as [|fuel IH]; intros end_ Hfuel; cbn [round_end].
  - left. lia.
  - destruct (Z.ltb_spec end_ n); cbn [andb]; [|left; lia].
    destruct (mem end_ token_ends) eqn:E; cbn [negb]; [now right|].
    apply IH. lia.
Qed.

Lemma advance_start_exit (token_starts : list Z) (annotation_start start_idx r : Z) :
  advance_start token_starts annotation_start
    (Z.to_nat (len token_starts - start_idx)) start_idx = Ok r ->
  len token_starts <= r
  \/ exists t, getitem token_starts r = Ok t /\ annotation_start < t.
Proof.
  enough (Hgen : forall fuel i,
                (Z.to_nat (len token_starts - i) <= fuel)%nat ->
                advance_start token_starts annotation_start fuel i = Ok r ->
                len token_starts <= r
                \/ exists t, getitem token_starts r = Ok t /\ annotation_start < t)
    by (apply Hgen; lia).
  clear start_idx. intros fuel.
  induction fuel as [|fuel IH]; intros start_idx Hfuel H; cbn [advance_start] in H.
  - injection H as <-. left. lia.
  - destruct (Z.ltb_spec start_idx (len token_starts)); [|injection H as <-; left; lia].
    destruct (getitem token_starts start_idx) as [t|] eqn:Ht; cbn [bind] in H;
      [|discriminate].
    destruct (Z.leb_spec t annotation_start).
    + apply (IH (start_idx + 1)); [lia|exact H].
    + injection H as <-. right. eauto.
Qed.

Lemma advance_end_exit (token_ends : list Z) (annotation_end end_idx r : Z) :
  advance_end token_ends annotation_end
    (Z.to_nat (len token_ends - 1 - end_idx)) end_idx = Ok r ->
  len token_ends - 1 <= r
  \/ exists t, getitem token_ends r = Ok t /\ annotation_end <= t.
Proof.
  enough (Hgen : forall fuel i,
                (Z.to_nat (len token_ends - 1 - i) <= fuel)%nat ->
                advance_end token_ends annotation_end fuel i = Ok r ->
                len token_ends - 1 <= r
                \/ exists t, getitem token_ends r = Ok t /\ annotation_end <= t)
    by (apply Hgen; lia).
  clear end_idx. intros fuel.
  induction fuel as [|fuel IH]; intros end_idx Hfuel H; cbn [advance_end] in H.
  - injection H as <-. left. lia.
  - destruct (Z.ltb_spec end_idx (len token_ends - 1)); [|injection H as <-; left; lia].
    destruct (getitem token_ends end_idx) as [t|] eqn:Ht; cbn [bind] in H;
      [|discriminate].
    destruct (Z.ltb_spec t annotation_end).
    + apply (IH (end_idx + 1)); [lia|exact H].
    + injection H as <-. right. eauto.
Qed.

Lemma getitem_below {A : Type} (l : list A) (j : Z) :
  j + len l + 1 <= 0 -> getitem l j = Raise IndexError.
Proof.
  intros H. unfold getitem, norm_item. pose proof (len_nonneg l).
  destruct (Z.ltb_spec j 0); [|lia].
  destruct (Z.leb_spec 0 (j + len l)); [lia|reflexivity].
Qed.

(** More fuel does not change the walk back through the segments. *)
Lemma walk_back_fuel (fuel : nat) (subseqs : list str) (label : str)
    (labels : list seg_label) (split_dist j : Z) :
  (Z.to_nat (j + len subseqs + 1) <= fuel)%nat ->
  walk_back fuel subseqs label labels split_dist j
  = walk_back (Z.to_nat (j + len subseqs + 1)) subseqs label labels split_dist j.
Proof.
  revert labels split_dist j.
  induction fuel as [|fuel IH]; intros labels split_dist j Hfuel.
  - now replace (Z.to_nat (j + len subseqs + 1)) with 0%nat by lia.
  - destruct (Z.to_nat (j + len subseqs + 1)) as [|n] eqn:En.
    + cbn [walk_back]. rewrite getitem_below by lia. reflexivity.
    + cbn [walk_back]. destruct (getitem subseqs j) as [s|]; [|reflexivity].
      cbn [bind]. destruct (len s <=? split_dist); [|reflexivity].
      destruct (getitem labels j) as [l|]; [|reflexivity]. cbn [bind].
      destruct (append_label l label) as [l'|]; [|reflexivity]. cbn [bind].
      destruct (setitem labels j l') as [labels'|]; [|reflexivity]. cbn [bind].
      rewrite IH by lia. f_equal. lia.
Qed.

Section Blocks.

Context {Conf : Type}.
Variables (multi_label : bool) (none_value : str) (subtoken_labels iob : bool).
Variables (text : str) (token_starts token_ends : list Z).


Lemma tail_split_none (last_loc end_ : Z) (subseqs : list str) (labels : list seg_label) :
  last_loc <= end_ ->
  tail_split last_loc end_ subseqs labels = Ok (subseqs, labels, len labels - 1, 0).
Proof.
  intros H. unfold tail_split. destruct (Z.ltb_spec 0 (last_loc - end_)); [lia|reflexivity].
Qed.

Lemma overlap_none (label : str) (last_loc start end_ skip_end j : Z)
    (subseqs : list str) (labels : list seg_label) (annotation_text : option str) :
  last_loc - skip_end <= start ->
  overlap multi_label label last_loc start end_ skip_end j subseqs labels annotation_text
  = Ok (subseqs, labels, start, annotation_text).
Proof.
  intros H. unfold overlap. destruct (Z.ltb_spec start (last_loc - skip_end)); [lia|reflexivity].
Qed.

Lemma emit_segment (label : str) (start end_ : Z) (subseqs : list str)
    (labels : list seg_label) (annotation_text : option str) :
  start < end_ ->
  iob = true \/ annotation_text = None
  \/ annotation_text = Some (slice text (Some start) (Some end_)) ->
  emit multi_label iob text label start end_ subseqs labels annotation_text
  = Ok {| last_loc := end_;
          doc_subseqs := subseqs ++ [slice text (Some start) (Some end_)];
          doc_labels := labels ++ [if multi_label then Many [label] else One label] |}.
Proof.
  intros Hlt Htext. unfold emit. destruct (Z.leb_spec end_ start); [lia|].
  destruct Htext as [-> | [-> | ->]]; [reflexivity | now rewrite andb_false_r |].
  now rewrite str_eqb_refl, andb_false_r.
Qed.

(** An annotation that begins at or after the cursor: the gap, if any,
    becomes a filler segment and the annotation its own segment. *)
Lemma s2s_step_fresh (st : s2s_state) (a : @Annotation Conf) :
  round_annotation none_value subtoken_labels iob text token_starts token_ends a
  = (ann_start a, ann_end a) ->
  last_loc st <= ann_start a ->
  ann_start a < ann_end a ->
  iob = true \/ ann_text a = None
  \/ ann_text a = Some (slice text (Some (ann_start a)) (Some (ann_end a))) ->
  s2s_step multi_label none_value subtoken_labels iob text token_starts token_ends st a
  = Ok {| last_loc := ann_end a;
          doc_subseqs :=
            fst (emit_filler multi_label none_value text (last_loc st) (ann_start a)
                   (doc_subseqs st) (doc_labels st))
            ++ [slice text (Some (ann_start a)) (Some (ann_end a))];
          doc_labels :=
            snd (emit_filler multi_label none_value text (last_loc st) (ann_start a)
                   (doc_subseqs st) (doc_labels st))
            ++ [if multi_label then Many [ann_label a] else One (ann_label a)] |}.
Proof.
  intros Hround Hlast Hlt Htext. unfold s2s_step. rewrite Hround.
  destruct (emit_filler _ _ _ _ _ _ _) as [subseqs labels]. cbn [fst snd].
  rewrite tail_split_none by lia. cbn [bind].
  rewrite overlap_none by lia. cbn [bind].
  now apply emit_segment.
Qed.

End Blocks.

Section Overlap.

Context {Conf : Type}.
Variables (none_value : str) (subtoken_labels iob : bool).
Variables (text : str) (token_starts token_ends : list Z).







End Overlap.



Lemma emit_filler_none (multi_label : bool) (none_value text : str)
    (last_loc start : Z) (subseqs : list str) (labels : list seg_label) :
  start <= last_loc ->
  emit_filler multi_label none_value text last_loc start subseqs labels
  = (subseqs, labels).
Proof.
  intros H. unfold emit_filler. destruct (Z.ltb_spec last_loc start); [lia|reflexivity].
Qed.

(** X27. The annotations {0, 10, X} and {5, 15, Y}, each with its text, are
    converted with [multi_label] into the segments [0,5), [5,10), [10,15)
    and the rest of the text, and the segment [5,10) carries exactly the
    labels X, Y. Rounding must leave the offsets alone: [subtoken_labels] is
    on, or 5 begins a token and 10 and 15 end one. *)
Theorem overlap_with_multi_label {Conf : Type} (NLP : str -> list token)
    (ENCODER_char_locs : str -> list Z) (none_value : str) (subtoken_labels : bool)
    (text : str) (conf_x conf_y : option Conf) :
  15 <= len text ->
  subtoken_labels = true
  \/ (mem 5 (token_starts_of (NLP text)) = true
      /\ mem 10 (token_ends_of (NLP text)) = true
      /\ mem 15 (token_ends_of (NLP text)) = true) ->
  indico_to_finetune_doc NLP ENCODER_char_locs true none_value subtoken_labels false
    text
    [ {| ann_start := 0; ann_end := 10; ann_label := lit "X";
         ann_text := Some (slice text (Some 0) (Some 10)); ann_confidence := conf_x |};
      {| ann_start := 5; ann_end := 15; ann_label := lit "Y";
         ann_text := Some (slice text (Some 5) (Some 15)); ann_confidence := conf_y |} ]
  = Ok ([slice text (Some 0) (Some 5); slice text (Some 5) (Some 10);
         slice text (Some 10) (Some 15)]
        ++ (if len text =? 15 then [] else [slice text (Some 15) None]),
        [Many [lit "X"]; Many [lit "X"; lit "Y"]; Many [lit "Y"]]
        ++ (if len text =? 15 then [] else [Many [none_value]])).
Proof.
  intros Hlen Halign. unfold indico_to_finetune_doc.
  set (ts := token_starts_of (NLP text)) in *.
  set (te := token_ends_of (NLP text)) in *.
  set (ax := {| ann_start := 0; ann_end := 10; ann_label := lit "X";
                ann_text := Some (slice text (Some 0) (Some 10));
                ann_confidence := conf_x |}).
  set (ay := {| ann_start := 5; ann_end := 15; ann_label := lit "Y";
                ann_text := Some (slice text (Some 5) (Some 15));
                ann_confidence := conf_y |}).
  change (sorted_by_start [ax; ay]) with [ax; ay].
  assert (Hrx : round_annotation none_value subtoken_labels false text ts te ax = (0, 10)).
  { unfold round_annotation. destruct Halign as [-> | (_ & H10 & _)]; [reflexivity|].
    destruct (_ && _); [|reflexivity]. cbn [ax ann_start ann_end].
    rewrite round_start_member by (left; lia).
    now rewrite round_end_member by (right; exact H10). }
  assert (Hry : round_annotation none_value subtoken_labels false text ts te ay = (5, 15)).
  { unfold round_annotation. destruct Halign as [-> | (H5 & _ & H15)]; [reflexivity|].
    destruct (_ && _); [|reflexivity]. cbn [ay ann_start ann_end].
    rewrite round_start_member by (right; exact H5).
    now rewrite round_end_member by (right; exact H15). }
  cbn [s2s_loop].
  rewrite s2s_step_fresh; [|exact Hrx | cbn; lia | cbn; lia | right; right; reflexivity].
  cbn [bind ax ann_start ann_end ann_label last_loc doc_subseqs doc_labels emit_filler
       Z.ltb Z.compare fst snd app].
  unfold s2s_step. rewrite Hry.
  cbn [last_loc doc_subseqs doc_labels].
  rewrite emit_filler_none by lia.
  rewrite tail_split_none by lia. cbn [bind ay ann_label ann_text].
  clear Hrx Hry ax ay. clearbody ts te.
  assert (Hpiece : slice text (Some 5) (Some 15)
                   = slice text (Some 5) (Some 10) ++ slice text (Some 10) (Some 15)).
  { rewrite !slice_in_range by lia.
    rewrite <- (firstn_skipn 5 (firstn (Z.to_nat (15 - 5)) (skipn (Z.to_nat 5) text))).
    rewrite firstn_firstn, skipn_firstn_comm, skipn_skipn. reflexivity. }
  assert (Hhead : slice text (Some 0) (Some 10)
                  = slice text (Some 0) (Some 5) ++ slice text (Some 5) (Some 10)).
  { rewrite !slice_in_range by lia.
    rewrite <- (firstn_skipn 5 (firstn (Z.to_nat (10 - 0)) (skipn (Z.to_nat 0) text))).
    rewrite firstn_firstn, skipn_firstn_comm, skipn_skipn. reflexivity. }
  assert (H05 : len (slice text (Some 0) (Some 5)) = 5) by (apply len_slice; lia).
  assert (H510 : len (slice text (Some 5) (Some 10)) = 5) by (apply len_slice; lia).
  assert (H1015 : len (slice text (Some 10) (Some 15)) = 5) by (apply len_slice; lia).
  rewrite Hpiece, Hhead.
  assert (Hov : forall p1 p2 p3 : str,
             len p1 = 5 -> len p2 = 5 -> len p3 = 5 ->
             overlap true (lit "Y") 10 5 15 0 (len [Many [lit "X"]] - 1)
               [p1 ++ p2] [Many [lit "X"]] (Some (p2 ++ p3))
             = Ok ([p1; p2], [Many [lit "X"]; Many [lit "X"; lit "Y"]], 10, Some p3)).
  { intros p1 p2 p3 L1 L2 L3.
    destruct p1 as [|? [|? [|? [|? [|? [|? ?]]]]]];
      try (unfold len in L1; cbn [length] in L1; lia).
    destruct p2 as [|? [|? [|? [|? [|? [|? ?]]]]]];
      try (unfold len in L2; cbn [length] in L2; lia).
    destruct p3 as [|? [|? [|? [|? [|? [|? ?]]]]]];
      try (unfold len in L3; cbn [length] in L3; lia).
    vm_compute. reflexivity. }
  rewrite Hov by assumption. cbn [bind].
  rewrite emit_segment; [|lia|right; right; reflexivity].
  cbn [bind last_loc doc_subseqs doc_labels app filler].
  rewrite (Z.eqb_sym 15 (len text)).
  destruct (len text =? 15); reflexivity.
Qed.

Lemma overlap_with_multi_label_witness :
  indico_to_finetune_doc (Conf := unit) ws_tokens four_char_locs true (lit "<PAD>")
    false false (lit "Rome Paris Oslo then")
    [ann "X" 0 10 "Rome Paris"; ann "Y" 5 15 "Paris Oslo"]
  = Ok ([lit "Rome "; lit "Paris"; lit " Oslo"; lit " then"],
        [Many [lit "X"]; Many [lit "X"; lit "Y"]; Many [lit "Y"]; Many [lit "<PAD>"]]).
Proof.
  apply (overlap_with_multi_label (Conf := unit) ws_tokens four_char_locs (lit "<PAD>")
           false (lit "Rome Paris Oslo then") None None).
  - vm_compute. discriminate.
  - right. split; [reflexivity|split; reflexivity].
Defined.

(** C4. The annotations {0, 10, X} and {5, 15, Y} without a [text], on a
    text of 15 or more characters with [multi_label] on, do not give a
    segment [5,10) labelled X, Y: the conversion raises TypeError. The
    overlap block has already cut the segments and set the labels when it
    slices [annotation_text], which is [None] for an annotation without
    [text]; the check of the text further down tests for [None], this
    block does not. It is the same whether or not the first annotation has
    its text, with [subtoken_labels] on, or off with 5, 10 and 15 on token
    boundaries. *)
Theorem overlap_without_text_key {Conf : Type} (NLP : str -> list token)
    (ENCODER_char_locs : str -> list Z) (none_value : str) (subtoken_labels : bool)
    (text : str) (text_x : option str) (conf_x conf_y : option Conf) :
  15 <= len text ->
  subtoken_labels = true
  \/ (mem 5 (token_starts_of (NLP text)) = true
      /\ mem 10 (token_ends_of (NLP text)) = true
      /\ mem 15 (token_ends_of (NLP text)) = true) ->
  text_x = None \/ text_x = Some (slice text (Some 0) (Some 10)) ->
  indico_to_finetune_doc NLP ENCODER_char_locs true none_value subtoken_labels false
    text
    [ {| ann_start := 0; ann_end := 10; ann_label := lit "X";
         ann_text := text_x; ann_confidence := conf_x |};
      {| ann_start := 5; ann_end := 15; ann_label := lit "Y";
         ann_text := None; ann_confidence := conf_y |} ]
  = Raise TypeError.
Proof.
  intros Hlen Halign Htext_x. unfold indico_to_finetune_doc.
  set (ts := token_starts_of (NLP text)) in *.
  set (te := token_ends_of (NLP text)) in *.
  set (ax := {| ann_start := 0; ann_end := 10; ann_label := lit "X";
                ann_text := text_x; ann_confidence := conf_x |}).
  set (ay := {| ann_start := 5; ann_end := 15; ann_label := lit "Y";
                ann_text := None; ann_confidence := conf_y |}).
  change (sorted_by_start [ax; ay]) with [ax; ay].
  assert (Hrx : round_annotation none_value subtoken_labels false text ts te ax = (0, 10)).
  { unfold round_annotation. destruct Halign as [-> | (_ & H10 & _)]; [reflexivity|].
    destruct (_ && _); [|reflexivity]. cbn [ax ann_start ann_end].
    rewrite round_start_member by (left; lia).
    now rewrite round_end_member by (right; exact H10). }
  assert (Hry : round_annotation none_value subtoken_labels false text ts te ay = (5, 15)).
  { unfold round_annotation. destruct Halign as [-> | (H5 & _ & H15)]; [reflexivity|].
    destruct (_ && _); [|reflexivity]. cbn [ay ann_start ann_end].
    rewrite round_start_member by (right; exact H5).
    now rewrite round_end_member by (right; exact H15). }
  cbn [s2s_loop].
  rewrite s2s_step_fresh; [|exact Hrx | cbn; lia | cbn; lia | right; exact Htext_x].
  cbn [bind ax ann_start ann_end ann_label last_loc doc_subseqs doc_labels emit_filler
       Z.ltb Z.compare fst snd app].
  unfold s2s_step. rewrite Hry.
  cbn [last_loc doc_subseqs doc_labels].
  rewrite emit_filler_none by lia.
  rewrite tail_split_none by lia. cbn [bind ay ann_label ann_text].
  assert (Hov : forall p : str,
             len p = 10 ->
             overlap true (lit "Y") 10 5 15 0 (len [Many [lit "X"]] - 1)
               [p] [Many [lit "X"]] None
             = Raise TypeError).
  { intros p L.
    destruct p as [|? [|? [|? [|? [|? [|? [|? [|? [|? [|? [|? ?]]]]]]]]]]];
      try (unfold len in L; cbn [length] in L; lia).
    reflexivity. }
  rewrite Hov by (apply len_slice; lia). reflexivity.
Qed.

Lemma overlap_without_text_key_witness :
  indico_to_finetune_doc (Conf := unit) ws_tokens four_char_locs true (lit "<PAD>")
    false false (lit "Rome Paris Oslo then")
    [ {| ann_start := 0; ann_end := 10; ann_label := lit "X"; ann_text := None;
         ann_confidence := None |};
      {| ann_start := 5; ann_end := 15; ann_label := lit "Y"; ann_text := None;
         ann_confidence := None |} ]
  = Raise TypeError.
Proof.
  apply (overlap_without_text_key (Conf := unit) ws_tokens four_char_locs (lit "<PAD>")
           false (lit "Rome Paris Oslo then") None None None).
  - vm_compute. discriminate.
  - right. split; [reflexivity|split; reflexivity].
  - now left.
Defined.

(** The same with the text of the first annotation and [subtoken_labels]
    on. *)
Lemma overlap_without_text :
  indico_to_finetune_doc (Conf := unit) ws_tokens four_char_locs true (lit "<PAD>")
    true false (lit "Rome Paris Oslo then")
    [ann "X" 0 10 "Rome Paris";
     {| ann_start := 5; ann_end := 15; ann_label := lit "Y"; ann_text := None;
        ann_confidence := None |}]
  = Raise TypeError.
Proof. reflexivity. Qed.

(** ** Searching and stripping *)

Lemma find_from_range (s sub : str) (pos : Z) :
  find_from s sub pos = -1 \/ pos <= find_from s sub pos.
Proof.
  revert pos. induction s as [|c s IH]; intros pos; cbn [find_from].
  - destruct (startswith [] sub); [right; lia | now left].
  - destruct (startswith (c :: s) sub); [right; lia|].
    destruct (IH (pos + 1)) as [H|H]; [now left | right; lia].
Qed.

(** A match [k] characters into [s] bounds the result from above. *)
Lemma find_from_bounds (k : nat) (s sub : str) (pos : Z) :
  (k <= length s)%nat ->
  startswith (skipn k s) sub = true ->
  pos <= find_from s sub pos <= pos + Z.of_nat k.
Proof.
  revert s pos. induction k as [|k IH]; intros s pos Hk Hm.
  - cbn [skipn] in Hm. destruct s; cbn [find_from]; rewrite Hm; lia.
  - destruct s as [|c s]; [simpl in Hk; lia|]. cbn [find_from].
    destruct (startswith (c :: s) sub); [lia|].
    cbn [skipn] in Hm. simpl in Hk.
    specialize (IH s (pos + 1) ltac:(lia) Hm). lia.
Qed.

(** The first match is the result. *)
Lemma find_from_exact (k : nat) (s sub : str) (pos : Z) :
  (k <= length s)%nat ->
  (forall i, (i < k)%nat -> startswith (skipn i s) sub = false) ->
  startswith (skipn k s) sub = true ->
  find_from s sub pos = pos + Z.of_nat k.
Proof.
  revert s pos. induction k as [|k IH]; intros s pos Hk Hno Hm.
  - cbn [skipn] in Hm. destruct s; cbn [find_from]; rewrite Hm; lia.
  - destruct s as [|c s]; [simpl in Hk; lia|]. cbn [find_from].
    pose proof (Hno 0%nat ltac:(lia)) as H0. cbn [skipn] in H0. rewrite H0.
    rewrite (IH s (pos + 1)); [lia | simpl in Hk; lia | | exact Hm].
    intros i Hi. apply (Hno (S i)). lia.
Qed.

(** A result other than -1 is the first match. *)
Lemma find_from_found (s sub : str) (pos r : Z) :
  0 <= pos ->
  find_from s sub pos = r ->
  r <> -1 ->
  exists k, r = pos + Z.of_nat k /\ (k <= length s)%nat
            /\ (forall i, (i < k)%nat -> startswith (skipn i s) sub = false)
            /\ startswith (skipn k s) sub = true.
Proof.
  revert pos r. induction s as [|c s IH]; intros pos r Hpos Hr Hfound;
    cbn [find_from] in Hr.
  - destruct (startswith [] sub) eqn:E; [|congruence].
    exists 0%nat. repeat split; [lia | lia | intros; lia | exact E].
  - destruct (startswith (c :: s) sub) eqn:E.
    + exists 0%nat. repeat split; [lia | simpl; lia | intros; lia | exact E].
    + destruct (IH (pos + 1) r ltac:(lia) Hr Hfound) as (k & -> & Hk & Hno & Hm).
      exists (S k). repeat split; [lia | simpl; lia | | exact Hm].
      intros [|i] Hi; [exact E|]. apply Hno. lia.
Qed.

Lemma find_unfold (s sub : str) (c : Z) :
  0 <= c <= len s -> find s sub c = find_from (skipn (Z.to_nat c) s) sub c.
Proof.
  intros Hc. unfold find. destruct (Z.ltb_spec c 0); [lia|].
  destruct (Z.ltb_spec (len s) c); [lia|reflexivity].
Qed.

(** An occurrence at or after the cursor is found, not later than where it
    is. *)
Lemma find_occurrence (pre sub post : str) (c : Z) :
  0 <= c <= len pre ->
  c <= find (pre ++ sub ++ post) sub c <= len pre.
Proof.
  intros Hc. rewrite find_unfold by (rewrite len_app; pose proof (len_nonneg (sub ++ post)); lia).
  pose proof (find_from_bounds (length pre - Z.to_nat c)
                (skipn (Z.to_nat c) (pre ++ sub ++ post)) sub c) as H.
  unfold len in *.
  rewrite skipn_skipn, length_skipn, length_app in H.
  replace (length pre - Z.to_nat c + Z.to_nat c)%nat with (length pre) in H by lia.
  rewrite skipn_app, skipn_all, Nat.sub_diag in H. cbn [skipn app] in H.
  specialize (H ltac:(lia) (startswith_app sub post)). lia.
Qed.

(** When the first occurrence in the whole text is at [p], a search from
    any cursor up to [p] finds it there. *)
Lemma find_later (s sub : str) (p c : Z) :
  find s sub 0 = p -> 0 <= c <= p -> find s sub c = p.
Proof.
  intros Hp Hc. pose proof (len_nonneg s) as Hs.
  rewrite find_unfold in Hp by lia. cbn [Z.to_nat skipn] in Hp.
  destruct (find_from_found s sub 0 p ltac:(lia) Hp ltac:(lia))
    as (k & Hk & Hlen & Hno & Hm).
  rewrite find_unfold by (unfold len; lia).
  rewrite (find_from_exact (k - Z.to_nat c)).
  - lia.
  - rewrite length_skipn. lia.
  - intros i Hi. rewrite skipn_skipn. apply Hno. lia.
  - rewrite skipn_skipn. replace (k - Z.to_nat c + Z.to_nat c)%nat with k by lia.
    exact Hm.
Qed.

Lemma lstrip_suffix (s : str) : exists w, s = w ++ lstrip s.
Proof.
  induction s as [|c s [w IH]]; [now exists []|]. cbn [lstrip].
  destruct (is_space c); [|now exists []].
  exists (c :: w). cbn [app]. now f_equal.
Qed.

(** [strip] keeps a middle part of the string. *)
Lemma strip_middle (s : str) : exists w1 w2, s = w1 ++ strip s ++ w2.
Proof.
  destruct (lstrip_suffix s) as [w1 H1].
  destruct (lstrip_suffix (rev (lstrip s))) as [w2 H2].
  exists w1, (rev w2). unfold strip.
  rewrite <- rev_app_distr, <- H2, rev_involutive. exact H1.
Qed.

(** ** Coverage for annotations that do not overlap *)

Lemma slice_to_end {A : Type} (s : list A) (a : Z) :
  0 <= a <= len s -> slice s (Some a) None = slice s (Some a) (Some (len s)).
Proof.
  intros Ha. unfold slice, norm_bound.
  destruct (Z.ltb_spec (len s) 0); [lia|]. now rewrite Z.min_id.
Qed.

Lemma slice_empty {A : Type} (s : list A) (a : Z) : slice s (Some a) (Some a) = [].
Proof.
  unfold slice. now rewrite Z.sub_diag.
Qed.

Lemma slice_app {A : Type} (s : list A) (a b c : Z) :
  0 <= a <= b -> b <= c <= len s ->
  slice s (Some a) (Some b) ++ slice s (Some b) (Some c) = slice s (Some a) (Some c).
Proof.
  intros Hab Hbc. rewrite !slice_in_range by lia.
  rewrite <- (firstn_skipn (Z.to_nat (b - a))
                (firstn (Z.to_nat (c - a)) (skipn (Z.to_nat a) s))).
  rewrite firstn_firstn, skipn_firstn_comm, skipn_skipn.
  f_equal; f_equal; try f_equal; lia.
Qed.

Section Coverage.

Context {Conf : Type}.
Variables (multi_label : bool) (none_value text : str).
Variables (token_starts token_ends : list Z).


Lemma disjoint_final_loc (annotations : list (@Annotation Conf)) (last_loc : Z) :
  disjoint text last_loc annotations ->
  last_loc <= len text ->
  last_loc <= final_loc last_loc annotations <= len text.
Proof.
  revert last_loc. induction annotations as [|a rest IH]; intros last_loc H Hl.
  - cbn. lia.
  - destruct H as (H1 & H2 & H3 & _ & Hrest). cbn [final_loc].
    specialize (IH _ Hrest H3). lia.
Qed.

(** Span to segment on annotations that do not overlap, without rounding:
    the expected segments are appended. *)
Lemma s2s_loop_disjoint (annotations : list (@Annotation Conf)) (st : s2s_state) :
  disjoint text (last_loc st) annotations ->
  s2s_loop
    (s2s_step multi_label none_value true false text token_starts token_ends)
    annotations st
  = Ok {| last_loc := final_loc (last_loc st) annotations;
          doc_subseqs :=
            doc_subseqs st
            ++ map fst (labelled_segments text none_value (last_loc st) annotations);
          doc_labels :=
            doc_labels st
            ++ map (fun p => label_entry multi_label (snd p))
                 (labelled_segments text none_value (last_loc st) annotations) |}.
Proof.
  revert st. induction annotations as [|a rest IH]; intros st H.
  - cbn. rewrite !app_nil_r. now destruct st.
  - destruct H as (H1 & H2 & H3 & Htext & Hrest).
    cbn [s2s_loop]. rewrite s2s_step_fresh; [|reflexivity|lia|lia|now right].
    cbn [bind]. rewrite IH by exact Hrest.
    cbn [last_loc doc_subseqs doc_labels final_loc labelled_segments].
    unfold emit_filler, filler, label_entry.
    destruct (last_loc st <? ann_start a); cbn [fst snd app map];
      rewrite <- ?app_assoc; reflexivity.
Qed.

Lemma concat_labelled_segments (annotations : list (@Annotation Conf)) (last_loc : Z) :
  0 <= last_loc ->
  disjoint text last_loc annotations ->
  concat (map fst (labelled_segments text none_value last_loc annotations))
  = slice text (Some last_loc) (Some (final_loc last_loc annotations)).
Proof.
  revert last_loc. induction annotations as [|a rest IH]; intros last_loc Hl H.
  - cbn. now rewrite slice_empty.
  - destruct H as (H1 & H2 & H3 & _ & Hrest).
    pose proof (disjoint_final_loc rest (ann_end a) Hrest H3) as Hfinal.
    cbn [labelled_segments final_loc]. rewrite map_app, concat_app.
    cbn [map concat fst]. rewrite IH by (lia || assumption).
    rewrite (slice_app text (ann_start a)) by lia.
    destruct (Z.ltb_spec last_loc (ann_start a)); cbn [map concat app fst].
    + rewrite app_nil_r. apply slice_app; lia.
    + now replace last_loc with (ann_start a) by lia.
Qed.

End Coverage.

(** The segments of annotations that do not overlap concatenate to the
    text, with and without [multi_label], when no rounding applies. *)
Lemma coverage_disjoint {Conf : Type} (NLP : str -> list token)
    (ENCODER_char_locs : str -> list Z) (multi_label : bool) (none_value text : str)
    (annotations : list (@Annotation Conf)) :
  disjoint text 0 (sorted_by_start annotations) ->
  exists subseqs labels,
    indico_to_finetune_doc NLP ENCODER_char_locs multi_label none_value true false
      text annotations
    = Ok (subseqs, labels)
    /\ concat subseqs = text.
Proof.
  intros Hd. unfold indico_to_finetune_doc.
  rewrite s2s_loop_disjoint by exact Hd.
  cbn [bind last_loc doc_subseqs doc_labels app].
  pose proof (disjoint_final_loc text _ 0 Hd (len_nonneg text)) as Hfinal.
  pose proof (concat_labelled_segments none_value text _ 0 ltac:(lia) Hd) as Hcat.
  destruct (Z.eqb_spec (final_loc 0 (sorted_by_start annotations)) (len text)) as [E|E];
    cbn [negb]; do 2 eexists; (split; [reflexivity|]).
  - rewrite Hcat, E, <- slice_to_end by lia. apply slice_all.
  - rewrite concat_app, Hcat. cbn [concat]. rewrite app_nil_r.
    rewrite slice_to_end by lia. rewrite slice_app by lia.
    rewrite <- slice_to_end by lia. apply slice_all.
Qed.

(** ** Round trip *)


Section RoundTrip.

Context {Conf : Type}.
Variables (none_value text : str) (token_starts token_ends : list Z).


Lemma scan_open_no_join (label : str) (start : Z) (new_label : option str)
    (items : list (@Annotation Conf)) :
  (forall item, In item items -> ann_label item = label -> ann_end item + 1 < start) ->
  scan_open false none_value label start new_label items
  = Ok (match items with [] => new_label | _ :: _ => Some label end, start, items).
Proof.
  revert new_label. induction items as [|item rest IH]; intros new_label Hfar.
  - reflexivity.
  - cbn [scan_open join_test bind].
    assert (Hno : str_eqb (ann_label item) label && (start - ann_end item <=? 1) = false).
    { destruct (str_eqb (ann_label item) label) eqn:E; [|reflexivity].
      apply str_eqb_eq in E. specialize (Hfar item (or_introl eq_refl) E).
      cbn [andb]. destruct (Z.leb_spec (start - ann_end item) 1); [lia|reflexivity]. }
    rewrite Hno, IH by (intros i Hi; apply Hfar; now right).
    cbn [bind]. now destruct rest.
Qed.

Lemma or_str_same (new_label : option str) (label : str) :
  new_label = None \/ new_label = Some label -> or_str new_label label = label.
Proof.
  intros [-> | ->]; [reflexivity|]. now destruct label.
Qed.




End RoundTrip.

Lemma insert_by_start_perm {Conf : Type} (a : @Annotation Conf) (l : list Annotation) :
  Permutation (insert_by_start a l) (a :: l).
Proof.
  induction l as [|b l IH]; cbn [insert_by_start]; [reflexivity|].
  destruct (ann_start a <=? ann_start b); [reflexivity|].
  rewrite IH. apply perm_swap.
Qed.

Lemma sorted_by_start_perm {Conf : Type} (l : list (@Annotation Conf)) :
  Permutation (sorted_by_start l) l.
Proof.
  induction l as [|a l IH]; [reflexivity|].
  cbn [sorted_by_start fold_right]. fold (sorted_by_start l).
  rewrite insert_by_start_perm. now constructor.
Qed.







(** C2. The round trip is not exact where the annotated text occurs earlier
    in the document: for "to be or not to be" with VERB over [13,18), an
    annotation that is not degenerate and overlaps nothing, the way out
    gives the segments "to be or not " and "to be", and the way back
    ([subtoken_predictions] on, [iob] off) returns VERB over [0,5). The
    search for a segment starts where the previous segment was found, not
    where it ended, so the second "to be" is found at the first. *)
Lemma roundtrip_repeated_text :
  let text := lit "to be or not to be" in
  let annotations := [ann "VERB" 13 18 "to be"] in
  indico_to_finetune_doc ws_tokens four_char_locs false (lit "<PAD>") true false text
    annotations
  = Ok ([lit "to be or not "; lit "to be"], [One (lit "<PAD>"); One (lit "VERB")])
  /\ finetune_to_indico_doc ws_tokens (lit "<PAD>") true false text
       [lit "to be or not "; lit "to be"] [Single (lit "<PAD>"); Single (lit "VERB")] None
     = Ok ([ann "VERB" 0 5 "to be"], [])
  /\ ~ Permutation (map triple [ann "VERB" 0 5 "to be"]) (map triple annotations).
Proof.
  intros text annotations. split; [reflexivity|split; [reflexivity|]].
  intros H. apply Permutation_length_1 in H. discriminate.
Qed.

(** By design the way back does not return every annotation unchanged: it
    strips white space, and it joins neighbours with the same label. *)
Lemma roundtrip_trailing_space :
  indico_to_finetune_doc ws_tokens four_char_locs false (lit "<PAD>") true false
    (lit "Bob left") [ann "PERSON" 0 4 "Bob "]
  = Ok ([lit "Bob "; lit "left"], [One (lit "PERSON"); One (lit "<PAD>")])
  /\ finetune_to_indico_doc ws_tokens (lit "<PAD>") true false (lit "Bob left")
       [lit "Bob "; lit "left"] [Single (lit "PERSON"); Single (lit "<PAD>")] None
     = Ok ([ann "PERSON" 0 3 "Bob"], []).
Proof. split; reflexivity. Qed.

Lemma roundtrip_adjacent_same_label :
  indico_to_finetune_doc ws_tokens four_char_locs false (lit "<PAD>") true false
    (lit "New York") [ann "CITY" 0 3 "New"; ann "CITY" 4 8 "York"]
  = Ok ([lit "New"; lit " "; lit "York"],
        [One (lit "CITY"); One (lit "<PAD>"); One (lit "CITY")])
  /\ finetune_to_indico_doc ws_tokens (lit "<PAD>") true false (lit "New York")
       [lit "New"; lit " "; lit "York"]
       [Single (lit "CITY"); Single (lit "<PAD>"); Single (lit "CITY")] None
     = Ok ([ann "CITY" 0 8 "New York"], []).
Proof. split; reflexivity. Qed.

(** ** A failed lookup *)

(** Where the failed lookup is handled as a miss: the label is the filler,
    or no open annotation has it. The label is dropped with a warning and
    the search offset is left at -1. *)
Lemma f2i_label_step_miss {Conf : Type} (none_value : str)
    (subtoken_predictions : bool) (raw_text : str) (token_starts token_ends : list Z)
    (multi_label : bool) (sub_str : str) (confidences : option Conf)
    (st : f2i_state) (label : str) :
  find raw_text (strip sub_str) (raw_annotation_start st) = -1 ->
  label = none_value
  \/ (forall item, In item (doc_annotations st) -> ann_label item <> label) ->
  f2i_label_step none_value subtoken_predictions false raw_text token_starts
    token_ends multi_label sub_str confidences st label
  = Ok {| doc_annotations := doc_annotations st;
          annotation_ranges := annotation_ranges st;
          start_idx := start_idx st;
          end_idx := end_idx st;
          raw_annotation_start := -1;
          warnings := warnings st ++ [warning_message (strip sub_str)] |}.
Proof.
  intros Hmiss Hlabel. unfold f2i_label_step. rewrite Hmiss.
  destruct (str_eqb label none_value) eqn:E; cbn [negb].
  - reflexivity.
  - destruct Hlabel as [-> | Hother]; [now rewrite str_eqb_refl in E|].
    rewrite scan_open_no_join by (intros item Hin Hl; now apply Hother in Hin).
    reflexivity.
Qed.

(** A label that is a list gets through the loop body only by a failed
    lookup, without [iob]. *)
Lemma f2i_list_label_step_ok {Conf : Type} (subtoken_predictions iob : bool)
    (raw_text : str) (token_starts token_ends : list Z) (sub_str : str)
    (st st' : f2i_state (Conf := Conf)) :
  f2i_list_label_step subtoken_predictions iob raw_text token_starts token_ends
    sub_str st = Ok st' ->
  iob = false
  /\ find raw_text (strip sub_str) (raw_annotation_start st) = -1
  /\ st' = {| doc_annotations := doc_annotations st;
              annotation_ranges := annotation_ranges st;
              start_idx := start_idx st;
              end_idx := end_idx st;
              raw_annotation_start := -1;
              warnings := warnings st ++ [warning_message (strip sub_str)] |}.
Proof.
  unfold f2i_list_label_step. destruct iob; [discriminate|].
  destruct (Z.eqb_spec (find raw_text (strip sub_str) (raw_annotation_start st)) (-1))
    as [Hmiss|Hfound].
  - rewrite Hmiss. intros [= <-]. auto.
  - match goal with |- bind ?c _ = _ -> _ => destruct c end; cbn [bind]; discriminate.
Qed.

Lemma f2i_list_label_step_open {Conf : Type} (subtoken_predictions iob : bool)
    (raw_text : str) (token_starts token_ends : list Z) (sub_str : str)
    (st st' : f2i_state (Conf := Conf)) :
  f2i_list_label_step subtoken_predictions iob raw_text token_starts token_ends
    sub_str st = Ok st' ->
  doc_annotations st' = doc_annotations st
  /\ annotation_ranges st' = annotation_ranges st.
Proof.
  intros H. apply f2i_list_label_step_ok in H as (_ & _ & ->). now split.
Qed.

(** ** Duplicates without [iob] *)

Lemma range_eqb_eq (a b : Z * Z * str) : range_eqb a b = true <-> a = b.
Proof.
  destruct a as [[s1 e1] l1], b as [[s2 e2] l2]. cbn [range_eqb].
  rewrite !andb_true_iff, !Z.eqb_eq, str_eqb_eq. split.
  - intros [[-> ->] ->]. reflexivity.
  - intros [= -> -> ->]. auto.
Qed.

Lemma in_ranges_In (key : Z * Z * str) (ranges : list (Z * Z * str)) :
  in_ranges key ranges = true <-> In key ranges.
Proof.
  unfold in_ranges. rewrite existsb_exists. split.
  - intros (k & Hin & E). apply range_eqb_eq in E. now subst.
  - intros Hin. exists key. split; [assumption|]. now apply range_eqb_eq.
Qed.

Section Dedup.

Context {Conf : Type}.
Variables (none_value raw_text : str) (subtoken_predictions : bool).
Variables (token_starts token_ends : list Z).

Lemma scan_open_remains (label : str) (start : Z) (new_label : option str)
    (items : list (@Annotation Conf)) (new_label' : option str) (start' : Z)
    (items' : list (@Annotation Conf)) :
  scan_open false none_value label start new_label items
  = Ok (new_label', start', items') ->
  (new_label = None \/ new_label = Some label) ->
  (new_label' = None \/ new_label' = Some label)
  /\ (forall item, In item items' -> In item items)
  /\ (NoDup (map triple items) -> NoDup (map triple items')).
Proof.
  revert new_label new_label' start' items'.
  induction items as [|item rest IH]; intros new_label new_label' start' items' H Hnl.
  - cbn in H. injection H as <- <- <-. auto.
  - cbn [scan_open join_test bind] in H.
    destruct (str_eqb (ann_label item) label && (start - ann_end item <=? 1)).
    + injection H as <- <- <-. repeat split; [now right | intros i Hi; now right |].
      cbn [map]. intros Hnd. now apply NoDup_cons_iff in Hnd.
    + destruct (scan_open false none_value label start (Some label) rest)
        as [[[nl s] r]|] eqn:Hscan; cbn [bind] in H; [|discriminate].
      injection H as <- <- <-.
      destruct (IH _ _ _ _ Hscan (or_intror eq_refl)) as (Hnl' & Hsub & Hnd).
      repeat split; [exact Hnl'| |].
      * intros i [<-|Hi]; [now left | right; now apply Hsub].
      * cbn [map]. intros Hall. apply NoDup_cons_iff in Hall as [Hnotin Hall].
        constructor; [|now apply Hnd].
        intros Hin. apply Hnotin. apply in_map_iff in Hin as (i & E & Hi).
        apply in_map_iff. exists i. split; [exact E | now apply Hsub].
Qed.

Lemma f2i_label_step_dedup (multi_label : bool) (sub_str : str)
    (confidences : option Conf) (st st' : f2i_state) (label : str) :
  f2i_label_step none_value subtoken_predictions false raw_text token_starts
    token_ends multi_label sub_str confidences st label = Ok st' ->
  dedup_inv st -> dedup_inv st'.
Proof.
  intros H (Hcover & Hnd). unfold f2i_label_step in H.
  set (found := find raw_text (strip sub_str) (raw_annotation_start st)) in *.
  destruct (negb (str_eqb label none_value)) eqn:Hlabel.
  - destruct (scan_open false none_value label found None (doc_annotations st))
      as [[[nl start] items]|] eqn:Hscan; cbn [bind andb] in H; [|discriminate].
    destruct (scan_open_remains _ _ _ _ _ _ _ Hscan (or_introl eq_refl))
      as (Hnl & Hsub & Hnd').
    destruct (start =? -1).
    { injection H as <-. split; cbn [doc_annotations annotation_ranges]; auto. }
    match type of H with
    | (x <- ?r ;; _) = _ => destruct r as [[[[si ei] a_start] a_end]|]
    end; cbn [bind] in H; [|discriminate].
    rewrite (or_str_same nl label Hnl) in H.
    destruct (in_ranges (a_start, a_end, label) (annotation_ranges st)) eqn:Hin;
      cbn [negb] in H; injection H as <-;
      split; cbn [doc_annotations annotation_ranges]; auto.
    + intros item Hitem. apply in_app_iff in Hitem as [Hitem|[<-|[]]].
      * right. auto.
      * now left.
    + rewrite map_app. cbn [map]. apply NoDup_app.
      * now apply Hnd'.
      * repeat constructor. intros [].
      * intros k Hk [<-|[]]. apply in_map_iff in Hk as (item & E & Hitem).
        assert (Hkey : In (triple item) (annotation_ranges st)) by auto.
        rewrite E in Hkey. apply in_ranges_In in Hkey. unfold triple in Hkey.
        cbn [ann_start ann_end ann_label] in Hkey. congruence.
  - cbn [bind andb] in H. destruct (found =? -1).
    { injection H as <-. split; assumption. }
    match type of H with
    | (x <- ?r ;; _) = _ => destruct r as [[[[si ei] a_start] a_end]|]
    end; cbn [bind] in H; [|discriminate].
    injection H as <-. split; assumption.
Qed.

Lemma f2i_labels_dedup (multi_label : bool) (sub_str : str)
    (confidences : option Conf) (label_list : list str) (st st' : f2i_state) :
  f2i_labels
    (f2i_label_step none_value subtoken_predictions false raw_text token_starts
       token_ends multi_label sub_str confidences) label_list st = Ok st' ->
  dedup_inv st -> dedup_inv st'.
Proof.
  revert st. induction label_list as [|label rest IH]; intros st H Hinv.
  - injection H as <-. exact Hinv.
  - cbn [f2i_labels] in H.
    destruct (f2i_label_step _ _ _ _ _ _ _ _ _ st label) as [st1|] eqn:Hstep;
      cbn [bind] in H; [|discriminate].
    eapply IH; [exact H|]. eapply f2i_label_step_dedup; eassumption.
Qed.

Lemma f2i_loop_dedup (segs : list (str * raw_label * option Conf))
    (st st' : f2i_state) :
  f2i_loop
    (f2i_segment_step none_value subtoken_predictions false raw_text token_starts
       token_ends) segs st = Ok st' ->
  dedup_inv st -> dedup_inv st'.
Proof.
  revert st. induction segs as [|[[sub_str raw] confidences] rest IH]; intros st H Hinv.
  - injection H as <-. exact Hinv.
  - cbn [f2i_loop] in H.
    destruct (f2i_segment_step _ _ _ _ _ _ st (sub_str, raw, confidences))
      as [st1|] eqn:Hstep; cbn [bind] in H; [|discriminate].
    eapply IH; [exact H|]. unfold f2i_segment_step in Hstep.
    destruct raw; try (eapply f2i_labels_dedup; eassumption).
    apply f2i_list_label_step_open in Hstep as [Hopen Hranges].
    unfold dedup_inv. rewrite Hopen, Hranges. exact Hinv.
Qed.

End Dedup.

(** Without [iob] the key and the annotation hold the same label, and the
    result has no two entries with the same [(start, end, label)]. *)
Lemma no_duplicate_without_iob {Conf : Type} (NLP : str -> list token)
    (none_value : str) (subtoken_predictions : bool) (raw_text : str)
    (doc_seq : list str) (label_seq : list raw_label) (prob_seq : option (list Conf))
    (annotations : list Annotation) (warned : list str) :
  finetune_to_indico_doc NLP none_value subtoken_predictions false raw_text
    doc_seq label_seq prob_seq = Ok (annotations, warned) ->
  NoDup (map triple annotations).
Proof.
  unfold finetune_to_indico_doc. intros H.
  destruct (f2i_loop _ _ f2i_init) as [st|] eqn:Hloop; cbn [bind] in H; [|discriminate].
  injection H as <- <-.
  apply f2i_loop_dedup in Hloop as [_ Hnd].
  - eapply Permutation_NoDup; [|exact Hnd].
    apply Permutation_map, Permutation_sym, sorted_by_start_perm.
  - split; [intros item []|constructor].
Qed.

(** ** Behaviour at concrete documents *)

(** C1. Coverage fails for an annotation nested in the middle of an earlier
    one when a segment precedes them: for the text "in New York City" with
    PLACE over [3,16) and CITY over [7,11), both well formed, the returned
    segments are "City", "in ", "New York", " ", whose concatenation is not
    the text. The index [j] left by the tail split is counted from the
    wrong end, so the piece is cut from the last segment and inserted in
    front. Without the leading segment the same annotations are cut
    correctly. *)
Theorem nested_annotation_breaks_coverage :
  let text := lit "in New York City" in
  let annotations := [ann "PLACE" 3 16 "New York City";
                      ann "CITY" 7 11 "York"] in
  Forall (well_formed text) annotations
  /\ (forall subtoken_labels : bool,
         indico_to_finetune_doc ws_tokens four_char_locs true (lit "<PAD>")
           subtoken_labels false text annotations
         = Ok ([lit "City"; lit "in "; lit "New York"; lit " "],
               [Many [lit "PLACE"; lit "CITY"]; Many [lit "<PAD>"];
                Many [lit "PLACE"]; Many [lit "PLACE"]]))
  /\ concat [lit "City"; lit "in "; lit "New York"; lit " "] <> text
  /\ indico_to_finetune_doc ws_tokens four_char_locs true (lit "<PAD>")
       false false (lit "New York City")
       [ann "PLACE" 0 13 "New York City"; ann "CITY" 4 8 "York"]
     = Ok ([lit "New "; lit "York"; lit " City"],
           [Many [lit "PLACE"]; Many [lit "PLACE"; lit "CITY"]; Many [lit "PLACE"]]).
Proof.
  intros text annotations. split; [|split; [|split]].
  - repeat apply Forall_cons; try apply Forall_nil;
      (split; [split; vm_compute; discriminate
              |split; [vm_compute; discriminate | right; reflexivity]]).
  - intros []; vm_compute; reflexivity.
  - vm_compute. discriminate.
  - vm_compute. reflexivity.
Qed.

(** C5. A failed lookup is not isolated. (1) When an open annotation has
    the segment's label, the scan of the open annotations runs with the
    failed search's -1, joins, removes the open annotation and overwrites
    the -1, so no warning is emitted: for "New York is big" cut as "New",
    "Yrok", " is big" with labels CITY, CITY, filler, the result has no
    annotation and no warning. (2) After a failed lookup the search offset
    is -1, which [str.find] reads as the last character: cut as "Nwe ",
    "York", " is big" with labels filler, CITY, filler, "York" is not found
    any more. *)
Theorem lookup_miss_not_isolated :
  let raw_text := lit "New York is big" in
  let pad := lit "<PAD>" in
  (forall subtoken_predictions : bool,
      finetune_to_indico_doc (Conf := unit) ws_tokens pad subtoken_predictions false
        raw_text [lit "New"; lit "Yrok"; lit " is big"]
        [Single (lit "CITY"); Single (lit "CITY"); Single pad] None
      = Ok ([], []))
  /\ (forall subtoken_predictions : bool,
         finetune_to_indico_doc (Conf := unit) ws_tokens pad subtoken_predictions false
           raw_text [lit "Nwe "; lit "York"; lit " is big"]
           [Single pad; Single (lit "CITY"); Single pad] None
         = Ok ([], [warning_message (lit "Nwe"); warning_message (lit "York");
                    warning_message (lit "is big")]))
  /\ find raw_text (lit "York") 0 = 4
  /\ (forall subtoken_predictions : bool,
         option_map raw_annotation_start
           match f2i_label_step (Conf := unit) pad subtoken_predictions false raw_text
                   (token_starts_of (ws_tokens raw_text))
                   (token_ends_of (ws_tokens raw_text))
                   false (lit "Nwe ") None f2i_init pad with
           | Ok st => Some st
           | Raise _ => None
           end
         = Some (-1)).
Proof.
  intros raw_text pad. repeat split; try (intros []; vm_compute; reflexivity).
Qed.

(** C9. With [iob] the key that guards against duplicates holds the raw
    label, while the annotation holds the joined label, from which the
    [IE-] marker is stripped at the end: for the one-segment document
    "Paris" predicted as (E-CITY, B-CITY) the result has the triple
    (0, 5, CITY) twice. *)
Theorem iob_duplicate_triple :
  forall subtoken_predictions : bool,
    exists a1 a2,
      finetune_to_indico_doc (Conf := unit) ws_tokens (lit "<PAD>")
        subtoken_predictions true (lit "Paris") [lit "Paris"]
        [Tuple [lit "E-CITY"; lit "B-CITY"]] None
      = Ok ([a1; a2], [])
      /\ triple a1 = (0, 5, lit "CITY")
      /\ triple a2 = (0, 5, lit "CITY").
Proof.
  intros []; do 2 eexists; (split; [vm_compute; reflexivity|split; reflexivity]).
Qed.
(** * Further properties *)

(** ** Batches *)

Lemma slice_nonneg {A : Type} (s : list A) (a b : Z) :
  0 <= a <= b ->
  slice s (Some a) (Some b) = firstn (Z.to_nat (b - a)) (skipn (Z.to_nat a) s).
Proof.
  intros Hab. unfold slice, norm_bound. pose proof (len_nonneg s) as Hn.
  destruct (Z.ltb_spec a 0); [lia|]. destruct (Z.ltb_spec b 0); [lia|].
  destruct (Z.le_gt_cases (len s) a) as [Hout|Hin].
  - rewrite (Z.min_r a) by lia. rewrite !skipn_all2 by (unfold len in *; lia).
    now rewrite !firstn_nil.
  - rewrite (Z.min_l a) by lia. destruct (Z.le_gt_cases b (len s)).
    + now rewrite Z.min_l by lia.
    + rewrite Z.min_r by lia.
      rewrite !firstn_all2; [reflexivity | |]; rewrite length_skipn; unfold len in *; lia.
Qed.

Lemma firstn_plus {A : Type} (a b : nat) (l : list A) :
  firstn (a + b) l = firstn a l ++ firstn b (skipn a l).
Proof.
  revert l. induction a as [|a IH]; intros l; [reflexivity|].
  destruct l as [|x l]; [cbn; now rewrite firstn_nil|]. cbn. now rewrite IH.
Qed.

(** Consecutive chunks of [b] elements make up a prefix. *)
Lemma concat_chunks {A : Type} (b c : nat) (l : list A) :
  concat (map (fun k => firstn b (skipn (k * b) l)) (seq 0 c)) = firstn (c * b) l.
Proof.
  induction c as [|c IH]; [reflexivity|].
  rewrite seq_S, map_app, concat_app, IH. cbn [map concat plus].
  rewrite app_nil_r. replace (S c * b)%nat with (c * b + b)%nat by lia.
  now rewrite firstn_plus.
Qed.

Lemma firstn_seq (n start count : nat) :
  firstn n (seq start count) = seq start (Nat.min n count).
Proof.
  revert start count. induction n as [|n IH]; intros start count; [reflexivity|].
  destruct count as [|count]; [reflexivity|]. cbn. now rewrite IH.
Qed.

Module IterDataFacts.
Import IterData.

(** Without [max_batches] the loop yields one value for every index. *)
Lemma batches_unbounded {A : Type} (datas : list (list A)) (n_batch : Z)
    (indices : list Z) (n_batches : Z) :
  batches datas n_batch None indices n_batches
  = (map (batch_at datas n_batch) indices, None).
Proof.
  revert n_batches. induction indices as [|i rest IH]; intros n_batches; [reflexivity|].
  cbn [batches map]. now rewrite IH.
Qed.

(** With [max_batches] and few enough indices, too. *)
Lemma batches_bounded {A : Type} (datas : list (list A)) (n_batch m : Z)
    (indices : list Z) (n_batches : Z) :
  n_batches + len indices <= m ->
  batches datas n_batch (Some m) indices n_batches
  = (map (batch_at datas n_batch) indices, None).
Proof.
  revert n_batches. induction indices as [|i rest IH]; intros n_batches H;
    [reflexivity|].
  cbn [batches map]. unfold len in *. cbn [length] in H.
  destruct (Z.leb_spec m n_batches); [lia|]. now rewrite IH by lia.
Qed.

Lemma range_len_nonneg (stop step : Z) : step <> 0 -> 0 <= range_len stop step.
Proof.
  intros H. unfold range_len.
  destruct (Z.ltb_spec 0 step), (Z.ltb_spec 0 stop), (Z.ltb_spec stop 0); try lia.
  - pose proof (Z.div_pos (stop - 1) step). lia.
  - pose proof (Z.div_pos (- 1 - stop) (- step)). lia.
Qed.

(** The number of items of a forward range is the quotient rounded up. *)
Lemma range_len_up (stop step : Z) :
  0 < step -> 0 < stop ->
  1 <= range_len stop step
  /\ (range_len stop step - 1) * step < stop <= range_len stop step * step.
Proof.
  intros Hstep Hstop. unfold range_len.
  destruct (Z.ltb_spec 0 step); [|lia]. destruct (Z.ltb_spec 0 stop); [|lia].
  pose proof (Z.div_mod (stop - 1) step ltac:(lia)) as Hdm.
  pose proof (Z.mod_pos_bound (stop - 1) step Hstep) as Hmod.
  pose proof (Z.div_pos (stop - 1) step ltac:(lia) Hstep). nia.
Qed.

Lemma range_len_up_none (stop step : Z) :
  0 < step -> stop <= 0 -> range_len stop step = 0.
Proof.
  intros Hs H. unfold range_len.
  destruct (Z.ltb_spec 0 step); [|lia]. destruct (Z.ltb_spec 0 stop); [lia|reflexivity].
Qed.

Lemma range_len_up_unique (stop step c : Z) :
  0 < step -> (c - 1) * step < stop <= c * step -> 0 < stop ->
  range_len stop step = c.
Proof.
  intros Hstep Hc Hstop. destruct (range_len_up stop step Hstep Hstop) as (_ & H1 & H2).
  nia.
Qed.

(** [min(n, max_batches * n_batch)] leaves at most [max_batches] indices. *)
Lemma range_len_capped (n m n_batch : Z) :
  n_batch <> 0 -> 0 <= n ->
  range_len (Z.min n (m * n_batch)) n_batch <= Z.max 0 m.
Proof.
  intros Hnb Hn. unfold range_len.
  destruct (Z.ltb_spec 0 n_batch).
  - destruct (Z.ltb_spec 0 (Z.min n (m * n_batch))) as [Hpos|]; [|lia].
    pose proof (Z.div_mod (Z.min n (m * n_batch) - 1) n_batch ltac:(lia)) as Hdm.
    pose proof (Z.mod_pos_bound (Z.min n (m * n_batch) - 1) n_batch ltac:(lia)) as Hmod.
    nia.
  - destruct (Z.ltb_spec (Z.min n (m * n_batch)) 0) as [Hneg|]; [|lia].
    assert (Hmin : Z.min n (m * n_batch) = m * n_batch) by lia. rewrite Hmin in *.
    pose proof (Z.div_mod (- 1 - m * n_batch) (- n_batch) ltac:(lia)) as Hdm.
    pose proof (Z.mod_pos_bound (- 1 - m * n_batch) (- n_batch) ltac:(lia)) as Hmod.
    nia.
Qed.

(** For a positive step it leaves the first [max_batches] of them. *)
Lemma range_len_capped_up (n m n_batch : Z) :
  0 < n_batch ->
  range_len (Z.min n (m * n_batch)) n_batch = Z.min (range_len n n_batch) (Z.max 0 m).
Proof.
  intros Hnb.
  destruct (Z.le_gt_cases n 0) as [Hn|Hn].
  - rewrite !range_len_up_none by lia. lia.
  - destruct (range_len_up n n_batch Hnb Hn) as (H1 & H2 & H3).
    destruct (Z.le_gt_cases m 0) as [Hm|Hm].
    + rewrite range_len_up_none by nia. lia.
    + apply range_len_up_unique; [assumption| |nia].
      destruct (Z.le_gt_cases (range_len n n_batch) m).
      * rewrite (Z.min_l (range_len n n_batch)) by lia. nia.
      * rewrite (Z.min_r (range_len n n_batch)) by lia. nia.
Qed.

(** The length after [truncate] is not negative, whatever the sign of
    [n_batch]. *)
Lemma truncated_nonneg (n n_batch : Z) : 0 <= n -> 0 <= n / n_batch * n_batch.
Proof.
  intros Hn. destruct (Z.eq_dec n_batch 0) as [->|Hz]; [lia|].
  destruct (Z.lt_ge_cases 0 n_batch).
  - pose proof (Z.div_pos n n_batch). nia.
  - pose proof (Z.div_mod n n_batch Hz). pose proof (Z.mod_neg_bound n n_batch). nia.
Qed.

Lemma range0_length (stop step : Z) (indices : list Z) :
  range0 stop step = Some indices -> len indices = range_len stop step.
Proof.
  unfold range0. destruct (Z.eqb_spec step 0); [discriminate|]. intros [= <-].
  unfold len. rewrite length_map, length_seq. pose proof (range_len_nonneg stop step). lia.
Qed.

Lemma range0_up (stop step : Z) :
  0 < step ->
  range0 stop step
  = Some (map (fun k => Z.of_nat k * step) (seq 0 (Z.to_nat (range_len stop step)))).
Proof.
  intros H. unfold range0. destruct (Z.eqb_spec step 0); [lia|reflexivity].
Qed.

(** The slices at the indices of a forward range are chunks of [n_batch]
    elements. *)
Lemma slices_as_chunks {A : Type} (d : list A) (n_batch : Z) (c : nat) :
  0 < n_batch ->
  map (fun i => slice d (Some i) (Some (i + n_batch)))
    (map (fun k => Z.of_nat k * n_batch) (seq 0 c))
  = map (fun k => firstn (Z.to_nat n_batch) (skipn (k * Z.to_nat n_batch) d)) (seq 0 c).
Proof.
  intros H. rewrite map_map. apply map_ext. intros k.
  rewrite slice_nonneg by nia. f_equal; [f_equal; lia|f_equal; nia].
Qed.

(** [iter_data] on one data, by chunks. *)
Lemma iter_data_chunks {A : Type} (d : list A) (n_batch : Z) (truncate : bool) :
  0 < n_batch ->
  let n := if truncate then len d / n_batch * n_batch else len d in
  iter_data [d] n_batch truncate None
  = (map Slice
       (map (fun k => firstn (Z.to_nat n_batch) (skipn (k * Z.to_nat n_batch) d))
          (seq 0 (Z.to_nat (range_len n n_batch)))),
     None).
Proof.
  intros H n. unfold iter_data. destruct (Z.eqb_spec n_batch 0) as [Hz|Hz]; [lia|].
  rewrite andb_false_r. destruct (Z.ltb_spec n_batch 0) as [Hneg|Hneg]; [lia|].
  fold n. rewrite range0_up, batches_unbounded by assumption.
  rewrite <- slices_as_chunks by assumption. now rewrite (map_map _ Slice).
Qed.

End IterDataFacts.

(** X1. [iter_data] on one data with a positive [n_batch] and the default
    [max_batches] ends without an exception, and the slices it yields, put
    together with [flatten], are the data: every slice has between 1 and
    [n_batch] elements, and all but the last have [n_batch]. *)
Theorem iter_data_covers {A : Type} (d : list A) (n_batch : Z) :
  0 < n_batch ->
  exists chunks,
    IterData.iter_data [d] n_batch false None = (map IterData.Slice chunks, None)
    /\ flatten chunks = d
    /\ Forall (fun c => 0 < len c <= n_batch) chunks
    /\ Forall (fun c => len c = n_batch) (removelast chunks).
Proof.
  intros H. eexists. split; [now apply (IterDataFacts.iter_data_chunks d n_batch false)|].
  cbv zeta iota. set (b := Z.to_nat n_batch).
  set (c := Z.to_nat (IterData.range_len (len d) n_batch)).
  assert (Hb : (0 < b)%nat) by (unfold b; lia).
  assert (Hc : (length d <= c * b)%nat /\ ((c - 1) * b < length d \/ d = [])%nat
               /\ (d = [] -> c = 0%nat)).
  { unfold c, b. destruct d as [|x d'].
    - rewrite IterDataFacts.range_len_up_none by (cbn; lia). cbn. auto.
    - destruct (IterDataFacts.range_len_up (len (x :: d')) n_batch H)
        as (H1 & H2 & H3); [unfold len; cbn [length]; lia|].
      unfold len in *. repeat split; try discriminate; [nia|left; nia]. }
  destruct Hc as (Hc1 & Hc2 & Hc3).
  split; [|split].
  - unfold flatten. rewrite concat_chunks. apply firstn_all2. exact Hc1.
  - apply Forall_forall. intros ch Hin. apply in_map_iff in Hin as (k & <- & Hk).
    apply in_seq in Hk. unfold len. rewrite length_firstn, length_skipn.
    destruct Hc2 as [Hc2 | ->]; [|rewrite Hc3 in Hk by reflexivity; lia].
    assert (k * b <= (c - 1) * b)%nat by nia. lia.
  - destruct c as [|c']; [constructor|].
    rewrite seq_S, map_app. cbn [map plus]. rewrite removelast_last.
    apply Forall_forall. intros ch Hin. apply in_map_iff in Hin as (k & <- & Hk).
    apply in_seq in Hk. unfold len. rewrite length_firstn, length_skipn.
    destruct Hc2 as [Hc2 | ->]; [|specialize (Hc3 eq_refl); discriminate].
    assert ((k + 1) * b <= (S c' - 1) * b)%nat by nia. lia.
Qed.

Lemma iter_data_covers_witness :
  exists chunks,
    IterData.iter_data [[1; 2; 3; 4; 5; 6; 7]] 3 false None
    = (map IterData.Slice chunks, None)
    /\ flatten chunks = [1; 2; 3; 4; 5; 6; 7]
    /\ Forall (fun c => 0 < len c <= 3) chunks
    /\ Forall (fun c => len c = 3) (removelast chunks).
Proof.
  apply (iter_data_covers [1; 2; 3; 4; 5; 6; 7] 3). lia.
Defined.

(** X2. With [truncate] (and a positive [n_batch], default [max_batches])
    [iter_data] yields [len(data) // n_batch] slices of exactly [n_batch]
    elements, which together are the prefix of the data of that many
    elements: the incomplete last batch is dropped. *)
Theorem iter_data_truncate {A : Type} (d : list A) (n_batch : Z) :
  0 < n_batch ->
  exists chunks,
    IterData.iter_data [d] n_batch true None = (map IterData.Slice chunks, None)
    /\ len chunks = len d / n_batch
    /\ Forall (fun c => len c = n_batch) chunks
    /\ flatten chunks = firstn (Z.to_nat (len d / n_batch * n_batch)) d.
Proof.
  intros H. eexists. split; [now apply (IterDataFacts.iter_data_chunks d n_batch true)|].
  cbv zeta iota. pose proof (len_nonneg d) as Hn.
  pose proof (Z.div_pos (len d) n_batch Hn H) as Hq.
  pose proof (Z.div_mod (len d) n_batch ltac:(lia)) as Hdm.
  pose proof (Z.mod_pos_bound (len d) n_batch H) as Hmod.
  assert (Hc : IterData.range_len (len d / n_batch * n_batch) n_batch = len d / n_batch).
  { destruct (Z.eq_dec (len d / n_batch) 0) as [Hz|Hz].
    - rewrite Hz. now rewrite IterDataFacts.range_len_up_none by lia.
    - apply IterDataFacts.range_len_up_unique; [assumption|nia|nia]. }
  rewrite Hc. set (b := Z.to_nat n_batch). set (c := Z.to_nat (len d / n_batch)).
  assert (Hcb : (c * b <= length d)%nat) by (unfold c, b, len in *; nia).
  split; [|split].
  - unfold len at 1. rewrite length_map, length_seq. unfold c. lia.
  - apply Forall_forall. intros ch Hin. apply in_map_iff in Hin as (k & <- & Hk).
    apply in_seq in Hk. unfold len. rewrite length_firstn, length_skipn.
    assert ((k + 1) * b <= c * b)%nat by nia. unfold b in *. lia.
  - unfold flatten. rewrite concat_chunks. f_equal. unfold c, b. nia.
Qed.

Lemma iter_data_truncate_witness :
  exists chunks,
    IterData.iter_data [[1; 2; 3; 4; 5; 6; 7]] 3 true None
    = (map IterData.Slice chunks, None)
    /\ len chunks = len [1; 2; 3; 4; 5; 6; 7] / 3
    /\ Forall (fun c => len c = 3) chunks
    /\ flatten chunks = firstn (Z.to_nat (len [1; 2; 3; 4; 5; 6; 7] / 3 * 3)) [1; 2; 3; 4; 5; 6; 7].
Proof.
  apply (iter_data_truncate [1; 2; 3; 4; 5; 6; 7] 3). lia.
Defined.

(** X3. The [raise StopIteration] of the loop of [iter_data] is never
    reached, for no datas, batch size, [truncate] and integer or default
    [max_batches]: [min(n, max_batches * n_batch)] has already cut the range
    to at most [max_batches] indices. *)
Theorem iter_data_never_stops {A : Type} (datas : list (list A)) (n_batch : Z)
    (truncate : bool) (max_batches : option Z) :
  snd (IterData.iter_data datas n_batch truncate max_batches)
  <> Some IterData.StopIteration.
Proof.
  unfold IterData.iter_data. destruct datas as [|d0 rest]; [discriminate|].
  destruct (truncate && (n_batch =? 0)) eqn:Htz; [discriminate|].
  set (n := if truncate then len d0 / n_batch * n_batch else len d0).
  assert (Hn : 0 <= n).
  { unfold n. pose proof (len_nonneg d0).
    destruct truncate; [now apply IterDataFacts.truncated_nonneg|assumption]. }
  destruct max_batches as [m|].
  - destruct (IterData.range0 (Z.min n (m * n_batch)) n_batch) as [indices|] eqn:Hr;
      [|discriminate].
    pose proof (IterDataFacts.range0_length _ _ _ Hr) as Hl.
    assert (Hnb : n_batch <> 0).
    { intros ->. unfold IterData.range0 in Hr. discriminate. }
    pose proof (IterDataFacts.range_len_capped n m n_batch Hnb Hn) as Hcap.
    destruct indices as [|i indices']; [discriminate|].
    rewrite IterDataFacts.batches_bounded; [discriminate|].
    unfold len in *. cbn [length] in *. lia.
  - destruct (n_batch <? 0); [discriminate|].
    destruct (IterData.range0 n n_batch) as [indices|]; [|discriminate].
    rewrite IterDataFacts.batches_unbounded. discriminate.
Qed.

(** X4. For a positive [n_batch], [iter_data] with [max_batches = m] yields
    the first [m] of the values it yields with the default [max_batches]
    (none for a negative [m]), and ends as that one does. *)
Theorem iter_data_max_batches {A : Type} (datas : list (list A)) (n_batch m : Z)
    (truncate : bool) :
  0 < n_batch ->
  IterData.iter_data datas n_batch truncate (Some m)
  = (firstn (Z.to_nat m) (fst (IterData.iter_data datas n_batch truncate None)),
     snd (IterData.iter_data datas n_batch truncate None)).
Proof.
  intros H. unfold IterData.iter_data. destruct datas as [|d0 rest]; [now rewrite firstn_nil|].
  destruct (Z.eqb_spec n_batch 0) as [Hz|Hz]; [lia|]. rewrite andb_false_r.
  destruct (Z.ltb_spec n_batch 0) as [Hneg|Hneg]; [lia|].
  set (n := if truncate then len d0 / n_batch * n_batch else len d0).
  rewrite !IterDataFacts.range0_up by assumption.
  rewrite IterDataFacts.batches_unbounded. cbn [fst snd].
  rewrite IterDataFacts.range_len_capped_up by assumption.
  pose proof (IterDataFacts.range_len_nonneg n n_batch ltac:(lia)) as Hc.
  clearbody n. destruct (Z.le_gt_cases m 0) as [Hm|Hm].
  - replace (Z.to_nat (Z.min (IterData.range_len n n_batch) (Z.max 0 m))) with 0%nat by lia.
    now replace (Z.to_nat m) with 0%nat by lia.
  - rewrite IterDataFacts.batches_bounded.
    + f_equal. rewrite !firstn_map, firstn_seq. do 3 f_equal. lia.
    + unfold len. rewrite length_map, length_seq. lia.
Qed.

Lemma iter_data_max_batches_witness :
  IterData.iter_data [[1; 2; 3; 4; 5; 6; 7]; [8; 9]] 3 false (Some 2)
  = (firstn (Z.to_nat 2)
       (fst (IterData.iter_data [[1; 2; 3; 4; 5; 6; 7]; [8; 9]] 3 false None)),
     snd (IterData.iter_data [[1; 2; 3; 4; 5; 6; 7]; [8; 9]] 3 false None)).
Proof.
  apply (iter_data_max_batches [[1; 2; 3; 4; 5; 6; 7]; [8; 9]] 3 2 false). lia.
Defined.

(** ** Transposition *)

Lemma heads_some {A : Type} (d : A) (rows : list (list A)) :
  Forall (fun r => r <> []) rows -> heads rows = Some (map (fun r => nth 0 r d) rows).
Proof.
  induction 1 as [|r rows Hr _ IH]; [reflexivity|].
  cbn [heads map]. destruct r as [|x r]; [contradiction|]. now rewrite IH.
Qed.

Lemma heads_none {A : Type} (rows : list (list A)) :
  Exists (fun r => r = []) rows -> heads rows = None.
Proof.
  induction 1 as [r rows ->|r rows _ IH]; [reflexivity|].
  cbn [heads]. destruct r; [reflexivity|]. now rewrite IH.
Qed.

Lemma shortest_row_nil {A : Type} (n : nat) (rows : list (list A)) :
  Exists (fun r => r = []) rows -> shortest_row n rows = 0%nat.
Proof.
  induction 1 as [r rows ->|r rows _ IH]; cbn [shortest_row fold_right length];
    [reflexivity|].
  fold (shortest_row n rows). rewrite IH. lia.
Qed.

Lemma shortest_row_zero {A : Type} (rows : list (list A)) : shortest_row 0 rows = 0%nat.
Proof.
  induction rows as [|r rows IH]; [reflexivity|].
  cbn [shortest_row fold_right]. fold (shortest_row 0 rows). rewrite IH. lia.
Qed.

Lemma shortest_row_tl {A : Type} (n : nat) (rows : list (list A)) :
  Forall (fun r => r <> []) rows ->
  shortest_row (S n) rows = S (shortest_row n (map (@tl A) rows)).
Proof.
  induction 1 as [|r rows Hr _ IH]; [reflexivity|].
  cbn [shortest_row fold_right map]. fold (shortest_row (S n) rows).
  fold (shortest_row n (map (@tl A) rows)). rewrite IH.
  destruct r as [|x r]; [contradiction|]. cbn [length tl]. lia.
Qed.

Lemma rows_empty_dec {A : Type} (rows : list (list A)) :
  Forall (fun r => r <> []) rows \/ Exists (fun r => r = []) rows.
Proof.
  induction rows as [|r rows [IH|IH]].
  - left. constructor.
  - destruct r; [right; now constructor|left; constructor; [discriminate|assumption]].
  - right. now constructor 2.
Qed.

Lemma zip_rows_columns {A : Type} (d : A) (first : list A) (rest : list (list A)) :
  zip_rows first rest
  = map (fun j => map (fun r => nth j r d) (first :: rest))
      (seq 0 (shortest_row (length first) rest)).
Proof.
  revert rest. induction first as [|x first' IH]; intros rest.
  - cbn [length]. now rewrite shortest_row_zero.
  - cbn [zip_rows length]. destruct (rows_empty_dec rest) as [Hall|Hnil].
    + rewrite (heads_some d) by assumption. rewrite shortest_row_tl by assumption.
      rewrite IH. cbn [seq map nth]. f_equal.
      rewrite <- seq_shift, map_map. apply map_ext. intros j. cbn [map nth]. f_equal.
      rewrite map_map. apply map_ext. intros r.
      destruct r; [now destruct j|reflexivity].
    + rewrite heads_none, shortest_row_nil by assumption. reflexivity.
Qed.

Lemma map_nth_seq {A : Type} (d : A) (r : list A) :
  map (fun j => nth j r d) (seq 0 (length r)) = r.
Proof.
  induction r as [|x r IH]; [reflexivity|].
  cbn [length seq map nth]. f_equal. rewrite <- seq_shift, map_map. exact IH.
Qed.

Lemma shortest_row_rect {A : Type} (n : nat) (rows : list (list A)) :
  Forall (fun r => length r = n) rows -> shortest_row n rows = n.
Proof.
  induction 1 as [|r rows Hr _ IH]; [reflexivity|].
  cbn [shortest_row fold_right]. fold (shortest_row n rows). rewrite IH. lia.
Qed.

Lemma transpose_by_columns {A : Type} (d : A) (l : list (list A)) :
  list_transpose l
  = map (fun j => map (fun r => nth j r d) l) (seq 0 (shortest l)).
Proof.
  destruct l as [|first rest]; [reflexivity|].
  cbn [list_transpose shortest]. apply zip_rows_columns.
Qed.

(** X5. [list_transpose] gives, for every position up to the length of
    the shortest row, the list of the elements of all rows at that position,
    in the order of the rows: longer rows are cut, as [zip] does. *)
Theorem list_transpose_columns {A : Type} (d : A) (l : list (list A)) :
  list_transpose l
  = map (fun j => map (fun r => nth j r d) l) (seq 0 (shortest l)).
Proof.
  exact (transpose_by_columns d l).
Qed.

(** X6. On a list of one or more rows of the same positive length
    [list_transpose] is its own inverse. *)
Theorem list_transpose_involutive {A : Type} (n : nat) (l : list (list A)) :
  l <> [] -> (0 < n)%nat -> Forall (fun r => length r = n) l ->
  list_transpose (list_transpose l) = l.
Proof.
  intros Hl Hn Hrect. destruct l as [|first rest]; [contradiction|].
  destruct first as [|d first'] eqn:Hfirst.
  { inversion Hrect as [|? ? H0 _]. cbn in H0. lia. }
  rewrite <- Hfirst in *. clear Hfirst first'.
  assert (Hs : shortest (first :: rest) = n).
  { inversion Hrect as [|? ? H0 Hr]; subst. cbn [shortest].
    now apply shortest_row_rect. }
  rewrite (transpose_by_columns d (first :: rest)), Hs.
  set (l := first :: rest) in *.
  rewrite (transpose_by_columns d).
  assert (Hs2 : shortest (map (fun j => map (fun r => nth j r d) l) (seq 0 n)) = length l).
  { destruct n as [|n']; [lia|]. cbn [seq map shortest].
    rewrite length_map. apply shortest_row_rect. apply Forall_forall.
    intros c Hc. apply in_map_iff in Hc as (j & <- & _). apply length_map. }
  rewrite Hs2.
  etransitivity; [|apply (map_nth_seq [] l)]. apply map_ext_in. intros i Hi.
  apply in_seq in Hi. rewrite map_map.
  assert (Hrow : length (nth i l []) = n).
  { rewrite Forall_forall in Hrect. apply Hrect. apply nth_In. lia. }
  etransitivity; [|apply (map_nth_seq d (nth i l []))]. rewrite Hrow.
  apply map_ext. intros j.
  rewrite (nth_indep _ d ((fun r => nth j r d) [])) by (rewrite length_map; lia).
  now rewrite (map_nth (fun r => nth j r d)).
Qed.

Lemma list_transpose_involutive_witness :
  list_transpose (list_transpose [[1; 2; 3]; [4; 5; 6]]) = [[1; 2; 3]; [4; 5; 6]].
Proof.
  apply (list_transpose_involutive 3 [[1; 2; 3]; [4; 5; 6]]);
    [discriminate | lia | repeat constructor].
Defined.

(** ** More on the join policy *)

Lemma split1_some (s a b : str) :
  split1 "-" s = Some (a, b) -> s = a ++ "-"%char :: b /\ has_char "-" a = false.
Proof.
  revert a b. induction s as [|c s IH]; intros a b; cbn [split1]; [discriminate|].
  destruct (Ascii.eqb c "-") eqn:Hc.
  - intros [= <- <-]. apply Ascii.eqb_eq in Hc. subst c. now split.
  - destruct (split1 "-" s) as [[a' b']|]; [|discriminate].
    intros [= <- <-]. destruct (IH a' b' eq_refl) as [-> Ha]. split; [reflexivity|].
    cbn [has_char existsb]. rewrite Ascii.eqb_sym, Hc. exact Ha.
Qed.

Lemma mapping_cases (loc : str) :
  (In loc iob_locs
   /\ mapping loc = Ok (if str_eqb loc (lit "E") then lit "" else lit "IE-"))
  \/ mapping loc = Raise KeyError.
Proof.
  destruct (in_dec (list_eq_dec ascii_dec) loc iob_locs) as [Hin|Hout].
  - left. split; [assumption|now apply mapping_iob_locs].
  - right. now apply mapping_other.
Qed.

(** X7. [iob_precedes] never falls off its end: for every [left], [right]
    and [pad_token] it returns a pair or raises KeyError (the prefix of
    [right] is no key of [mapping]); no other exception leaves it. *)
Theorem iob_precedes_pair_or_key_error (left : option str) (right pad_token : str) :
  (exists joinable new_label,
      iob_precedes left right pad_token = Ok (Some (joinable, new_label)))
  \/ iob_precedes left right pad_token = Raise KeyError.
Proof.
  unfold iob_precedes.
  destruct (_ && str_eqb right pad_token); [left; eauto|].
  destruct (split1 "-" right) as [[right_loc right_label]|]; [|left; eauto].
  destruct (mapping_cases right_loc) as [[_ Hm]|Hm].
  - left. destruct (match left with None => true | Some l => negb (has_char "-" l) end).
    + rewrite Hm. cbn [bind]. eauto.
    + destruct (match left with Some l => split1 "-" l | None => None end)
        as [[left_loc left_label]|]; [|eauto].
      destruct (str_eqb left_label right_label) eqn:Heq; cbn [negb].
      * apply str_eqb_eq in Heq. subst left_label. rewrite contains_refl, Hm.
        cbn [bind]. eauto.
      * rewrite Hm. cbn [bind]. eauto.
  - destruct (match left with None => true | Some l => negb (has_char "-" l) end).
    + right. now rewrite Hm.
    + destruct (match left with Some l => split1 "-" l | None => None end)
        as [[left_loc left_label]|]; [|left; eauto].
      destruct (str_eqb left_label right_label) eqn:Heq; cbn [negb].
      * apply str_eqb_eq in Heq. subst left_label. rewrite contains_refl, Hm. now right.
      * rewrite Hm. now right.
Qed.

(** X8. [iob_precedes] answers that two labels can be joined only when
    both are the pad token, or when both have a dash, the same text after
    their first dash, and the prefix of [right] is B, I or E; the label of
    the pair is then that text, behind "IE-" unless the prefix is E. *)
Theorem iob_precedes_joinable (left : option str) (right pad_token new_label : str) :
  iob_precedes left right pad_token = Ok (Some (true, new_label)) ->
  (left = Some pad_token /\ right = pad_token /\ new_label = pad_token)
  \/ exists loc_l loc_r base,
      left = Some (loc_l ++ "-"%char :: base)
      /\ right = loc_r ++ "-"%char :: base
      /\ has_char "-" loc_l = false
      /\ In loc_r iob_locs
      /\ new_label = (if str_eqb loc_r (lit "E") then base else lit "IE-" ++ base).
Proof.
  unfold iob_precedes.
  destruct (match left with Some l => str_eqb l right | None => false end
            && str_eqb right pad_token) eqn:Hpad.
  - intros [= <-]. left. apply andb_true_iff in Hpad as [Hl Hr].
    apply str_eqb_eq in Hr. subst right. destruct left as [l|]; [|discriminate].
    apply str_eqb_eq in Hl. now subst l.
  - clear Hpad. destruct (split1 "-" right) as [[right_loc right_label]|] eqn:Hr;
      [|discriminate].
    apply split1_some in Hr as [-> Hloc_r].
    destruct (match left with None => true | Some l => negb (has_char "-" l) end).
    { destruct (mapping right_loc); cbn [bind]; discriminate. }
    destruct left as [l|]; [|discriminate].
    destruct (split1 "-" l) as [[left_loc left_label]|] eqn:Hl; [|discriminate].
    apply split1_some in Hl as [-> Hloc_l].
    destruct (str_eqb left_label right_label) eqn:Heq; cbn [negb].
    + apply str_eqb_eq in Heq. subst left_label. rewrite contains_refl.
      destruct (mapping_cases right_loc) as [[Hin Hm]|Hm]; rewrite Hm; cbn [bind];
        [|discriminate].
      intros [= <-]. right. exists left_loc, right_loc, right_label.
      repeat split; try assumption. change (lit "E") with ["E"%char].
      now destruct (str_eqb right_loc ["E"%char]).
    + destruct (mapping right_loc); cbn [bind]; discriminate.
Qed.

Lemma iob_precedes_joinable_witness :
  (Some (lit "B-PERSON") = Some (lit "<PAD>") /\ lit "I-PERSON" = lit "<PAD>"
   /\ lit "IE-PERSON" = lit "<PAD>")
  \/ exists loc_l loc_r base,
      Some (lit "B-PERSON") = Some (loc_l ++ "-"%char :: base)
      /\ lit "I-PERSON" = loc_r ++ "-"%char :: base
      /\ has_char "-" loc_l = false
      /\ In loc_r iob_locs
      /\ lit "IE-PERSON" = (if str_eqb loc_r (lit "E") then base else lit "IE-" ++ base).
Proof.
  apply (iob_precedes_joinable (Some (lit "B-PERSON")) (lit "I-PERSON") (lit "<PAD>")
           (lit "IE-PERSON")).
  reflexivity.
Defined.

(** ** Warnings *)

(** X9. [truncate_text] with a [max_chars] that is not negative returns a
    text of at most [max_chars + 3] characters: the text itself when it has
    at most [max_chars] characters, else its first [max_chars] characters
    followed by three dots. *)
Theorem truncate_text_bound (text : str) (max_chars : Z) :
  0 <= max_chars ->
  len (truncate_text text max_chars) <= max_chars + 3
  /\ (len text <= max_chars -> truncate_text text max_chars = text)
  /\ (max_chars < len text ->
      truncate_text text max_chars = firstn (Z.to_nat max_chars) text ++ lit "...").
Proof.
  intros Hm. unfold truncate_text. pose proof (len_nonneg text) as Hn.
  destruct (Z.ltb_spec max_chars (len text)) as [Hlong|Hshort].
  - assert (Hs : slice text None (Some max_chars) = firstn (Z.to_nat max_chars) text).
    { unfold slice, norm_bound. destruct (Z.ltb_spec max_chars 0); [lia|].
      rewrite Z.min_l by lia. cbn [skipn Z.to_nat]. f_equal. lia. }
    rewrite Hs. split; [|split]; [|lia|reflexivity].
    rewrite len_app. unfold len at 1. rewrite length_firstn. unfold len in *.
    change (Z.of_nat (length (lit "..."))) with 3. lia.
  - split; [lia|]. split; [reflexivity|lia].
Qed.

Lemma truncate_text_bound_witness :
  len (truncate_text (lit "abcdefgh") 5) <= 5 + 3
  /\ (len (lit "abcdefgh") <= 5 -> truncate_text (lit "abcdefgh") 5 = lit "abcdefgh")
  /\ (5 < len (lit "abcdefgh") ->
      truncate_text (lit "abcdefgh") 5 = firstn (Z.to_nat 5) (lit "abcdefgh") ++ lit "...").
Proof.
  apply (truncate_text_bound (lit "abcdefgh") 5). lia.
Defined.

(** ** Segments and labels stay aligned *)

Lemma bind_ok {A B : Type} (c : result A) (k : A -> result B) (b : B) :
  bind c k = Ok b -> exists a, c = Ok a /\ k a = Ok b.
Proof. destruct c as [a|e]; cbn [bind]; [eauto|discriminate]. Qed.

Lemma getitem_In {A : Type} (l : list A) (i : Z) (x : A) : getitem l i = Ok x -> In x l.
Proof.
  unfold getitem. destruct (_ && _); [|discriminate].
  destruct (nth_error l _) eqn:Hn; [|discriminate]. intros [= <-].
  eapply nth_error_In, Hn.
Qed.

Lemma setitem_ok {A : Type} (l l' : list A) (i : Z) (x : A) :
  setitem l i x = Ok l' ->
  exists k, (k < length l)%nat /\ l' = firstn k l ++ x :: skipn (S k) l.
Proof.
  unfold setitem. destruct (Z.leb_spec 0 (norm_item (len l) i)) as [H1|];
    [|discriminate].
  destruct (Z.ltb_spec (norm_item (len l) i) (len l)) as [H2|]; [|discriminate].
  cbn [andb]. intros H. exists (Z.to_nat (norm_item (len l) i)).
  split; [unfold len in *; lia|congruence].
Qed.

Lemma setitem_length {A : Type} (l l' : list A) (i : Z) (x : A) :
  setitem l i x = Ok l' -> length l' = length l.
Proof.
  intros H. apply setitem_ok in H as (k & Hk & ->).
  rewrite length_app. cbn [length]. rewrite length_firstn, length_skipn. lia.
Qed.

Lemma firstn_Forall {A : Type} (P : A -> Prop) (n : nat) (l : list A) :
  Forall P l -> Forall P (firstn n l).
Proof.
  intros H. rewrite <- (firstn_skipn n l) in H. now apply Forall_app in H.
Qed.

Lemma skipn_Forall {A : Type} (P : A -> Prop) (n : nat) (l : list A) :
  Forall P l -> Forall P (skipn n l).
Proof.
  intros H. rewrite <- (firstn_skipn n l) in H. now apply Forall_app in H.
Qed.

Lemma setitem_Forall {A : Type} (P : A -> Prop) (l l' : list A) (i : Z) (x : A) :
  setitem l i x = Ok l' -> Forall P l -> P x -> Forall P l'.
Proof.
  intros H Hl Hx. apply setitem_ok in H as (k & _ & ->).
  apply Forall_app. split; [now apply firstn_Forall|].
  constructor; [assumption|now apply skipn_Forall].
Qed.

Lemma insert_length {A : Type} (l : list A) (i : Z) (x : A) :
  length (insert l i x) = S (length l).
Proof.
  unfold insert. rewrite length_app. cbn [length]. rewrite length_firstn, length_skipn.
  unfold len. destruct (i <? 0); lia.
Qed.

Lemma insert_Forall {A : Type} (P : A -> Prop) (l : list A) (i : Z) (x : A) :
  Forall P l -> P x -> Forall P (insert l i x).
Proof.
  intros Hl Hx. unfold insert. apply Forall_app. split; [now apply firstn_Forall|].
  constructor; [assumption|now apply skipn_Forall].
Qed.

Section Aligned.

Context {Conf : Type}.
Variables (multi_label : bool) (none_value : str) (subtoken_labels iob : bool).
Variables (text : str) (token_starts token_ends : list Z).

Lemma filler_shape : label_shape multi_label (filler multi_label none_value).
Proof.
  unfold filler.
  destruct multi_label; cbn; [split; [reflexivity|discriminate]|reflexivity].
Qed.

Lemma label_entry_shape (label : str) :
  label_shape multi_label (if multi_label then Many [label] else One label).
Proof. destruct multi_label; cbn; [split; [reflexivity|discriminate]|reflexivity]. Qed.

Lemma append_label_shape (l l' : seg_label) (label : str) :
  append_label l label = Ok l' -> label_shape multi_label l -> label_shape multi_label l'.
Proof.
  destruct l as [s|ls]; cbn; [discriminate|]. intros [= <-] [Hm _]. cbn.
  split; [assumption|]. now destruct ls.
Qed.

Lemma copy_plus_shape (l l' : seg_label) (label : str) :
  copy_plus l label = Ok l' -> label_shape multi_label l -> label_shape multi_label l'.
Proof.
  destruct l as [s|ls]; cbn; [discriminate|]. intros [= <-] [Hm _]. cbn.
  split; [assumption|]. now destruct ls.
Qed.

Lemma emit_filler_aligned (last_loc start : Z) (subseqs : list str)
    (labels : list seg_label) :
  aligned multi_label subseqs labels ->
  aligned multi_label
    (fst (emit_filler multi_label none_value text last_loc start subseqs labels))
    (snd (emit_filler multi_label none_value text last_loc start subseqs labels)).
Proof.
  intros [Hlen Hshape]. unfold emit_filler. destruct (last_loc <? start); [|now split].
  cbn [fst snd]. split.
  - rewrite !length_app. cbn [length]. lia.
  - apply Forall_app. split; [assumption|]. constructor; [apply filler_shape|constructor].
Qed.

Lemma tail_split_aligned (last_loc end_ : Z) (subseqs subseqs' : list str)
    (labels labels' : list seg_label) (j skip_end : Z) :
  tail_split last_loc end_ subseqs labels = Ok (subseqs', labels', j, skip_end) ->
  aligned multi_label subseqs labels -> aligned multi_label subseqs' labels'.
Proof.
  intros H [Hlen Hshape]. unfold tail_split in H.
  destruct (0 <? last_loc - end_); [|injection H as <- <- _ _; now split].
  apply bind_ok in H as (tail & _ & H).
  apply bind_ok in H as ([[s1 l1] j1] & Hcut & H).
  apply bind_ok in H as (tail' & _ & H). injection H as <- <- _ _.
  destruct (negb (len tail =? last_loc - end_)); [|injection Hcut as <- <- _; now split].
  apply bind_ok in Hcut as (s2 & Hset & Hcut).
  apply bind_ok in Hcut as (l & Hget & Hcut). injection Hcut as <- <- _.
  apply setitem_length in Hset. apply getitem_In in Hget. split.
  - rewrite !length_app. cbn [length]. lia.
  - apply Forall_app. split; [assumption|]. constructor; [|constructor].
    rewrite Forall_forall in Hshape. now apply Hshape.
Qed.

Lemma walk_back_aligned (fuel : nat) (subseqs : list str) (label : str)
    (labels labels' : list seg_label) (split_dist j split_dist' j' : Z) :
  walk_back fuel subseqs label labels split_dist j = Ok (labels', split_dist', j') ->
  aligned multi_label subseqs labels -> aligned multi_label subseqs labels'.
Proof.
  revert labels split_dist j.
  induction fuel as [|fuel IH]; intros labels split_dist j H Hal; cbn [walk_back] in H;
    [discriminate|].
  apply bind_ok in H as (s & _ & H).
  destruct (len s <=? split_dist); [|injection H as <- _ _; assumption].
  apply bind_ok in H as (l & Hget & H). apply bind_ok in H as (l' & Happ & H).
  apply bind_ok in H as (labels1 & Hset & H).
  apply (IH _ _ _ H). destruct Hal as [Hlen Hshape]. split.
  - rewrite (setitem_length _ _ _ _ Hset). exact Hlen.
  - apply (setitem_Forall _ _ _ _ _ Hset Hshape).
    apply (append_label_shape _ _ _ Happ).
    rewrite Forall_forall in Hshape. apply Hshape. eapply getitem_In, Hget.
Qed.

Lemma overlap_aligned (label : str) (last_loc start end_ skip_end j : Z)
    (subseqs subseqs' : list str) (labels labels' : list seg_label)
    (annotation_text annotation_text' : option str) (start' : Z) :
  overlap multi_label label last_loc start end_ skip_end j subseqs labels annotation_text
  = Ok (subseqs', labels', start', annotation_text') ->
  aligned multi_label subseqs labels -> aligned multi_label subseqs' labels'.
Proof.
  intros H Hal. unfold overlap in H.
  destruct (start <? last_loc - skip_end); [|injection H as <- <- _ _; assumption].
  destruct (negb multi_label); [discriminate|].
  apply bind_ok in H as ([[labels1 split_dist] j1] & Hwalk & H).
  apply walk_back_aligned in Hwalk; [|assumption].
  apply bind_ok in H as ([subseqs2 labels2] & Hcut & H).
  destruct annotation_text as [t|]; [|discriminate]. injection H as <- <- _ _.
  destruct (0 <? split_dist); [|injection Hcut as <- <-; assumption].
  apply bind_ok in Hcut as (s & _ & Hcut). apply bind_ok in Hcut as (subseqs3 & Hset & Hcut).
  apply bind_ok in Hcut as (l & Hget & Hcut). apply bind_ok in Hcut as (l' & Hcopy & Hcut).
  injection Hcut as <- <-. destruct Hwalk as [Hlen Hshape]. split.
  - rewrite !insert_length, (setitem_length _ _ _ _ Hset). now f_equal.
  - apply insert_Forall; [assumption|]. apply (copy_plus_shape _ _ _ Hcopy).
    rewrite Forall_forall in Hshape. apply Hshape. eapply getitem_In, Hget.
Qed.

Lemma emit_aligned (label : str) (start end_ : Z) (subseqs : list str)
    (labels : list seg_label) (annotation_text : option str) (st' : s2s_state) :
  emit multi_label iob text label start end_ subseqs labels annotation_text = Ok st' ->
  aligned multi_label subseqs labels ->
  aligned multi_label (doc_subseqs st') (doc_labels st').
Proof.
  intros H [Hlen Hshape]. unfold emit in H.
  destruct (end_ <=? start); [injection H as <-; now split|].
  destruct (negb iob && _); [discriminate|]. injection H as <-. cbn [doc_subseqs doc_labels].
  split.
  - rewrite !length_app. cbn [length]. lia.
  - apply Forall_app. split; [assumption|].
    constructor; [apply label_entry_shape|constructor].
Qed.

Lemma s2s_step_aligned (st st' : s2s_state) (a : @Annotation Conf) :
  s2s_step multi_label none_value subtoken_labels iob text token_starts token_ends st a
  = Ok st' ->
  aligned multi_label (doc_subseqs st) (doc_labels st) ->
  aligned multi_label (doc_subseqs st') (doc_labels st').
Proof.
  intros H Hal. unfold s2s_step in H.
  destruct (round_annotation _ _ _ _ _ _ _) as [start end_].
  pose proof (emit_filler_aligned (last_loc st) start _ _ Hal) as Hfill.
  destruct (emit_filler _ _ _ _ _ _ _) as [subseqs1 labels1]. cbn [fst snd] in Hfill.
  apply bind_ok in H as ([[[subseqs2 labels2] j] skip_end] & Htail & H).
  apply (tail_split_aligned _ _ _ _ _ _ _ _ Htail) in Hfill.
  apply bind_ok in H as ([[[subseqs3 labels3] start3] text3] & Hover & H).
  apply (overlap_aligned _ _ _ _ _ _ _ _ _ _ _ _ _ Hover) in Hfill.
  apply (emit_aligned _ _ _ _ _ _ _ H Hfill).
Qed.

Lemma s2s_loop_aligned (label_seq : list (@Annotation Conf)) (st st' : s2s_state) :
  s2s_loop
    (s2s_step multi_label none_value subtoken_labels iob text token_starts token_ends)
    label_seq st = Ok st' ->
  aligned multi_label (doc_subseqs st) (doc_labels st) ->
  aligned multi_label (doc_subseqs st') (doc_labels st').
Proof.
  revert st. induction label_seq as [|a rest IH]; intros st H Hal; cbn [s2s_loop] in H.
  - now injection H as <-.
  - apply bind_ok in H as (st1 & Hstep & H). apply (IH _ H).
    apply (s2s_step_aligned _ _ _ Hstep Hal).
Qed.

End Aligned.

(** X10. Whenever [indico_to_finetune_sequence] converts a document, its
    segments and its labels are lists of the same length, and every label
    entry has the shape that [multi_label] asks for: a list of one or more
    labels when it is on, a single label when it is off. This holds for
    every text, annotations and flags. *)
Theorem segments_and_labels_aligned {Conf : Type} (NLP : str -> list token)
    (ENCODER_char_locs : str -> list Z) (multi_label : bool) (none_value : str)
    (subtoken_labels iob : bool) (text : str) (annotations : list (@Annotation Conf))
    (subseqs : list str) (labels : list seg_label) :
  indico_to_finetune_doc NLP ENCODER_char_locs multi_label none_value subtoken_labels
    iob text annotations = Ok (subseqs, labels) ->
  length subseqs = length labels /\ Forall (label_shape multi_label) labels.
Proof.
  intros H. unfold indico_to_finetune_doc in H.
  apply bind_ok in H as (st & Hloop & H).
  apply s2s_loop_aligned in Hloop; [|split; [reflexivity|constructor]].
  destruct Hloop as [Hlen Hshape].
  destruct (negb (last_loc st =? len text)); injection H as <- <-; [|now split].
  split.
  - rewrite !length_app. cbn [length]. lia.
  - apply Forall_app. split; [assumption|].
    constructor; [apply filler_shape|constructor].
Qed.

Lemma segments_and_labels_aligned_witness :
  length [lit "Rome "; lit "Paris"; lit " Oslo"; lit " then"]
  = length [Many [lit "X"]; Many [lit "X"; lit "Y"]; Many [lit "Y"]; Many [lit "<PAD>"]]
  /\ Forall (label_shape true)
       [Many [lit "X"]; Many [lit "X"; lit "Y"]; Many [lit "Y"]; Many [lit "<PAD>"]].
Proof.
  apply (segments_and_labels_aligned (Conf := unit) ws_tokens four_char_locs true
           (lit "<PAD>") false false (lit "Rome Paris Oslo then")
           [ann "X" 0 10 "Rome Paris"; ann "Y" 5 15 "Paris Oslo"]).
  reflexivity.
Defined.

(** ** The placeholder of inference time *)

Lemma indico_to_finetune_doc_nil {Conf : Type} (NLP : str -> list token)
    (ENCODER_char_locs : str -> list Z) (multi_label : bool) (none_value : str)
    (subtoken_labels iob : bool) (text : str) :
  indico_to_finetune_doc (Conf := Conf) NLP ENCODER_char_locs multi_label none_value
    subtoken_labels iob text []
  = Ok (match text with [] => [] | _ :: _ => [text] end,
        match text with [] => [] | _ :: _ => [filler multi_label none_value] end).
Proof.
  unfold indico_to_finetune_doc.
  replace (if iob then flat_map (iob_expand ENCODER_char_locs none_value text) []
           else @nil (@Annotation Conf)) with (@nil (@Annotation Conf))
    by now destruct iob.
  cbn [sorted_by_start fold_right s2s_loop bind last_loc doc_subseqs doc_labels app].
  destruct text as [|c text']; [reflexivity|].
  replace (0 =? len (c :: text')) with false
    by (symmetry; apply Z.eqb_neq; unfold len; cbn [length]; lia).
  cbn [negb]. now rewrite slice_all.
Qed.

(** X11. Without labels ([labels=None], the placeholder of inference time)
    [indico_to_finetune_sequence] returns, for every text that is not empty,
    the text as its only segment with the filler as its label, and for an
    empty text no segment at all. *)
Theorem indico_to_finetune_sequence_placeholder {Conf : Type} (NLP : str -> list token)
    (ENCODER_char_locs : str -> list Z) (multi_label : bool) (none_value : str)
    (subtoken_labels iob : bool) (texts : list str) :
  indico_to_finetune_sequence (Conf := Conf) NLP ENCODER_char_locs texts None
    multi_label none_value subtoken_labels iob
  = Ok (map (fun text => match text with [] => [] | _ :: _ => [text] end) texts,
        map (fun text => match text with
                         | [] => []
                         | _ :: _ => [filler multi_label none_value]
                         end) texts).
Proof.
  unfold indico_to_finetune_sequence.
  assert (H : map_result
            (fun '(text, label_seq) =>
               indico_to_finetune_doc (Conf := Conf) NLP ENCODER_char_locs multi_label
                 none_value subtoken_labels iob text label_seq)
            (combine texts (repeat [] (length texts)))
          = Ok (map (fun text =>
                       (match text with [] => [] | _ :: _ => [text] end,
                        match text with
                        | [] => []
                        | _ :: _ => [filler multi_label none_value]
                        end)) texts)).
  { induction texts as [|text texts IH]; [reflexivity|].
    cbn [length repeat combine map_result map].
    rewrite indico_to_finetune_doc_nil. cbn [bind]. now rewrite IH. }
  rewrite H. cbn [bind]. now rewrite !map_map.
Qed.

(** ** Rounding to tokens *)

Lemma mem_In (x : Z) (l : list Z) : mem x l = true <-> In x l.
Proof.
  unfold mem. rewrite existsb_exists. split.
  - intros (y & Hin & Heq). apply Z.eqb_eq in Heq. now subst.
  - intros H. exists x. split; [assumption|apply Z.eqb_refl].
Qed.

Lemma round_start_nearest (token_starts : list Z) (fuel : nat) (start t : Z) :
  In t token_starts -> t <= start -> t <= round_start token_starts fuel start.
Proof.
  revert start. induction fuel as [|fuel IH]; intros start Hin Hle; cbn [round_start];
    [assumption|].
  destruct (0 <? start); cbn [andb]; [|assumption].
  destruct (mem start token_starts) eqn:Hmem; cbn [negb]; [assumption|].
  apply IH; [assumption|]. assert (t <> start); [|lia].
  intros ->. apply mem_In in Hin. congruence.
Qed.

Lemma round_end_nearest (token_ends : list Z) (n : Z) (fuel : nat) (end_ t : Z) :
  In t token_ends -> end_ <= t -> round_end token_ends n fuel end_ <= t.
Proof.
  revert end_. induction fuel as [|fuel IH]; intros end_ Hin Hle; cbn [round_end];
    [assumption|].
  destruct (end_ <? n); cbn [andb]; [|assumption].
  destruct (mem end_ token_ends) eqn:Hmem; cbn [negb]; [assumption|].
  apply IH; [assumption|]. assert (t <> end_); [|lia].
  intros ->. apply mem_In in Hin. congruence.
Qed.

Lemma round_start_nonneg (token_starts : list Z) (fuel : nat) (start : Z) :
  0 <= start -> 0 <= round_start token_starts fuel start.
Proof.
  revert start. induction fuel as [|fuel IH]; intros start H; cbn [round_start];
    [assumption|].
  destruct (Z.ltb_spec 0 start); cbn [andb]; [|assumption].
  destruct (mem start token_starts); cbn [negb]; [assumption|]. apply IH. lia.
Qed.

Lemma round_end_within (token_ends : list Z) (n : Z) (fuel : nat) (end_ : Z) :
  end_ <= n -> round_end token_ends n fuel end_ <= n.
Proof.
  revert end_. induction fuel as [|fuel IH]; intros end_ H; cbn [round_end];
    [assumption|].
  destruct (Z.ltb_spec end_ n); cbn [andb]; [|assumption].
  destruct (mem end_ token_ends); cbn [negb]; [assumption|]. apply IH. lia.
Qed.

Lemma round_annotation_active {Conf : Type} (none_value : str) (text : str)
    (token_starts token_ends : list Z) (a : @Annotation Conf) :
  ann_label a <> none_value ->
  round_annotation none_value false false text token_starts token_ends a
  = (round_start token_starts (Z.to_nat (ann_start a)) (ann_start a),
     round_end token_ends (len text) (Z.to_nat (len text - ann_end a)) (ann_end a)).
Proof.
  intros H. unfold round_annotation. apply str_eqb_neq in H. now rewrite H.
Qed.

(** X12. With [subtoken_labels] and [iob] off, the offsets of an
    annotation that is not labelled with the filler are rounded outwards to
    the nearest token boundaries: the start goes down to the largest token
    start at or below it, or to 0 (or stays, if it is not positive); the end
    goes up to the smallest token end at or above it, or to the end of the
    text (or stays, if it is beyond). *)
Theorem round_annotation_nearest_tokens {Conf : Type} (none_value text : str)
    (token_starts token_ends : list Z) (a : @Annotation Conf) :
  ann_label a <> none_value ->
  let r := round_annotation none_value false false text token_starts token_ends a in
  fst r <= ann_start a
  /\ (fst r <= 0 \/ In (fst r) token_starts)
  /\ (forall t, In t token_starts -> t <= ann_start a -> t <= fst r)
  /\ ann_end a <= snd r
  /\ (len text <= snd r \/ In (snd r) token_ends)
  /\ (forall t, In t token_ends -> ann_end a <= t -> snd r <= t).
Proof.
  intros Hlabel r. unfold r. rewrite round_annotation_active by assumption.
  cbn [fst snd]. repeat split.
  - apply round_start_le.
  - destruct (round_start_exit token_starts (ann_start a)) as [H|H];
      [left; exact H|right; apply mem_In; exact H].
  - intros t. apply round_start_nearest.
  - apply round_end_ge.
  - destruct (round_end_exit token_ends (len text) (ann_end a)) as [H|H];
      [left; exact H|right; apply mem_In; exact H].
  - intros t. apply round_end_nearest.
Qed.

Lemma round_annotation_nearest_tokens_witness :
  let text := lit "in New York City" in
  let a := ann "CITY" 4 9 "ew Yo" in
  let r := round_annotation (lit "<PAD>") false false text
             (token_starts_of (ws_tokens text)) (token_ends_of (ws_tokens text)) a in
  fst r <= ann_start a
  /\ (fst r <= 0 \/ In (fst r) (token_starts_of (ws_tokens text)))
  /\ (forall t, In t (token_starts_of (ws_tokens text)) -> t <= ann_start a -> t <= fst r)
  /\ ann_end a <= snd r
  /\ (len text <= snd r \/ In (snd r) (token_ends_of (ws_tokens text)))
  /\ (forall t, In t (token_ends_of (ws_tokens text)) -> ann_end a <= t -> snd r <= t).
Proof.
  intros text a.
  apply (round_annotation_nearest_tokens (lit "<PAD>") text
           (token_starts_of (ws_tokens text)) (token_ends_of (ws_tokens text)) a).
  discriminate.
Defined.

(** ** The check of the annotation text *)

Section TextCheck.

Context {Conf : Type}.
Variables (multi_label : bool) (none_value : str) (subtoken_labels : bool).
Variables (text : str) (token_starts token_ends : list Z).

Lemma s2s_step_text_mismatch (st : s2s_state) (a : @Annotation Conf) (t : str) :
  let r := round_annotation none_value subtoken_labels false text token_starts
             token_ends a in
  last_loc st <= fst r ->
  fst r < snd r ->
  ann_text a = Some t ->
  t <> slice text (Some (fst r)) (Some (snd r)) ->
  s2s_step multi_label none_value subtoken_labels false text token_starts token_ends st a
  = Raise ValueError.
Proof.
  intros r Hfresh Hlt Ht Hneq. unfold s2s_step. fold r.
  destruct r as [start end_] eqn:Hr. cbn [fst snd] in *.
  destruct (emit_filler _ _ _ _ _ _ _) as [subseqs labels].
  rewrite tail_split_none by lia. cbn [bind].
  rewrite overlap_none by lia. cbn [bind]. unfold emit.
  destruct (Z.leb_spec end_ start); [lia|]. rewrite Ht. cbn [negb andb].
  assert (Hne : str_eqb (slice text (Some start) (Some end_)) t = false).
  { apply str_eqb_neq. congruence. }
  unfold str in *. now rewrite Hne.
Qed.

End TextCheck.

(** X13. With [iob] off, an annotation that does not reach back before
    the end of the previous one, is not empty after rounding and carries a
    [text] other than the text of its (rounded) range stops the conversion
    of the document with a ValueError, whatever follows it. *)
Theorem annotation_text_mismatch {Conf : Type} (multi_label : bool) (none_value : str)
    (subtoken_labels : bool) (text : str) (token_starts token_ends : list Z)
    (st : s2s_state) (a : @Annotation Conf) (rest : list Annotation) (t : str) :
  let r := round_annotation none_value subtoken_labels false text token_starts
             token_ends a in
  last_loc st <= fst r ->
  fst r < snd r ->
  ann_text a = Some t ->
  t <> slice text (Some (fst r)) (Some (snd r)) ->
  s2s_loop
    (s2s_step multi_label none_value subtoken_labels false text token_starts token_ends)
    (a :: rest) st
  = Raise ValueError.
Proof.
  intros r Hfresh Hlt Ht Hneq. cbn [s2s_loop].
  now rewrite (s2s_step_text_mismatch multi_label none_value subtoken_labels text
                 token_starts token_ends st a t).
Qed.

Lemma annotation_text_mismatch_witness :
  s2s_loop
    (s2s_step true (lit "<PAD>") true false (lit "Alice met Bob")
       (token_starts_of (ws_tokens (lit "Alice met Bob")))
       (token_ends_of (ws_tokens (lit "Alice met Bob"))))
    [ann "PERSON" 10 13 "Rob"]
    {| last_loc := 5; doc_subseqs := [lit "Alice"]; doc_labels := [Many [lit "PERSON"]] |}
  = Raise ValueError.
Proof.
  apply (annotation_text_mismatch (Conf := unit) true (lit "<PAD>") true
           (lit "Alice met Bob")
           (token_starts_of (ws_tokens (lit "Alice met Bob")))
           (token_ends_of (ws_tokens (lit "Alice met Bob")))
           {| last_loc := 5; doc_subseqs := [lit "Alice"];
              doc_labels := [Many [lit "PERSON"]] |}
           (ann "PERSON" 10 13 "Rob") [] (lit "Rob"));
    [vm_compute; discriminate | reflexivity | reflexivity | vm_compute; discriminate].
Defined.

(** X14. With [subtoken_labels] and [iob] off, a document whose only
    annotation lies within the text, is not empty, is not labelled with the
    filler, carries exactly the text of its range, but does not start or
    end at a token boundary, is refused with a ValueError: the text is
    compared with the range after rounding. *)
Theorem unaligned_annotation_rejected {Conf : Type} (NLP : str -> list token)
    (ENCODER_char_locs : str -> list Z) (multi_label : bool) (none_value text : str)
    (a : @Annotation Conf) :
  ann_label a <> none_value ->
  0 <= ann_start a -> ann_start a < ann_end a -> ann_end a <= len text ->
  ann_text a = Some (slice text (Some (ann_start a)) (Some (ann_end a))) ->
  (0 < ann_start a /\ ~ In (ann_start a) (token_starts_of (NLP text)))
  \/ (ann_end a < len text /\ ~ In (ann_end a) (token_ends_of (NLP text))) ->
  indico_to_finetune_doc NLP ENCODER_char_locs multi_label none_value false false
    text [a]
  = Raise ValueError.
Proof.
  intros Hlabel H0 Hlt Hend Htext Hoff. unfold indico_to_finetune_doc.
  cbn [sorted_by_start fold_right insert_by_start].
  set (token_starts := token_starts_of (NLP text)) in *.
  set (token_ends := token_ends_of (NLP text)) in *.
  cbn [s2s_loop].
  rewrite (s2s_step_text_mismatch multi_label none_value false text token_starts
             token_ends _ a
             (slice text (Some (ann_start a)) (Some (ann_end a)))); [reflexivity| | | |];
    try rewrite round_annotation_active by assumption; cbn [fst snd last_loc].
  - now apply round_start_nonneg.
  - pose proof (round_start_le token_starts (Z.to_nat (ann_start a)) (ann_start a)).
    pose proof (round_end_ge token_ends (len text) (Z.to_nat (len text - ann_end a))
                  (ann_end a)).
    lia.
  - exact Htext.
  - set (s := round_start token_starts (Z.to_nat (ann_start a)) (ann_start a)).
    set (e := round_end token_ends (len text) (Z.to_nat (len text - ann_end a))
                (ann_end a)).
    assert (Hs0 : 0 <= s) by now apply round_start_nonneg.
    assert (Hs1 : s <= ann_start a) by apply round_start_le.
    assert (He0 : ann_end a <= e) by apply round_end_ge.
    assert (He1 : e <= len text) by now apply round_end_within.
    assert (Hmoved : s < ann_start a \/ ann_end a < e).
    { destruct Hoff as [[Hpos Hout]|[Hin Hout]].
      - left. destruct (round_start_exit token_starts (ann_start a)) as [H|H];
          fold s in H; [lia|].
        apply mem_In in H. assert (s <> ann_start a) by congruence. lia.
      - right. destruct (round_end_exit token_ends (len text) (ann_end a)) as [H|H];
          fold e in H; [lia|].
        apply mem_In in H. assert (e <> ann_end a) by congruence. lia. }
    intros Heq. apply (f_equal len) in Heq. rewrite !len_slice in Heq by lia. lia.
Qed.

Lemma unaligned_annotation_rejected_witness :
  indico_to_finetune_doc (Conf := unit) ws_tokens four_char_locs true (lit "<PAD>")
    false false (lit "New York") [ann "CITY" 0 2 "Ne"]
  = Raise ValueError.
Proof.
  apply (unaligned_annotation_rejected (Conf := unit) ws_tokens four_char_locs true
           (lit "<PAD>") (lit "New York") (ann "CITY" 0 2 "Ne"));
    [discriminate | cbn; lia | cbn; lia | vm_compute; discriminate | reflexivity |].
  right. split; [vm_compute; reflexivity|].
  vm_compute. intros [H|[H|[]]]; discriminate.
Defined.

(** ** The order of the annotations *)

Lemma insert_by_start_sorted {Conf : Type} (a : @Annotation Conf) (l : list Annotation) :
  StronglySorted starts_in_order l -> StronglySorted starts_in_order (insert_by_start a l).
Proof.
  induction 1 as [|b l Hsorted IH Hb]; cbn [insert_by_start].
  - constructor; constructor.
  - destruct (Z.leb_spec (ann_start a) (ann_start b)) as [Hle|Hgt].
    + constructor; [now constructor|]. constructor; [exact Hle|].
      eapply Forall_impl; [|exact Hb]. unfold starts_in_order. intros c Hc. lia.
    + constructor; [exact IH|].
      eapply Permutation_Forall; [symmetry; apply insert_by_start_perm|].
      constructor; [unfold starts_in_order; lia|exact Hb].
Qed.

Lemma sorted_by_start_sorted {Conf : Type} (l : list (@Annotation Conf)) :
  StronglySorted starts_in_order (sorted_by_start l).
Proof.
  induction l as [|a l IH]; [constructor|].
  cbn [sorted_by_start fold_right]. now apply insert_by_start_sorted.
Qed.

(** Two sorted lists with the same elements, no two of which have the same
    [start], are the same list. *)
Lemma sorted_unique {Conf : Type} (l1 l2 : list (@Annotation Conf)) :
  StronglySorted starts_in_order l1 -> StronglySorted starts_in_order l2 ->
  Permutation l1 l2 -> NoDup (map ann_start l1) -> l1 = l2.
Proof.
  intros H1. revert l2. induction H1 as [|a l1 Hs1 IH Ha]; intros l2 H2 Hperm Hnodup.
  - apply Permutation_nil in Hperm. now subst.
  - destruct H2 as [|b l2 Hs2 Hb].
    { symmetry in Hperm. apply Permutation_nil in Hperm. discriminate. }
    assert (Hab : a = b).
    { assert (Hin_a : In a (b :: l2)).
      { eapply Permutation_in; [exact Hperm|now left]. }
      assert (Hin_b : In b (a :: l1)).
      { eapply Permutation_in; [symmetry; exact Hperm|now left]. }
      destruct Hin_b as [Heq|Hin_b]; [assumption|].
      destruct Hin_a as [Heq|Hin_a]; [now symmetry|]. exfalso.
      rewrite Forall_forall in Ha, Hb. specialize (Ha _ Hin_b). specialize (Hb _ Hin_a).
      unfold starts_in_order in *. cbn [map] in Hnodup. inversion Hnodup as [|? ? Hnot _].
      apply Hnot. replace (ann_start a) with (ann_start b) by lia. now apply in_map. }
    subst b. f_equal. apply IH; [assumption| |].
    + eapply Permutation_cons_inv, Hperm.
    + cbn [map] in Hnodup. now inversion Hnodup.
Qed.

(** X15. With [iob] off, the order in which the annotations of a document
    are listed does not matter when no two of them have the same [start]:
    the document is converted to the same segments and labels, or fails with
    the same exception. *)
Theorem annotation_order_irrelevant {Conf : Type} (NLP : str -> list token)
    (ENCODER_char_locs : str -> list Z) (multi_label : bool) (none_value : str)
    (subtoken_labels : bool) (text : str)
    (annotations annotations' : list (@Annotation Conf)) :
  Permutation annotations annotations' ->
  NoDup (map ann_start annotations) ->
  indico_to_finetune_doc NLP ENCODER_char_locs multi_label none_value subtoken_labels
    false text annotations
  = indico_to_finetune_doc NLP ENCODER_char_locs multi_label none_value subtoken_labels
      false text annotations'.
Proof.
  intros Hperm Hnodup. unfold indico_to_finetune_doc.
  replace (sorted_by_start annotations') with (sorted_by_start annotations); [reflexivity|].
  apply sorted_unique; try apply sorted_by_start_sorted.
  - rewrite sorted_by_start_perm, Hperm. symmetry. apply sorted_by_start_perm.
  - eapply Permutation_NoDup; [|exact Hnodup].
    apply Permutation_map. symmetry. apply sorted_by_start_perm.
Qed.

Lemma annotation_order_irrelevant_witness :
  indico_to_finetune_doc (Conf := unit) ws_tokens four_char_locs true (lit "<PAD>")
    false false (lit "Alice met Bob") [ann "PERSON" 0 5 "Alice"; ann "PERSON" 10 13 "Bob"]
  = indico_to_finetune_doc (Conf := unit) ws_tokens four_char_locs true (lit "<PAD>")
      false false (lit "Alice met Bob") [ann "PERSON" 10 13 "Bob"; ann "PERSON" 0 5 "Alice"].
Proof.
  apply (annotation_order_irrelevant (Conf := unit) ws_tokens four_char_locs true
           (lit "<PAD>") false (lit "Alice met Bob")
           [ann "PERSON" 0 5 "Alice"; ann "PERSON" 10 13 "Bob"]
           [ann "PERSON" 10 13 "Bob"; ann "PERSON" 0 5 "Alice"]).
  - apply perm_swap.
  - cbn. constructor; [intros [H|[]]; discriminate|]. constructor; [intros []|constructor].
Defined.

(** ** Coverage with rounding *)

Section Rounded.

Context {Conf : Type}.
Variables (multi_label : bool) (none_value : str) (subtoken_labels : bool).
Variables (text : str) (token_starts token_ends : list Z).

(** The loop body reads the offsets of an annotation only through the
    rounding. *)
Lemma s2s_step_rounded (st : s2s_state) (a : @Annotation Conf) :
  s2s_step multi_label none_value subtoken_labels false text token_starts token_ends st a
  = s2s_step multi_label none_value true false text token_starts token_ends st
      (rounded none_value subtoken_labels false text token_starts token_ends a).
Proof.
  unfold s2s_step.
  replace (round_annotation none_value true false text token_starts token_ends
             (rounded none_value subtoken_labels false text token_starts token_ends a))
    with (round_annotation none_value subtoken_labels false text token_starts
            token_ends a); [reflexivity|].
  unfold rounded. now destruct (round_annotation _ _ _ _ _ _ a).
Qed.

Lemma s2s_loop_rounded (label_seq : list (@Annotation Conf)) (st : s2s_state) :
  s2s_loop
    (s2s_step multi_label none_value subtoken_labels false text token_starts token_ends)
    label_seq st
  = s2s_loop
      (s2s_step multi_label none_value true false text token_starts token_ends)
      (map (rounded none_value subtoken_labels false text token_starts token_ends)
         label_seq) st.
Proof.
  revert st. induction label_seq as [|a rest IH]; intros st; [reflexivity|].
  cbn [s2s_loop map]. rewrite s2s_step_rounded.
  destruct (s2s_step _ _ _ _ _ _ _ _ _) as [st'|e]; cbn [bind]; [apply IH|reflexivity].
Qed.

End Rounded.

(** X16. With [iob] off, when the annotations of a document, taken in the
    order of their [start] and with their offsets rounded as
    [subtoken_labels] asks, lie within the text, are not empty, do not
    overlap and have the text of their range if they have a text, the
    document is converted without an exception and its segments, put
    together, are the text. *)
Theorem coverage_after_rounding {Conf : Type} (NLP : str -> list token)
    (ENCODER_char_locs : str -> list Z) (multi_label : bool) (none_value : str)
    (subtoken_labels : bool) (text : str) (annotations : list (@Annotation Conf)) :
  disjoint text 0
    (map (rounded none_value subtoken_labels false text (token_starts_of (NLP text))
            (token_ends_of (NLP text)))
       (sorted_by_start annotations)) ->
  exists subseqs labels,
    indico_to_finetune_doc NLP ENCODER_char_locs multi_label none_value subtoken_labels
      false text annotations
    = Ok (subseqs, labels)
    /\ concat subseqs = text.
Proof.
  intros Hdis. unfold indico_to_finetune_doc.
  set (token_starts := token_starts_of (NLP text)) in *.
  set (token_ends := token_ends_of (NLP text)) in *.
  set (l := map _ (sorted_by_start annotations)) in *.
  rewrite s2s_loop_rounded. fold l.
  rewrite s2s_loop_disjoint by exact Hdis.
  cbn [bind last_loc doc_subseqs doc_labels app].
  pose proof (disjoint_final_loc text l 0 Hdis (len_nonneg text)) as Hloc.
  pose proof (concat_labelled_segments none_value text l 0 ltac:(lia) Hdis) as Hcat.
  destruct (Z.eqb_spec (final_loc 0 l) (len text)) as [E|E];
    cbn [negb]; do 2 eexists; (split; [reflexivity|]).
  - rewrite Hcat, E, <- slice_to_end by lia. apply slice_all.
  - rewrite concat_app, Hcat. cbn [concat]. rewrite app_nil_r.
    rewrite slice_to_end by lia. rewrite slice_app by lia.
    rewrite <- slice_to_end by lia. apply slice_all.
Qed.

Lemma coverage_after_rounding_witness :
  exists subseqs labels,
    indico_to_finetune_doc (Conf := unit) ws_tokens four_char_locs true (lit "<PAD>")
      false false (lit "Alice met Bob in Paris")
      [ {| ann_start := 18; ann_end := 20; ann_label := lit "CITY"; ann_text := None;
           ann_confidence := None |};
        ann "PERSON" 0 5 "Alice" ]
    = Ok (subseqs, labels)
    /\ concat subseqs = lit "Alice met Bob in Paris".
Proof.
  apply (coverage_after_rounding (Conf := unit) ws_tokens four_char_locs true
           (lit "<PAD>") false (lit "Alice met Bob in Paris")).
  vm_compute. repeat split; try discriminate; auto.
Defined.

(** ** What the way back returns *)

Section Returned.

Context {Conf : Type}.
Variables (none_value : str) (subtoken_predictions iob : bool) (raw_text : str).
Variables (token_starts token_ends : list Z).

Variable P : @Annotation Conf -> Prop.

Lemma scan_open_subset (label : str) (start : Z) (new_label : option str)
    (items : list (@Annotation Conf)) (new_label' : option str) (start' : Z)
    (items' : list (@Annotation Conf)) :
  scan_open iob none_value label start new_label items = Ok (new_label', start', items') ->
  forall item, In item items' -> In item items.
Proof.
  revert new_label new_label' start' items'.
  induction items as [|item0 rest IH]; intros new_label new_label' start' items' H;
    cbn [scan_open] in H.
  - injection H as _ _ <-. auto.
  - apply bind_ok in H as ([join nl] & _ & H).
    destruct (join && _).
    + injection H as _ _ <-. intros item Hin. now right.
    + apply bind_ok in H as ([[nl2 start2] rest2] & Hscan & H). injection H as _ _ <-.
      intros item [<-|Hin]; [now left|right]. eapply IH; eassumption.
Qed.

Lemma scan_open_label (label : str) (start : Z) (new_label : option str)
    (items : list (@Annotation Conf)) (new_label' : option str) (start' : Z)
    (items' : list (@Annotation Conf)) :
  iob = false ->
  scan_open iob none_value label start new_label items = Ok (new_label', start', items') ->
  new_label = None \/ new_label = Some label ->
  new_label' = None \/ new_label' = Some label.
Proof.
  intros -> H Hnl. now apply (scan_open_remains _ _ _ _ _ _ _ _ H Hnl).
Qed.

Lemma f2i_label_step_Forall (multi_label : bool) (sub_str : str)
    (confidences : option Conf) (st st' : f2i_state) (label : str) :
  built_with none_value subtoken_predictions iob raw_text token_starts token_ends P
    label ->
  f2i_label_step none_value subtoken_predictions iob raw_text token_starts token_ends
    multi_label sub_str confidences st label = Ok st' ->
  Forall P (doc_annotations st) -> Forall P (doc_annotations st').
Proof.
  intros Hbuilt H Hall. unfold f2i_label_step in H.
  apply bind_ok in H as ([[nl start] open] & Hscan & H).
  assert (Hopen : Forall P open
                  /\ (iob = false -> label <> none_value -> nl = None \/ nl = Some label)).
  { destruct (negb (str_eqb label none_value)).
    - split.
      + rewrite Forall_forall in *. intros item Hin. apply Hall.
        eapply scan_open_subset; eassumption.
      + intros Hiob _. eapply scan_open_label; [exact Hiob|exact Hscan|now left].
    - injection Hscan as <- _ <-. split; [assumption|now left]. }
  destruct Hopen as [Hopen Hnl].
  apply bind_ok in H as (nl2 & Hnl2 & H).
  assert (Hnl' : iob = false -> label <> none_value -> nl2 = None \/ nl2 = Some label).
  { intros Hiob Hne. rewrite Hiob in Hnl2. cbn [andb] in Hnl2. injection Hnl2 as <-. auto. }
  destruct (start =? -1); [injection H as <-; exact Hopen|].
  apply bind_ok in H as ([[[si ei] s] e] & Hround & H).
  destruct (negb (str_eqb label none_value)) eqn:Hlabel;
    [|injection H as <-; exact Hopen].
  assert (Htok : subtoken_predictions = false -> iob = false ->
                 In s token_starts /\ In e token_ends).
  { intros Hsub Hiob. rewrite Hsub, Hiob in Hround. cbn [negb andb orb] in Hround.
    destruct (if multi_label then (0, 0) else (start_idx st, end_idx st)) as [si0 ei0].
    apply bind_ok in Hround as (si1 & _ & Hround).
    apply bind_ok in Hround as (s1 & Hs & Hround).
    apply bind_ok in Hround as (ei1 & _ & Hround).
    apply bind_ok in Hround as (e1 & He & Hround). injection Hround as _ _ <- <-.
    split; eapply getitem_In; eassumption. }
  destruct (negb (in_ranges _ _)); injection H as <-; cbn [doc_annotations];
    [|exact Hopen].
  apply Forall_app. split; [exact Hopen|]. constructor; [|constructor].
  apply negb_true_iff, str_eqb_neq in Hlabel. apply Hbuilt; auto.
Qed.

Lemma f2i_labels_Forall (multi_label : bool) (sub_str : str)
    (confidences : option Conf) (label_list : list str) (st st' : f2i_state) :
  Forall (built_with none_value subtoken_predictions iob raw_text token_starts
            token_ends P) label_list ->
  f2i_labels
    (f2i_label_step none_value subtoken_predictions iob raw_text token_starts token_ends
       multi_label sub_str confidences) label_list st = Ok st' ->
  Forall P (doc_annotations st) -> Forall P (doc_annotations st').
Proof.
  intros Hbuilt. revert st. induction Hbuilt as [|label rest Hl _ IH]; intros st H Hall;
    cbn [f2i_labels] in H.
  - now injection H as <-.
  - apply bind_ok in H as (st1 & Hstep & H). apply (IH _ H).
    eapply f2i_label_step_Forall; eassumption.
Qed.

Lemma f2i_loop_Forall (segs : list (str * raw_label * option Conf))
    (st st' : f2i_state) :
  Forall (fun seg =>
            Forall (built_with none_value subtoken_predictions iob raw_text
                      token_starts token_ends P)
              (labels_of (snd (fst seg)))) segs ->
  f2i_loop
    (f2i_segment_step none_value subtoken_predictions iob raw_text token_starts
       token_ends) segs st = Ok st' ->
  Forall P (doc_annotations st) -> Forall P (doc_annotations st').
Proof.
  intros Hbuilt. revert st. induction Hbuilt as [|seg rest Hseg _ IH]; intros st H Hall;
    cbn [f2i_loop] in H.
  - now injection H as <-.
  - apply bind_ok in H as (st1 & Hstep & H). apply (IH _ H).
    destruct seg as [[sub_str raw] confidences]. unfold f2i_segment_step in Hstep.
    cbn [fst snd] in Hseg.
    destruct raw as [l|ls|ls]; cbn [labels_of] in Hseg;
      try (eapply f2i_labels_Forall; eassumption).
    apply f2i_list_label_step_open in Hstep as [-> _]. exact Hall.
Qed.

End Returned.

Lemma strip_iob_tag_range {Conf : Type} (doc : @Annotation Conf) :
  ann_start (strip_iob_tag doc) = ann_start doc
  /\ ann_end (strip_iob_tag doc) = ann_end doc
  /\ ann_text (strip_iob_tag doc) = ann_text doc.
Proof. unfold strip_iob_tag. now destruct (is_iob_tagged (ann_label doc)). Qed.

(** X17. The annotations that [finetune_to_indico_sequence] returns for a
    document are in the order of their [start], and the [text] of each is
    the text of the document between its [start] and its [end]. This holds
    for every input and every setting of the flags. *)
Theorem returned_annotations_sorted_with_text {Conf : Type} (NLP : str -> list token)
    (none_value : str) (subtoken_predictions iob : bool) (raw_text : str)
    (doc_seq : list str) (label_seq : list raw_label) (prob_seq : option (list Conf))
    (annotations : list Annotation) (warned : list str) :
  finetune_to_indico_doc NLP none_value subtoken_predictions iob raw_text
    doc_seq label_seq prob_seq = Ok (annotations, warned) ->
  StronglySorted starts_in_order annotations
  /\ Forall (fun a => ann_text a
                      = Some (slice raw_text (Some (ann_start a)) (Some (ann_end a))))
       annotations.
Proof.
  intros H. unfold finetune_to_indico_doc in H.
  apply bind_ok in H as (st & Hloop & H). injection H as <- _.
  split; [apply sorted_by_start_sorted|].
  eapply Permutation_Forall; [symmetry; apply sorted_by_start_perm|].
  set (P := fun a : @Annotation Conf =>
              ann_text a = Some (slice raw_text (Some (ann_start a)) (Some (ann_end a)))).
  assert (Hall : Forall P (doc_annotations st)).
  { eapply (f2i_loop_Forall none_value subtoken_predictions iob raw_text _ _ P);
      [|exact Hloop|constructor].
    apply Forall_forall. intros seg _. apply Forall_forall. intros label _.
    intros s e nl conf _ _ _. reflexivity. }
  destruct iob; [|exact Hall].
  apply Forall_map. eapply Forall_impl; [|exact Hall].
  intros a Ha. unfold P in *.
  destruct (strip_iob_tag_range a) as (-> & -> & ->). exact Ha.
Qed.

Lemma returned_annotations_sorted_with_text_witness :
  StronglySorted starts_in_order [ann "CITY" 0 8 "New York"]
  /\ Forall (fun a => ann_text a
                      = Some (slice (lit "New York is big") (Some (ann_start a))
                                (Some (ann_end a))))
       [ann "CITY" 0 8 "New York"].
Proof.
  apply (returned_annotations_sorted_with_text (Conf := unit) ws_tokens (lit "<PAD>")
           false false (lit "New York is big") [lit "New "; lit "York"; lit " is big"]
           [Single (lit "CITY"); Single (lit "CITY"); Single (lit "<PAD>")] None
           [ann "CITY" 0 8 "New York"] []).
  reflexivity.
Defined.

(** X18. With [iob] off, every annotation that [finetune_to_indico_sequence]
    returns for a document carries a label that is one of the labels given
    for the segments of the document, and never the filler. *)
Theorem returned_labels_from_input {Conf : Type} (NLP : str -> list token)
    (none_value : str) (subtoken_predictions : bool) (raw_text : str)
    (doc_seq : list str) (label_seq : list raw_label) (prob_seq : option (list Conf))
    (annotations : list Annotation) (warned : list str) :
  finetune_to_indico_doc NLP none_value subtoken_predictions false raw_text
    doc_seq label_seq prob_seq = Ok (annotations, warned) ->
  Forall (fun a => ann_label a <> none_value
                   /\ exists raw, In raw label_seq /\ In (ann_label a) (labels_of raw))
    annotations.
Proof.
  intros H. unfold finetune_to_indico_doc in H.
  apply bind_ok in H as (st & Hloop & H). injection H as <- _.
  eapply Permutation_Forall; [symmetry; apply sorted_by_start_perm|].
  eapply (f2i_loop_Forall none_value subtoken_predictions false raw_text _ _ _);
    [|exact Hloop|constructor].
  apply (zip_segments_labels
           (fun raw => Forall _ (labels_of raw))).
  apply Forall_forall. intros raw Hraw. apply Forall_forall. intros label Hlabel.
  intros s e nl conf Hnl _ Hne. cbn [ann_label].
  rewrite or_str_same by now apply Hnl. split; [exact Hne|]. now exists raw.
Qed.

Lemma returned_labels_from_input_witness :
  Forall (fun a => ann_label a <> lit "<PAD>"
                   /\ exists raw,
                       In raw [Single (lit "CITY"); Single (lit "CITY"); Single (lit "<PAD>")]
                       /\ In (ann_label a) (labels_of raw))
    [ann "CITY" 0 8 "New York"].
Proof.
  apply (returned_labels_from_input (Conf := unit) ws_tokens (lit "<PAD>")
           false (lit "New York is big") [lit "New "; lit "York"; lit " is big"]
           [Single (lit "CITY"); Single (lit "CITY"); Single (lit "<PAD>")] None
           [ann "CITY" 0 8 "New York"] []).
  reflexivity.
Defined.

(** X19. With [iob] off, no two annotations that
    [finetune_to_indico_sequence] returns for a document have the same
    [start], [end] and [label]. *)
Theorem returned_triples_distinct {Conf : Type} (NLP : str -> list token)
    (none_value : str) (subtoken_predictions : bool) (raw_text : str)
    (doc_seq : list str) (label_seq : list raw_label) (prob_seq : option (list Conf))
    (annotations : list Annotation) (warned : list str) :
  finetune_to_indico_doc NLP none_value subtoken_predictions false raw_text
    doc_seq label_seq prob_seq = Ok (annotations, warned) ->
  NoDup (map triple annotations).
Proof.
  apply no_duplicate_without_iob.
Qed.

Lemma returned_triples_distinct_witness :
  NoDup (map triple [ann "CITY" 0 8 "New York"]).
Proof.
  apply (returned_triples_distinct (Conf := unit) ws_tokens (lit "<PAD>") false
           (lit "New York is big") [lit "New "; lit "York"; lit " is big"]
           [Single (lit "CITY"); Single (lit "CITY"); Single (lit "<PAD>")] None
           [ann "CITY" 0 8 "New York"] []).
  reflexivity.
Defined.

(** ** After a failed lookup *)

Lemma startswith_short (s sub : str) :
  (length s < length sub)%nat -> startswith s sub = false.
Proof.
  revert s. induction sub as [|y sub IH]; intros s H; [cbn in H; lia|].
  destruct s as [|x s]; [reflexivity|]. cbn [startswith]. cbn [length] in H.
  rewrite IH by lia. apply andb_false_r.
Qed.

Lemma find_from_short (s sub : str) (pos : Z) :
  (length s < length sub)%nat -> find_from s sub pos = -1.
Proof.
  revert pos. induction s as [|x s IH]; intros pos H.
  - cbn [find_from]. now rewrite startswith_short.
  - cbn [find_from]. rewrite startswith_short by assumption.
    apply IH. cbn [length] in H. lia.
Qed.

(** From the offset -1 [find] looks at the last character only. *)
Lemma find_minus_one (s sub : str) : 2 <= len sub -> find s sub (-1) = -1.
Proof.
  intros H. unfold find. cbn [Z.ltb Z.compare].
  pose proof (len_nonneg s) as Hn.
  destruct (Z.ltb_spec (len s) (Z.max 0 (-1 + len s))); [reflexivity|].
  apply find_from_short. rewrite length_skipn. unfold len in *. lia.
Qed.

Lemma f2i_labels_miss {Conf : Type} (none_value : str) (subtoken_predictions : bool)
    (raw_text : str) (token_starts token_ends : list Z) (multi_label : bool)
    (sub_str : str) (confidences : option Conf) (label_list : list str)
    (open : list Annotation) (ranges : list (Z * Z * str)) (si ei : Z)
    (warned : list str) :
  2 <= len (strip sub_str) ->
  Forall (fun label => label = none_value
                       \/ forall item, In item open -> ann_label item <> label)
    label_list ->
  f2i_labels
    (f2i_label_step none_value subtoken_predictions false raw_text token_starts
       token_ends multi_label sub_str confidences) label_list
    {| doc_annotations := open; annotation_ranges := ranges; start_idx := si;
       end_idx := ei; raw_annotation_start := -1; warnings := warned |}
  = Ok {| doc_annotations := open; annotation_ranges := ranges; start_idx := si;
          end_idx := ei; raw_annotation_start := -1;
          warnings := warned ++ map (fun _ => warning_message (strip sub_str)) label_list |}.
Proof.
  intros Hlen Hall. revert warned.
  induction Hall as [|label rest Hlabel _ IH]; intros warned; cbn [f2i_labels map].
  - now rewrite app_nil_r.
  - rewrite f2i_label_step_miss;
      [|cbn [raw_annotation_start]; now apply find_minus_one|exact Hlabel].
    cbn [bind doc_annotations annotation_ranges start_idx end_idx warnings].
    rewrite IH. now rewrite <- app_assoc.
Qed.

Lemma map_const_repeat {A B : Type} (y : B) (l : list A) :
  map (fun _ => y) l = repeat y (length l).
Proof. induction l as [|x l IH]; [reflexivity|]. cbn. now rewrite IH. Qed.

(** X20. With [iob] off, once a lookup has failed (the search offset is
    -1), every later segment of two or more characters after [strip] fails
    too, whether or not its text occurs in the document, as long as none of
    its labels is the label of an annotation still open for joining: each
    label (a string, a label of a tuple, or a list) gives a warning, and no
    annotation is added or changed. *)
Theorem lookup_miss_cascade {Conf : Type} (none_value : str)
    (subtoken_predictions : bool) (raw_text : str) (token_starts token_ends : list Z)
    (segs : list (str * raw_label * option Conf)) (st : f2i_state) :
  raw_annotation_start st = -1 ->
  Forall (fun seg =>
            2 <= len (strip (fst (fst seg)))
            /\ Forall (fun label =>
                         label = none_value
                         \/ forall item, In item (doc_annotations st) ->
                                         ann_label item <> label)
                 (labels_of (snd (fst seg)))) segs ->
  f2i_loop
    (f2i_segment_step none_value subtoken_predictions false raw_text token_starts
       token_ends) segs st
  = Ok {| doc_annotations := doc_annotations st;
          annotation_ranges := annotation_ranges st;
          start_idx := start_idx st;
          end_idx := end_idx st;
          raw_annotation_start := -1;
          warnings :=
            warnings st
            ++ flat_map (fun seg => repeat (warning_message (strip (fst (fst seg))))
                                      (label_count (snd (fst seg)))) segs |}.
Proof.
  destruct st as [open ranges si ei cursor warned].
  cbn [raw_annotation_start doc_annotations annotation_ranges start_idx end_idx warnings].
  intros -> Hall. revert warned.
  induction Hall as [|seg rest [Hlen Hlabels] _ IH]; intros warned;
    cbn [f2i_loop flat_map].
  - now rewrite app_nil_r.
  - destruct seg as [[sub_str raw] confidences]. cbn [fst snd] in *.
    unfold f2i_segment_step.
    destruct raw as [l|ls|ls]; cbn [labels_of label_count] in *.
    + rewrite f2i_labels_miss by assumption. cbn [bind map repeat]. rewrite IH.
      now rewrite <- app_assoc.
    + rewrite f2i_labels_miss by assumption. cbn [bind]. rewrite IH.
      now rewrite map_const_repeat, <- app_assoc.
    + unfold f2i_list_label_step. cbn [raw_annotation_start].
      rewrite find_minus_one by assumption.
      cbn [Z.eqb Pos.eqb bind doc_annotations annotation_ranges start_idx end_idx
           warnings repeat].
      rewrite IH. now rewrite <- app_assoc.
Qed.

Lemma lookup_miss_cascade_witness :
  f2i_loop
    (f2i_segment_step (Conf := unit) (lit "<PAD>") false false (lit "New York is big")
       (token_starts_of (ws_tokens (lit "New York is big")))
       (token_ends_of (ws_tokens (lit "New York is big"))))
    [(lit "York", Single (lit "CITY"), None); (lit " is big", Single (lit "<PAD>"), None)]
    {| doc_annotations := []; annotation_ranges := []; start_idx := 0; end_idx := 0;
       raw_annotation_start := -1; warnings := [warning_message (lit "Nwe")] |}
  = Ok {| doc_annotations := []; annotation_ranges := []; start_idx := 0; end_idx := 0;
          raw_annotation_start := -1;
          warnings := [warning_message (lit "Nwe"); warning_message (lit "York");
                       warning_message (lit "is big")] |}.
Proof.
  apply (lookup_miss_cascade (Conf := unit) (lit "<PAD>") false (lit "New York is big")
           (token_starts_of (ws_tokens (lit "New York is big")))
           (token_ends_of (ws_tokens (lit "New York is big")))
           [(lit "York", Single (lit "CITY"), None);
            (lit " is big", Single (lit "<PAD>"), None)]
           {| doc_annotations := []; annotation_ranges := []; start_idx := 0;
              end_idx := 0; raw_annotation_start := -1;
              warnings := [warning_message (lit "Nwe")] |}).
  - reflexivity.
  - constructor; [split; [vm_compute; discriminate|]|constructor; [split|constructor]].
    + constructor; [right; intros item []|constructor].
    + vm_compute; discriminate.
    + constructor; [now left|constructor].
Defined.

(** ** Batches of documents *)

Lemma map_result_length {A B : Type} (f : A -> result B) (l : list A) (ys : list B) :
  map_result f l = Ok ys -> length ys = length l.
Proof.
  revert ys. induction l as [|x l IH]; intros ys H; cbn [map_result] in H.
  - now injection H as <-.
  - apply bind_ok in H as (y & _ & H). apply bind_ok in H as (ys' & Hys & H).
    injection H as <-. cbn [length]. f_equal. now apply IH.
Qed.

(** X21. [finetune_to_indico_sequence] without [probs] converts as many
    documents as the shortest of [raw_texts], [subseqs] and [labels] has
    entries, but returns [raw_texts] as it was given: when the lists differ
    in length, the texts and the annotations returned no longer pair up. *)
Theorem finetune_to_indico_sequence_shape {Conf : Type} (NLP : str -> list token)
    (raw_texts : list str) (subseqs : list (list str)) (labels : list (list raw_label))
    (none_value : str) (subtoken_predictions iob : bool)
    (texts : list str) (annotations : list (list (@Annotation Conf))) (warned : list str) :
  finetune_to_indico_sequence NLP raw_texts subseqs labels None none_value
    subtoken_predictions iob = Ok (texts, annotations, warned) ->
  texts = raw_texts
  /\ length annotations
     = Nat.min (length raw_texts) (Nat.min (length subseqs) (length labels)).
Proof.
  intros H. unfold finetune_to_indico_sequence in H.
  apply bind_ok in H as (docs & Hdocs & H). injection H as <- <- _.
  split; [reflexivity|]. apply map_result_length in Hdocs.
  rewrite length_map, Hdocs, !length_combine, repeat_length. lia.
Qed.

Lemma finetune_to_indico_sequence_shape_witness :
  [lit "Paris"; lit "Oslo"] = [lit "Paris"; lit "Oslo"]
  /\ length [[ann "CITY" 0 5 "Paris"]]
     = Nat.min (length [lit "Paris"; lit "Oslo"])
         (Nat.min (length [[lit "Paris"]]) (length [[Single (lit "CITY")]])).
Proof.
  apply (finetune_to_indico_sequence_shape (Conf := unit) ws_tokens
           [lit "Paris"; lit "Oslo"] [[lit "Paris"]] [[Single (lit "CITY")]]
           (lit "<PAD>") false false
           [lit "Paris"; lit "Oslo"] [[ann "CITY" 0 5 "Paris"]] []).
  reflexivity.
Defined.

(** X22. Without [subtoken_predictions] and [iob], every annotation that
    [finetune_to_indico_sequence] returns for a document starts where a token
    of the document starts and ends where a token ends. *)
Theorem returned_annotations_on_tokens {Conf : Type} (NLP : str -> list token)
    (none_value raw_text : str) (doc_seq : list str) (label_seq : list raw_label)
    (prob_seq : option (list Conf)) (annotations : list Annotation) (warned : list str) :
  finetune_to_indico_doc NLP none_value false false raw_text doc_seq label_seq prob_seq
  = Ok (annotations, warned) ->
  Forall (fun a => In (ann_start a) (token_starts_of (NLP raw_text))
                   /\ In (ann_end a) (token_ends_of (NLP raw_text)))
    annotations.
Proof.
  intros H. unfold finetune_to_indico_doc in H.
  apply bind_ok in H as (st & Hloop & H). injection H as <- _.
  eapply Permutation_Forall; [symmetry; apply sorted_by_start_perm|].
  eapply (f2i_loop_Forall none_value false false raw_text _ _ _);
    [|exact Hloop|constructor].
  apply Forall_forall. intros seg _. apply Forall_forall. intros label _.
  intros s e nl conf _ Htok _. cbn [ann_start ann_end]. now apply Htok.
Qed.

Lemma returned_annotations_on_tokens_witness :
  Forall (fun a => In (ann_start a) (token_starts_of (ws_tokens (lit "New York is big")))
                   /\ In (ann_end a) (token_ends_of (ws_tokens (lit "New York is big"))))
    [ann "CITY" 0 8 "New York"].
Proof.
  apply (returned_annotations_on_tokens (Conf := unit) ws_tokens (lit "<PAD>")
           (lit "New York is big") [lit "New "; lit "Yo"; lit " is big"]
           [Single (lit "CITY"); Single (lit "CITY"); Single (lit "<PAD>")] None
           [ann "CITY" 0 8 "New York"] []).
  reflexivity.
Defined.

(** ** No exception with sub-token predictions *)

Section Total.

Context {Conf : Type}.
Variables (none_value raw_text : str) (token_starts token_ends : list Z).

Lemma scan_open_total (label : str) (start : Z) (new_label : option str)
    (items : list (@Annotation Conf)) :
  exists r, scan_open false none_value label start new_label items = Ok r.
Proof.
  revert new_label. induction items as [|item rest IH]; intros new_label;
    cbn [scan_open join_test bind]; [eauto|].
  destruct (str_eqb (ann_label item) label && _); [eauto|].
  destruct (IH (Some label)) as ([[nl s] rest'] & ->). cbn [bind]. eauto.
Qed.

Lemma f2i_label_step_total (multi_label : bool) (sub_str : str)
    (confidences : option Conf) (st : f2i_state) (label : str) :
  exists st',
    f2i_label_step none_value true false raw_text token_starts token_ends multi_label
      sub_str confidences st label = Ok st'.
Proof.
  unfold f2i_label_step.
  destruct (negb (str_eqb label none_value)).
  - destruct (scan_open_total label
                (find raw_text (strip sub_str) (raw_annotation_start st)) None
                (doc_annotations st)) as ([[nl s] open] & ->).
    cbn [bind andb negb]. destruct (s =? -1); [eauto|].
    destruct (negb (in_ranges _ _)); eauto.
  - cbn [bind andb negb]. destruct (_ =? -1); eauto.
Qed.

Lemma f2i_labels_total (multi_label : bool) (sub_str : str)
    (confidences : option Conf) (label_list : list str) (st : f2i_state) :
  exists st',
    f2i_labels
      (f2i_label_step none_value true false raw_text token_starts token_ends multi_label
         sub_str confidences) label_list st = Ok st'.
Proof.
  revert st. induction label_list as [|label rest IH]; intros st; cbn [f2i_labels];
    [eauto|].
  destruct (f2i_label_step_total multi_label sub_str confidences st label) as (st1 & ->).
  cbn [bind]. apply IH.
Qed.

Lemma f2i_loop_total (segs : list (str * raw_label * option Conf)) (st : f2i_state) :
  Forall (fun seg => plain_label (snd (fst seg))) segs ->
  exists st',
    f2i_loop (f2i_segment_step none_value true false raw_text token_starts token_ends)
      segs st = Ok st'.
Proof.
  intros Hplain. revert st.
  induction Hplain as [|[[sub_str raw] confidences] rest Hraw _ IH]; intros st;
    cbn [f2i_loop]; [eauto|].
  unfold f2i_segment_step at 1. cbn [fst snd] in Hraw.
  destruct raw as [l|ls|ls]; [| |contradiction].
  - destruct (f2i_labels_total false sub_str confidences [l] st) as (st1 & ->).
    cbn [bind]. apply IH.
  - destruct (f2i_labels_total true sub_str confidences ls st) as (st1 & ->).
    cbn [bind]. apply IH.
Qed.

End Total.

Lemma map_result_total {A B : Type} (f : A -> result B) (l : list A) :
  (forall x, In x l -> exists y, f x = Ok y) -> exists ys, map_result f l = Ok ys.
Proof.
  induction l as [|x l IH]; intros Hf; cbn [map_result]; [eauto|].
  destruct (Hf x (or_introl eq_refl)) as (y & ->).
  destruct IH as (ys & ->); [intros z Hz; apply Hf; now right|]. cbn [bind]. eauto.
Qed.

(** X23. With [subtoken_predictions] on and [iob] off,
    [finetune_to_indico_sequence] raises no exception on a batch whose
    labels are strings or tuples of strings: every such batch of texts,
    segments, labels and confidences gives a result. (A label that is a
    list, as [indico_to_finetune_sequence] returns with [multi_label], is
    left out: see [list_label_raises].) *)
Theorem finetune_to_indico_sequence_total {Conf : Type} (NLP : str -> list token)
    (raw_texts : list str) (subseqs : list (list str)) (labels : list (list raw_label))
    (probs : option (list (list Conf))) (none_value : str) :
  Forall (Forall plain_label) labels ->
  exists annotations warned,
    finetune_to_indico_sequence NLP raw_texts subseqs labels probs none_value true false
    = Ok (raw_texts, annotations, warned).
Proof.
  intros Hplain. unfold finetune_to_indico_sequence.
  match goal with
  | |- context [map_result ?f ?l] => destruct (map_result_total f l) as (docs & ->)
  end.
  - intros [[[raw_text doc_seq] label_seq] prob_seq] Hin.
    apply in_combine_l, in_combine_r in Hin.
    rewrite Forall_forall in Hplain. specialize (Hplain _ Hin).
    unfold finetune_to_indico_doc.
    destruct (f2i_loop_total none_value raw_text
                (token_starts_of (NLP raw_text)) (token_ends_of (NLP raw_text))
                (zip_segments doc_seq label_seq prob_seq) f2i_init) as (st & ->).
    + now apply zip_segments_labels.
    + cbn [bind]. eauto.
  - cbn [bind]. eauto.
Qed.

Lemma finetune_to_indico_sequence_total_witness :
  exists annotations warned,
    finetune_to_indico_sequence (Conf := unit) ws_tokens [lit "Paris in May"]
      [[lit "Paris"; lit " in May"]]
      [[Tuple [lit "CITY"; lit "PLACE"]; Single (lit "<PAD>")]] None (lit "<PAD>")
      true false
    = Ok ([lit "Paris in May"], annotations, warned).
Proof.
  apply (finetune_to_indico_sequence_total (Conf := unit) ws_tokens [lit "Paris in May"]
           [[lit "Paris"; lit " in May"]]
           [[Tuple [lit "CITY"; lit "PLACE"]; Single (lit "<PAD>")]] None (lit "<PAD>")).
  repeat constructor.
Defined.

(** A label that is a list, when its segment is found in the document:
    without [iob] and with [subtoken_predictions] the lookup of the key
    raises TypeError; with [iob] the call of [iob_precedes] raises
    AttributeError. In particular the labels that
    [indico_to_finetune_sequence] returns with [multi_label] do not go back
    through [finetune_to_indico_sequence]. *)
Lemma list_label_raises {Conf : Type} (NLP : str -> list token) (none_value : str)
    (raw_text sub_str : str) (ls : list str) (prob_seq : option (list Conf)) :
  find raw_text (strip sub_str) 0 <> -1 ->
  finetune_to_indico_doc NLP none_value true false raw_text [sub_str] [Listed ls]
    prob_seq = Raise TypeError
  /\ forall subtoken_predictions,
       finetune_to_indico_doc NLP none_value subtoken_predictions true raw_text
         [sub_str] [Listed ls] prob_seq = Raise AttributeError.
Proof.
  intros Hfound.
  assert (Hzip : exists confidences,
             zip_segments [sub_str] [Listed ls] prob_seq
             = [(sub_str, Listed ls, confidences)]).
  { unfold zip_segments. destruct prob_seq as [[|c cs]|]; cbn; eauto. }
  destruct Hzip as (confidences & Hzip).
  unfold finetune_to_indico_doc. rewrite Hzip.
  cbn [f2i_loop f2i_segment_step]. unfold f2i_list_label_step.
  cbn [f2i_init raw_annotation_start negb]. split; [|reflexivity].
  apply Z.eqb_neq in Hfound. now rewrite Hfound.
Qed.

(** The labels that [indico_to_finetune_sequence] returns with
    [multi_label] for a text do not go back: the segment that is the whole
    text is always found, and its label is a list. *)
Lemma whole_text_list_label_raises {Conf : Type} (NLP : str -> list token)
    (none_value text : str) (prob_seq : option (list Conf)) :
  finetune_to_indico_doc NLP none_value true false text [text]
    [as_raw (filler true none_value)] prob_seq
  = Raise TypeError.
Proof.
  apply list_label_raises.
  destruct (strip_middle text) as (w1 & w2 & Hw).
  pose proof (find_occurrence w1 (strip text) w2 0) as Hfind.
  rewrite <- Hw in Hfind. pose proof (len_nonneg w1). lia.
Qed.

(** ** A label given twice *)

Lemma find_found_nonneg (s sub : str) : find s sub 0 <> -1 -> 0 <= find s sub 0.
Proof.
  intros H. unfold find in *. cbn [Z.ltb Z.compare] in *.
  destruct (len s <? 0); [contradiction|].
  destruct (find_from_range (skipn (Z.to_nat 0) s) sub 0) as [Hr|Hr]; [contradiction|lia].
Qed.

(** X24. With [subtoken_predictions] on and [iob] off, a document of one
    segment whose text is found in the document and whose labels are the
    same label twice comes back without any annotation and without a
    warning: the second label joins the annotation of the first and takes it
    off the list, and the joined annotation is then dropped as a duplicate
    of the one taken off. *)
Theorem repeated_label_erases {Conf : Type} (NLP : str -> list token)
    (none_value raw_text sub_str label : str) (prob_seq : option (list Conf)) :
  label <> none_value ->
  find raw_text (strip sub_str) 0 <> -1 ->
  finetune_to_indico_doc NLP none_value true false raw_text [sub_str]
    [Tuple [label; label]] prob_seq
  = Ok ([], []).
Proof.
  intros Hlabel Hfound. pose proof (find_found_nonneg _ _ Hfound) as Hpos.
  apply str_eqb_neq in Hlabel.
  unfold finetune_to_indico_doc.
  assert (Hzip : exists confidences,
             zip_segments [sub_str] [Tuple [label; label]] prob_seq
             = [(sub_str, Tuple [label; label], confidences)]).
  { unfold zip_segments. destruct prob_seq as [[|c cs]|]; cbn; eauto. }
  destruct Hzip as (confidences & ->).
  set (p := find raw_text (strip sub_str) 0) in *.
  assert (Hp : (p =? -1) = false) by now apply Z.eqb_neq.
  set (e := p + len (strip sub_str)).
  set (st1 := {| doc_annotations :=
                   [{| ann_start := p; ann_end := e; ann_label := or_str None label;
                       ann_text := Some (slice raw_text (Some p) (Some e));
                       ann_confidence := confidences |}];
                 annotation_ranges := [(p, e, label)];
                 start_idx := 0; end_idx := 0; raw_annotation_start := p;
                 warnings := [] |}).
  set (step := f2i_label_step none_value true false raw_text
                 (token_starts_of (NLP raw_text)) (token_ends_of (NLP raw_text))
                 true sub_str confidences).
  assert (H1 : step f2i_init label = Ok st1).
  { unfold step, f2i_label_step.
    cbn [f2i_init raw_annotation_start doc_annotations annotation_ranges start_idx
         end_idx warnings].
    fold p. rewrite Hlabel. cbn [negb scan_open bind andb orb in_ranges existsb].
    rewrite Hp. reflexivity. }
  assert (H2 : step st1 label
               = Ok {| doc_annotations := []; annotation_ranges := [(p, e, label)];
                       start_idx := 0; end_idx := 0; raw_annotation_start := p;
                       warnings := [] |}).
  { unfold step, f2i_label_step, st1.
    cbn [raw_annotation_start doc_annotations annotation_ranges start_idx end_idx
         warnings].
    rewrite (find_later raw_text (strip sub_str) p p eq_refl) by lia.
    rewrite Hlabel. cbn [negb scan_open join_test bind ann_label ann_end ann_start].
    rewrite or_str_same by now left. rewrite str_eqb_refl.
    pose proof (len_nonneg (strip sub_str)) as Hlen.
    destruct (Z.leb_spec (p - e) 1); [|unfold e in *; lia].
    cbn [andb bind orb negb]. rewrite Hp.
    cbn [in_ranges existsb range_eqb]. fold e. rewrite !Z.eqb_refl, str_eqb_refl.
    reflexivity. }
  cbn [f2i_loop f2i_segment_step f2i_labels]. fold step. rewrite H1. cbn [bind].
  rewrite H2. reflexivity.
Qed.

Lemma repeated_label_erases_witness :
  finetune_to_indico_doc (Conf := unit) ws_tokens (lit "<PAD>") true false (lit "Paris")
    [lit "Paris"] [Tuple [lit "CITY"; lit "CITY"]] None
  = Ok ([], []).
Proof.
  apply (repeated_label_erases (Conf := unit) ws_tokens (lit "<PAD>") (lit "Paris")
           (lit "Paris") (lit "CITY") None);
    [discriminate | vm_compute; discriminate].
Defined.

(** ** The pieces of the IOB expansion *)

(** X25. With [iob], an annotation that is not labelled with the filler is
    expanded into one, two or three pieces, as its text is encoded into at
    most one, two, or more sub-tokens: the labels of the pieces are, in this
    order, B-, E- and I- followed by the label, and there is always the B
    piece. *)
Theorem iob_expand_pieces {Conf : Type} (ENCODER_char_locs : str -> list Z)
    (none_value text : str) (a : @Annotation Conf) :
  ann_label a <> none_value ->
  let sub_text :=
    or_str (ann_text a) (slice text (Some (ann_start a)) (Some (ann_end a))) in
  let n := Z.max 1 (len (ENCODER_char_locs sub_text)) in
  map ann_label (iob_expand ENCODER_char_locs none_value text a)
  = firstn (Z.to_nat n)
      [lit "B-" ++ ann_label a; lit "E-" ++ ann_label a; lit "I-" ++ ann_label a].
Proof.
  intros Hlabel sub_text n. unfold iob_expand. apply str_eqb_neq in Hlabel.
  rewrite Hlabel. fold sub_text. rewrite slice_drop_last.
  set (char_locs := ENCODER_char_locs sub_text) in *.
  assert (Hn : len (0 :: removelast char_locs) = n).
  { unfold n, len. cbn [length]. destruct char_locs as [|c cs]; [reflexivity|].
    assert (Hrl : length (removelast (c :: cs)) = length cs).
    { clear. revert c. induction cs as [|d cs IH]; intros c; [reflexivity|].
      change (removelast (c :: d :: cs)) with (c :: removelast (d :: cs)).
      cbn [length]. now rewrite IH. }
    rewrite Hrl. cbn [length]. lia. }
  rewrite Hn. assert (Hn1 : 1 <= n) by (unfold n; lia).
  destruct (Z.ltb_spec 0 n); [|lia].
  destruct (Z.ltb_spec 1 n); destruct (Z.ltb_spec 2 n); try lia.
  - replace (Z.to_nat n) with (S (S (S (Z.to_nat (n - 3))))) by lia.
    cbn [firstn map app ann_label]. now rewrite firstn_nil.
  - replace n with 2 by lia. reflexivity.
  - replace n with 1 by lia. reflexivity.
Qed.

Lemma iob_expand_pieces_witness :
  let a := {| ann_start := 2; ann_end := 9; ann_label := lit "PERSON";
              ann_text := None; ann_confidence := @None unit |} in
  let sub_text :=
    or_str (ann_text a) (slice (lit "a John Pa.") (Some (ann_start a)) (Some (ann_end a))) in
  let n := Z.max 1 (len (four_char_locs sub_text)) in
  map ann_label (iob_expand four_char_locs (lit "<PAD>") (lit "a John Pa.") a)
  = firstn (Z.to_nat n)
      [lit "B-" ++ ann_label a; lit "E-" ++ ann_label a; lit "I-" ++ ann_label a].
Proof.
  intros a.
  apply (iob_expand_pieces four_char_locs (lit "<PAD>") (lit "a John Pa.") a).
  discriminate.
Defined.
